(** * Cost tracker: event reconciliation and cost computation

    A shallow embedding of [tracker.py]: the pricing resolver
    ([price_for]), the token estimator ([estimate_tokens]), the transcript
    scanner ([parse_real_usage]) and the session analysis ([analyse]),
    followed by the properties the design document states about them.

    Conventions of the embedding.
    - Python [int] is [Z]; Python [float] (rates, costs, timestamps) is
      idealised as an exact rational [Q], so every statement about a cost
      is a statement in exact arithmetic, compared with [==].
    - A JSON object read with [.get] is a record of [option] fields; a key
      read with [d[k]] that is absent raises [KeyError], see [outcome].
    - [dict] is [gmap], [set] is [gset]. *)

From Stdlib Require Import QArith Qround ZArith String Ascii List Lia Lqa.
From stdpp Require Import gmap strings list fin_maps sorting pretty.

Local Open Scope string_scope.
Local Open Scope list_scope.
Local Open Scope nat_scope.

(** ** Python helpers *)

(** What a call does: return a value or raise. *)
Inductive outcome (A : Type) : Type :=
| Returned (a : A)
| Raised (exc : string).
Arguments Returned {A} a.
Arguments Raised {A} exc.

#[global] Instance outcome_ret : MRet outcome := fun A a => Returned a.
#[global] Instance outcome_bind : MBind outcome := fun A B k m =>
  match m with
  | Returned a => k a
  | Raised e => Raised e
  end.
#[global] Instance outcome_fmap : FMap outcome := fun A B f m =>
  match m with
  | Returned a => Returned (f a)
  | Raised e => Raised e
  end.

(** Truthiness of an optional string: [None] and the empty string are falsy. *)
Definition truthy (o : option string) : bool :=
  match o with
  | Some s => negb (String.eqb s "")
  | None => false
  end.

(** [a or b] on optional strings. *)
Definition py_or (a b : option string) : option string :=
  if truthy a then a else b.

(** [x < y] on rationals, as a boolean. *)
Definition Qltb (x y : Q) : bool := negb (Qle_bool y x).

Definition key_error (k : string) : string := "KeyError: '" +:+ k +:+ "'".

(** [d[k]]: the value, or [KeyError]. *)
Definition subscript {A} (k : string) (field : option A) : outcome A :=
  match field with
  | Some v => Returned v
  | None => Raised (key_error k)
  end.

(** [sum(...)] over integers and over floats, left to right from 0. *)
Definition sum_Z (l : list Z) : Z := foldl Z.add 0%Z l.
Definition sum_Q (l : list Q) : Q := foldl Qplus 0%Q l.

(** [max(..., default=0)] over integers. *)
Definition max_default0 (l : list Z) : Z :=
  match l with
  | [] => 0%Z
  | x :: rest => foldl Z.max x rest
  end.

(** [s.split("-")]. *)
Fixpoint split_dash (s : string) : list string :=
  match s with
  | EmptyString => [EmptyString]
  | String c rest =>
      if Ascii.eqb c "-" then EmptyString :: split_dash rest
      else match split_dash rest with
           | p :: ps => String c p :: ps
           | [] => [String c EmptyString]
           end
  end.

(** [range(start, stop, -1)]: start, start-1, ..., stop+1. *)
Definition range_down (start stop : nat) : list nat :=
  rev (seq (S stop) (start - stop)).

(** ** Constants and categories *)

Definition TOOL_CATEGORIES : gmap string string :=
  list_to_map
    [ ("Read", "Reading files");      ("Write", "Writing files");
      ("Edit", "Editing files");      ("MultiEdit", "Editing files");
      ("Bash", "Running commands");   ("Task", "Delegating to sub-task");
      ("Grep", "Searching code");     ("Glob", "Searching code");
      ("WebFetch", "Browsing web");   ("WebSearch", "Browsing web") ].

(** [tool_name] is whatever [e.get("tool")] gave; [str(None)] is ["None"],
    which carries no [mcp__] prefix and is no key of the table. *)
Definition category_for (tool_name : option string) : string :=
  match tool_name with
  | Some t =>
      if String.prefix "mcp__" t then "MCP tool call"
      else default "Other" (TOOL_CATEGORIES !! t)
  | None => "Other"
  end.

(** One entry of the [models] table of pricing.json. [input] and [output]
    are read with [pricing["input"]], the two cache rates with [.get]. *)
Record rate_card := {
  input : Q;
  output : Q;
  cache_creation : option Q;
  cache_read : option Q
}.

Definition FALLBACK_PRICING : rate_card :=
  {| input := 3; output := 15;
     cache_creation := Some (375 # 100); cache_read := Some (30 # 100) |}.
Definition CONTEXT_CAP : Z := 200000.
Definition MAX_RESPONSE_TOKENS : Z := 50000.

(** ** Pricing resolver *)

(** The candidates of the prefix loop, in the order the loop tries them. *)
Definition prefix_candidates (model : string) : list string :=
  let parts := split_dash model in
  (fun e => String.concat "-" (take e parts)) <$> range_down (length parts) 2.

(** The [for end in range(...)] loop: the first candidate in the table. *)
Fixpoint first_priced (models_dict : gmap string rate_card)
    (candidates : list string) : option rate_card :=
  match candidates with
  | [] => None
  | candidate :: rest =>
      match models_dict !! candidate with
      | Some card => Some card
      | None => first_priced models_dict rest
      end
  end.

Definition fallback_warning (model : string) : string :=
  "[cost-tracker] Warning: model '" +:+ model
    +:+ "' not in pricing.json, using sonnet fallback".

(** [price_for]: the card, paired with the lines written to stderr. *)
Definition price_for (model : string) (models_dict : gmap string rate_card)
    (aliases_dict : option (gmap string string)) : rate_card * list string :=
  let aliases_dict := default ∅ aliases_dict in
  match models_dict !! model with
  | Some card => (card, [])
  | None =>
      let resolved := aliases_dict !! model in
      match (if truthy resolved then resolved ≫= (models_dict !!.) else None) with
      | Some card => (card, [])
      | None =>
          match first_priced models_dict (prefix_candidates model) with
          | Some card => (card, [])
          | None => (FALLBACK_PRICING, [fallback_warning model])
          end
      end
  end.

(** ** Token estimate *)

(** [min(len(str(text)) // 4, MAX_RESPONSE_TOKENS)]; [str] is the string
    form of the value type at hand. *)
Definition estimate_tokens {V : Type} (str : V -> string) (text : V) : Z :=
  Z.min (Z.of_nat (String.length (str text)) / 4) MAX_RESPONSE_TOKENS.

(** ** Instrumentation events *)

(** One line of the per-session log, as [json.loads] gives it; every key
    the analysis reads is a field, [None] when the key is absent. *)
Record event := {
  ev_type : option string;
  ev_ts : option Q;
  ev_tool : option string;
  ev_session_id : option string;
  ev_input_tokens : option Z;
  ev_response_tokens : option Z;
  ev_file_path : option string;
  ev_command : option string;
  ev_model : option string
}.

(** The event [mode_pre] appends. [V] is the type of JSON values, [dumps]
    is [json.dumps] and [get] reads a string-valued key of [tool_input]. *)
Definition mode_pre_event {V : Type} (dumps : V -> string)
    (get : V -> string -> option string)
    (now : Q) (session_id tool_name : string) (tool_input : V) : event :=
  {| ev_type := Some "pre";
     ev_ts := Some now;
     ev_tool := Some tool_name;
     ev_session_id := Some session_id;
     ev_input_tokens := Some (estimate_tokens id (dumps tool_input));
     ev_response_tokens := None;
     ev_file_path :=
       if bool_decide (tool_name ∈ ["Read"; "Write"; "Edit"; "MultiEdit"])
       then py_or (get tool_input "file_path")
              (py_or (get tool_input "path") (get tool_input "filename"))
       else None;
     ev_command :=
       if String.eqb tool_name "Bash"
       then Some (substring 0 200 (default "" (get tool_input "command")))
       else None;
     ev_model := None |}.

(** The event [mode_post] appends. [str] is Python's [str] on JSON values
    and [model_of] reads the ["model"] key when the value is an object
    that has one. *)
Definition mode_post_event {V : Type} (str : V -> string)
    (model_of : V -> option string)
    (now : Q) (session_id tool_name : string) (tool_response : V) : event :=
  {| ev_type := Some "post";
     ev_ts := Some now;
     ev_tool := Some tool_name;
     ev_session_id := Some session_id;
     ev_input_tokens := None;
     ev_response_tokens := Some (estimate_tokens str tool_response);
     ev_file_path := None;
     ev_command := None;
     ev_model := model_of tool_response |}.

(** [==] on optional fields and on events (dict equality, floats compared
    by value). *)
Definition opt_eqb {A} (eqb : A -> A -> bool) (a b : option A) : bool :=
  match a, b with
  | Some x, Some y => eqb x y
  | None, None => true
  | _, _ => false
  end.

Definition event_eqb (a b : event) : bool :=
  opt_eqb String.eqb (ev_type a) (ev_type b)
  && opt_eqb Qeq_bool (ev_ts a) (ev_ts b)
  && opt_eqb String.eqb (ev_tool a) (ev_tool b)
  && opt_eqb String.eqb (ev_session_id a) (ev_session_id b)
  && opt_eqb Z.eqb (ev_input_tokens a) (ev_input_tokens b)
  && opt_eqb Z.eqb (ev_response_tokens a) (ev_response_tokens b)
  && opt_eqb String.eqb (ev_file_path a) (ev_file_path b)
  && opt_eqb String.eqb (ev_command a) (ev_command b)
  && opt_eqb String.eqb (ev_model a) (ev_model b).

(** [l.remove(x)]: drop the first element equal to [x]; [ValueError] when
    there is none. *)
Fixpoint list_remove (x : event) (l : list event) : outcome (list event) :=
  match l with
  | [] => Raised "ValueError: list.remove(x): x not in list"
  | y :: rest =>
      if event_eqb y x then Returned rest
      else rest' ← list_remove x rest; mret (y :: rest')
  end.

(** ** Timing pairs *)

Definition is_type (kind : string) (e : event) : bool :=
  opt_eqb String.eqb (ev_type e) (Some kind).

Definition pre_events (events : list event) : list event :=
  List.filter (is_type "pre") events.
Definition post_events (events : list event) : list event :=
  List.filter (is_type "post") events.

(** [post_by_tool[p.get("tool")].append(p)] for every post event. *)
Definition group_by_tool (posts : list event) : gmap (option string) (list event) :=
  foldl (fun by_tool p =>
           <[ev_tool p := default [] (by_tool !! ev_tool p) ++ [p]]> by_tool)
        ∅ posts.

(** One entry of [paired]. *)
Record paired := {
  p_tool : option string;
  p_category : string;
  p_elapsed_s : Q;
  p_input_tokens : Z;
  p_response_tokens : Z;
  p_file_path : option string;
  p_command : option string;
  p_ts : Q
}.

(** One iteration of the pairing loop, kept for the proofs: the [pre]
    event, the value of [matched] before it becomes [{}], and the entry
    appended to [paired]. *)
Record pairing := {
  pg_pre : event;
  pg_matched : option event;
  pg_record : paired
}.

Definition ts_or_0 (e : event) : Q := default 0%Q (ev_ts e).

(** [next((c for c in candidates if c.get("ts", 0) > pre.get("ts", 0)), None)] *)
Definition select_match (pre : event) (candidates : list event) : option event :=
  List.find (fun c => Qltb (ts_or_0 pre) (ts_or_0 c)) candidates.

(** The body of [for pre in pre_events]. The list held by [post_by_tool]
    is updated in place by [candidates.remove]; [if matched] holds for
    every post event, a dict that has at least its ["type"] key. *)
Definition pair_one (post_by_tool : gmap (option string) (list event))
    (pre : event) : outcome (gmap (option string) (list event) * pairing) :=
  let tool := ev_tool pre in
  let candidates := default [] (post_by_tool !! tool) in
  match select_match pre candidates with
  | Some matched =>
      candidates' ← list_remove matched candidates;
      matched_ts ← subscript "ts" (ev_ts matched);
      pre_ts ← subscript "ts" (ev_ts pre);
      mret (<[tool := candidates']> post_by_tool,
            {| pg_pre := pre; pg_matched := Some matched;
               pg_record :=
                 {| p_tool := tool;
                    p_category := category_for tool;
                    p_elapsed_s := (matched_ts - pre_ts)%Q;
                    p_input_tokens := default 0%Z (ev_input_tokens pre);
                    p_response_tokens := default 0%Z (ev_response_tokens matched);
                    p_file_path := py_or (ev_file_path pre) (ev_file_path matched);
                    p_command := ev_command pre;
                    p_ts := ts_or_0 pre |} |})
  | None =>
      mret (post_by_tool,
            {| pg_pre := pre; pg_matched := None;
               pg_record :=
                 {| p_tool := tool;
                    p_category := category_for tool;
                    p_elapsed_s := 0%Q;
                    p_input_tokens := default 0%Z (ev_input_tokens pre);
                    p_response_tokens := 0%Z;
                    p_file_path := py_or (ev_file_path pre) None;
                    p_command := ev_command pre;
                    p_ts := ts_or_0 pre |} |})
  end.

Fixpoint pair_loop (post_by_tool : gmap (option string) (list event))
    (pres : list event)
    : outcome (gmap (option string) (list event) * list pairing) :=
  match pres with
  | [] => mret (post_by_tool, [])
  | pre :: rest =>
      '(post_by_tool', pg) ← pair_one post_by_tool pre;
      '(pool, pgs) ← pair_loop post_by_tool' rest;
      mret (pool, pg :: pgs)
  end.

(** The pairing of a whole log: the pool left over and one [pairing] per
    [pre] event, in order. *)
Definition pair_events (events : list event)
    : outcome (gmap (option string) (list event) * list pairing) :=
  pair_loop (group_by_tool (post_events events)) (pre_events events).

(** The list [paired] of [analyse]. *)
Definition paired_of_log (events : list event) : outcome (list paired) :=
  match pair_events events with
  | Returned (_, pairings) => Returned (pg_record <$> pairings)
  | Raised exc => Raised exc
  end.

(** ** Transcript scan *)

Record usage := {
  u_input_tokens : option Z;
  u_output_tokens : option Z;
  u_cache_creation_input_tokens : option Z;
  u_cache_read_input_tokens : option Z
}.

Record message := {
  msg_usage : option usage;
  msg_model : option string
}.

(** A transcript line that parsed to a JSON object. *)
Record entry := {
  entry_type : option string;
  entry_message : option message;
  requestId : option string;
  timestamp : option string
}.

(** A transcript line as the scan meets it: blank after [strip], rejected
    by [json.loads], parsed to an object, or one at which the iteration or
    the loop body raises (a read error, a line that is valid JSON but no
    object, a [null] where a number or an object is expected). *)
Inductive line :=
| Blank
| NotJson
| Faulty
| Entry (d : entry).

(** What [open(jsonl_path)] meets. *)
Inductive file :=
| Unreadable
| Readable (lines : list line).

(** One element of [api_calls]. *)
Record api_call := {
  ac_ts : string;
  ac_model : string;
  ac_input : Z;
  ac_output : Z;
  ac_cache_create : Z;
  ac_cache_read : Z;
  ac_total_ctx : Z
}.

Definition call_of (d : entry) (msg : message) (u : usage) : api_call :=
  let inp := default 0%Z (u_input_tokens u) in
  let out := default 0%Z (u_output_tokens u) in
  let cc := default 0%Z (u_cache_creation_input_tokens u) in
  let cr := default 0%Z (u_cache_read_input_tokens u) in
  {| ac_ts := default "" (timestamp d);
     ac_model := default "" (msg_model msg);
     ac_input := inp;
     ac_output := out;
     ac_cache_create := cc;
     ac_cache_read := cr;
     ac_total_ctx := (inp + cc + cr)%Z |}.

Definition empty_message : message := {| msg_usage := None; msg_model := None |}.

(** The [for line in f] loop with its two accumulators; [None] when an
    exception reaches the outer [except]. *)
Fixpoint scan (lines : list line) (seen_req : gset (option string))
    (api_calls : list api_call) : option (list api_call) :=
  match lines with
  | [] => Some api_calls
  | Blank :: rest => scan rest seen_req api_calls
  | NotJson :: rest => scan rest seen_req api_calls
  | Faulty :: rest => None
  | Entry d :: rest =>
      if negb (opt_eqb String.eqb (entry_type d) (Some "assistant"))
      then scan rest seen_req api_calls
      else
        let msg := default empty_message (entry_message d) in
        match msg_usage msg with
        | None => scan rest seen_req api_calls
        | Some u =>
            let req_id := requestId d in
            if bool_decide (req_id ∈ seen_req)
            then scan rest seen_req api_calls
            else scan rest ({[req_id]} ∪ seen_req)
                      (api_calls ++ [call_of d msg u])
        end
  end.

Record usage_summary := {
  us_input_tokens : Z;
  us_output_tokens : Z;
  us_cache_creation_tokens : Z;
  us_cache_read_tokens : Z;
  us_api_calls : nat;
  us_model : string;
  us_context_by_turn : list (string * Z)
}.

(** [next((e["model"] for e in reversed(api_calls) if e["model"]), "")] *)
Definition last_model (api_calls : list api_call) : string :=
  default "" (List.find (fun m => negb (String.eqb m ""))
                        (rev (ac_model <$> api_calls))).

Definition summarise (api_calls : list api_call) : usage_summary :=
  {| us_input_tokens := sum_Z (ac_input <$> api_calls);
     us_output_tokens := sum_Z (ac_output <$> api_calls);
     us_cache_creation_tokens := sum_Z (ac_cache_create <$> api_calls);
     us_cache_read_tokens := sum_Z (ac_cache_read <$> api_calls);
     us_api_calls := length api_calls;
     us_model := last_model api_calls;
     us_context_by_turn := (fun e => (ac_ts e, ac_total_ctx e)) <$> api_calls |}.

(** [parse_real_usage] on what the path holds. *)
Definition parse_file (f : file) : option usage_summary :=
  match f with
  | Unreadable => None
  | Readable lines =>
      match scan lines ∅ [] with
      | None => None
      | Some [] => None
      | Some api_calls => Some (summarise api_calls)
      end
  end.

(** [parse_real_usage(jsonl_path)]; [fs] is the file system. *)
Definition parse_real_usage (fs : string -> file) (jsonl_path : string)
    : option usage_summary :=
  parse_file (fs jsonl_path).

(** ** Analysis *)

(** The ["ts"] of a timeline point: the transcript's timestamp text in
    authoritative mode, the event time in degraded mode. *)
Inductive stamp :=
| StampText (s : string)
| StampTime (t : Q).

Record timeline_point := {
  tp_ts : stamp;
  tp_tokens : Z
}.

(** The result of [analyse]. The report-only entries ([duration_s],
    [time_by_category], [total_timed], [file_map], [bash_commands],
    [suggestions]) are left out. *)
Record analysis := {
  total_cost : Q;
  peak_tokens : Z;
  tool_calls : nat;
  api_calls : nat;
  context_timeline : list timeline_point;
  model : string;
  using_real_data : bool;
  pricing : rate_card;
  inp_tok : Z;
  out_tok : Z;
  cc_tok : Z;
  cr_tok : Z
}.

Definition DEFAULT_MODEL : string := "claude-sonnet-4-6".

(** The [total_cost] expression of the authoritative branch. *)
Definition authoritative_cost (pricing : rate_card) (inp_tok out_tok cc_tok cr_tok : Z) : Q :=
  ((inject_Z inp_tok * input pricing
    + inject_Z out_tok * output pricing
    + inject_Z cc_tok * default (input pricing * (125 # 100)) (cache_creation pricing)
    + inject_Z cr_tok * default (input pricing * (1 # 10)) (cache_read pricing))
   / 1000000)%Q.

(** [sorted(paired, key=lambda x: x["ts"])]: a stable sort. *)
Fixpoint insert_by_ts (x : paired) (l : list paired) : list paired :=
  match l with
  | [] => [x]
  | y :: rest =>
      if Qle_bool (p_ts x) (p_ts y) then x :: l
      else y :: insert_by_ts x rest
  end.

Definition sorted_by_ts (l : list paired) : list paired :=
  foldr insert_by_ts [] l.

(** The state of the degraded loop. *)
Record degraded_state := {
  ds_cumulative_tokens : Z;
  ds_total_cost : Q;
  ds_context_timeline : list timeline_point
}.

(** One iteration of [for i, ev in enumerate(sorted_events)]. *)
Definition degraded_step (input_price output_price : Q) (context_cap : Z)
    (turn_count : nat) (i : nat) (ev : paired) (st : degraded_state)
    : degraded_state :=
  let added := (p_input_tokens ev + p_response_tokens ev)%Z in
  let cumulative_tokens := Z.min (ds_cumulative_tokens st + added) context_cap in
  let turns_remaining := (Z.of_nat turn_count - Z.of_nat i)%Z in
  let turn_cost :=
    (inject_Z (p_response_tokens ev) * input_price * inject_Z turns_remaining
     + inject_Z (p_response_tokens ev) * output_price)%Q in
  {| ds_cumulative_tokens := cumulative_tokens;
     ds_total_cost := (ds_total_cost st + turn_cost)%Q;
     ds_context_timeline :=
       ds_context_timeline st
         ++ [{| tp_ts := StampTime (p_ts ev); tp_tokens := cumulative_tokens |}] |}.

Fixpoint degraded_loop (input_price output_price : Q) (context_cap : Z)
    (turn_count : nat) (i : nat) (evs : list paired) (st : degraded_state)
    : degraded_state :=
  match evs with
  | [] => st
  | ev :: rest =>
      degraded_loop input_price output_price context_cap turn_count (S i) rest
        (degraded_step input_price output_price context_cap turn_count i ev st)
  end.

(** The degraded branch from [sorted_events] on. *)
Definition degraded_run (pricing : rate_card) (context_cap : Z)
    (paired_list : list paired) : degraded_state :=
  let input_price := (input pricing / 1000000)%Q in
  let output_price := (output pricing / 1000000)%Q in
  let sorted_events := sorted_by_ts paired_list in
  degraded_loop input_price output_price context_cap (length sorted_events) 0
    sorted_events
    {| ds_cumulative_tokens := 0; ds_total_cost := 0; ds_context_timeline := [] |}.

(** [next((e.get("model") for e in events if e.get("model")), default)] *)
Definition first_model (events : list event) : string :=
  default DEFAULT_MODEL
    (head (omap (fun e => if truthy (ev_model e) then ev_model e else None) events)).

Definition analyse_real (real_usage : usage_summary) (n_paired : nat)
    (pricing_models : gmap string rate_card) (pricing_aliases : gmap string string)
    : analysis :=
  let model := if String.eqb (us_model real_usage) "" then DEFAULT_MODEL
               else us_model real_usage in
  let pricing := fst (price_for model pricing_models (Some pricing_aliases)) in
  let context_timeline :=
    (fun e => {| tp_ts := StampText (fst e); tp_tokens := snd e |})
      <$> us_context_by_turn real_usage in
  {| total_cost :=
       authoritative_cost pricing (us_input_tokens real_usage)
         (us_output_tokens real_usage) (us_cache_creation_tokens real_usage)
         (us_cache_read_tokens real_usage);
     peak_tokens := max_default0 (tp_tokens <$> context_timeline);
     tool_calls := n_paired;
     api_calls := us_api_calls real_usage;
     context_timeline := context_timeline;
     model := model;
     using_real_data := true;
     pricing := pricing;
     inp_tok := us_input_tokens real_usage;
     out_tok := us_output_tokens real_usage;
     cc_tok := us_cache_creation_tokens real_usage;
     cr_tok := us_cache_read_tokens real_usage |}.

Definition analyse_estimated (events : list event) (paired_list : list paired)
    (pricing_models : gmap string rate_card) (pricing_aliases : gmap string string)
    (context_cap : Z) : analysis :=
  let model := first_model events in
  let pricing := fst (price_for model pricing_models (Some pricing_aliases)) in
  let st := degraded_run pricing context_cap paired_list in
  {| total_cost := ds_total_cost st;
     peak_tokens := max_default0 (tp_tokens <$> ds_context_timeline st);
     tool_calls := length paired_list;
     api_calls := length paired_list;
     context_timeline := ds_context_timeline st;
     model := model;
     using_real_data := false;
     pricing := pricing;
     inp_tok := 0; out_tok := 0; cc_tok := 0; cr_tok := 0 |}.

(** [analyse]. [Returned None] is the empty dict of an empty log;
    [jsonl_path] is [None] or a path (a path object is always truthy). *)
Definition analyse (fs : string -> file) (events : list event)
    (pricing_models : gmap string rate_card) (pricing_aliases : gmap string string)
    (context_cap : Z) (jsonl_path : option string) : outcome (option analysis) :=
  match events with
  | [] => mret None
  | _ =>
      paired_list ← paired_of_log events;
      let real_usage := jsonl_path ≫= parse_real_usage fs in
      match real_usage with
      | Some ru =>
          mret (Some (analyse_real ru (length paired_list)
                        pricing_models pricing_aliases))
      | None =>
          mret (Some (analyse_estimated events paired_list
                        pricing_models pricing_aliases context_cap))
      end
  end.

(** ** Definitions that follow the design document's wording *)

(** "progressively shorter dash-delimited prefixes ... longest first, down
    to a minimum of 3 segments": the prefix of [k] segments. *)
Definition spec_prefix_of_segments (model : string) (k : nat) : string :=
  String.concat "-" (take k (split_dash model)).

(** The alias rule does not fire: no alias, an empty target, or a target
    the rate-card table lacks. *)
Definition alias_misses (model : string) (models_dict : gmap string rate_card)
    (aliases_dict : gmap string string) : Prop :=
  ∀ target, aliases_dict !! model = Some target →
            target = "" ∨ models_dict !! target = None.

(** ** Notions used to state the pairing properties *)

#[global] Instance Q_eq_dec : EqDecision Q.
Proof. solve_decision. Defined.

#[global] Instance event_eq_dec : EqDecision event.
Proof. solve_decision. Defined.

(** "an [after] event ... whose timestamp exceeds the [before] timestamp" *)
Definition later_than (pre c : event) : Prop := (ts_or_0 pre < ts_or_0 c)%Q.

(** The after events of one tool, in log order. *)
Definition posts_of_tool (tool : option string) (posts : list event) : list event :=
  filter (fun p => ev_tool p = tool) posts.

(** The after events of a tool that are still in the pool. *)
Definition pending (pool : gmap (option string) (list event))
    (tool : option string) : list event :=
  default [] (pool !! tool).

(** Every list of the pool holds after events of its own tool, in log
    order. *)
Definition pool_within (posts : list event)
    (pool : gmap (option string) (list event)) : Prop :=
  ∀ tool, pending pool tool `sublist_of` posts_of_tool tool posts.

(** Non-decreasing timestamps along a list of events. *)
Definition ts_sorted (l : list event) : Prop :=
  StronglySorted (fun a b => (ts_or_0 a <= ts_or_0 b)%Q) l.

(** "Unmatched [before] events yield elapsed = 0 with empty match": the
    entry takes nothing from an after event. *)
Definition empty_match (pg : pairing) : Prop :=
  p_elapsed_s (pg_record pg) = 0%Q
  ∧ p_response_tokens (pg_record pg) = 0%Z
  ∧ p_file_path (pg_record pg) = py_or (ev_file_path (pg_pre pg)) None.

(** What an iteration does with the pool and what it records. *)
Definition step_spec (pool pool' : gmap (option string) (list event))
    (pre : event) (pg : pairing) : Prop :=
  pg_pre pg = pre
  ∧ p_ts (pg_record pg) = ts_or_0 pre
  ∧ p_tool (pg_record pg) = ev_tool pre
  ∧ p_category (pg_record pg) = category_for (ev_tool pre)
  ∧ p_input_tokens (pg_record pg) = default 0%Z (ev_input_tokens pre)
  ∧ match pg_matched pg with
    | Some matched =>
        ∃ l1 l2 matched_ts pre_ts,
          pending pool (ev_tool pre) = l1 ++ matched :: l2
          ∧ Forall (fun c => ¬ later_than pre c) l1
          ∧ later_than pre matched
          ∧ pool' = <[ev_tool pre := l1 ++ l2]> pool
          ∧ ev_ts matched = Some matched_ts
          ∧ ev_ts pre = Some pre_ts
          ∧ p_elapsed_s (pg_record pg) = (matched_ts - pre_ts)%Q
          ∧ p_response_tokens (pg_record pg)
            = default 0%Z (ev_response_tokens matched)
    | None =>
        Forall (fun c => ¬ later_than pre c) (pending pool (ev_tool pre))
        ∧ pool' = pool
        ∧ empty_match pg
    end.

(** What the loop records for a [before] event: a later after event of the
    same tool, or an empty match. *)
Definition pairing_ok (pg : pairing) : Prop :=
  match pg_matched pg with
  | Some matched =>
      ev_tool matched = ev_tool (pg_pre pg)
      ∧ later_than (pg_pre pg) matched
      ∧ ∃ matched_ts pre_ts,
          ev_ts matched = Some matched_ts
          ∧ ev_ts (pg_pre pg) = Some pre_ts
          ∧ p_elapsed_s (pg_record pg) = (matched_ts - pre_ts)%Q
          ∧ p_response_tokens (pg_record pg)
            = default 0%Z (ev_response_tokens matched)
  | None => empty_match pg
  end.

Definition has_ts (e : event) : Prop := is_Some (ev_ts e).

(** ** Notions used to state the transcript properties *)

(** An assistant-turn record that carries usage: its request identifier
    ([None] when the key is absent) and the call it contributes. *)
Definition usage_record (ln : line) : option (option string * api_call) :=
  match ln with
  | Entry d =>
      if opt_eqb String.eqb (entry_type d) (Some "assistant") then
        let msg := default empty_message (entry_message d) in
        match msg_usage msg with
        | Some u => Some (requestId d, call_of d msg u)
        | None => None
        end
      else None
  | _ => None
  end.

(** "keep only the first occurrence of each identifier": a record stays
    and every later record with its identifier goes. *)
Fixpoint spec_first_occurrences (records : list (option string * api_call))
    : list (option string * api_call) :=
  match records with
  | [] => []
  | r :: rest => r :: filter (fun r' => r'.1 ≠ r.1) (spec_first_occurrences rest)
  end.

(** The calls retained from a transcript, in file order. *)
Definition spec_retained (lines : list line) : list api_call :=
  snd <$> spec_first_occurrences (omap usage_record lines).

(** A usage record whose request identifier is [k]. *)
Definition has_key (k : option string) (ln : line) : Prop :=
  match usage_record ln with
  | Some r => r.1 = k
  | None => False
  end.

#[global] Instance has_key_dec k ln : Decision (has_key k ln).
Proof. unfold has_key. destruct (usage_record ln); apply _. Defined.

(** The transcript without the usage records that lack a request
    identifier, except the first of them ([found] says that it has been
    met). *)
Fixpoint spec_drop_later_idless (found : bool) (lines : list line) : list line :=
  match lines with
  | [] => []
  | ln :: rest =>
      if decide (has_key None ln)
      then (if found then spec_drop_later_idless true rest
            else ln :: spec_drop_later_idless true rest)
      else ln :: spec_drop_later_idless found rest
  end.

(** The four token totals of a summary. *)
Definition token_totals (s : usage_summary) : Z * Z * Z * Z :=
  (us_input_tokens s, us_output_tokens s,
   us_cache_creation_tokens s, us_cache_read_tokens s).

(** The calls that the lines after the first record without a request
    identifier still contribute: the first occurrences, among them, of the
    records that carry an identifier not met in the lines [before]. *)
Definition spec_later_with_id (before after : list line) : list api_call :=
  snd <$> filter (fun r => r.1 ≠ None ∧ r.1 ∉ (omap usage_record before).*1)
            (spec_first_occurrences (omap usage_record after)).

(** The entry of the context timeline that a call contributes. *)
Definition turn_of (c : api_call) : string * Z := (ac_ts c, ac_total_ctx c).

#[global] Instance usage_eq_dec : EqDecision usage.
Proof. solve_decision. Defined.
#[global] Instance message_eq_dec : EqDecision message.
Proof. solve_decision. Defined.
#[global] Instance entry_eq_dec : EqDecision entry.
Proof. solve_decision. Defined.
#[global] Instance line_eq_dec : EqDecision line.
Proof. solve_decision. Defined.

(** ** Notions used to state the cost properties *)

Inductive token_class :=
| InputTokens
| OutputTokens
| CacheCreationTokens
| CacheReadTokens.

(** "cache classes default ... if absent": cache-creation 1.25 x input,
    cache-read 0.1 x input. *)
Definition spec_class_rate (card : rate_card) (c : token_class) : Q :=
  match c with
  | InputTokens => input card
  | OutputTokens => output card
  | CacheCreationTokens =>
      match cache_creation card with
      | Some rate => rate
      | None => (1.25 * input card)%Q
      end
  | CacheReadTokens =>
      match cache_read card with
      | Some rate => rate
      | None => (0.1 * input card)%Q
      end
  end.

(** "total cost = sum over the four token classes of (tokens x class rate)
    / 1,000,000" *)
Definition spec_authoritative_cost (card : rate_card) (tokens : token_class → Z) : Q :=
  sum_Q ((fun c => (inject_Z (tokens c) * spec_class_rate card c / 1000000)%Q)
           <$> [InputTokens; OutputTokens; CacheCreationTokens; CacheReadTokens]).

(** The token counts an analysis reports, by class. *)
Definition analysis_tokens (r : analysis) (c : token_class) : Z :=
  match c with
  | InputTokens => inp_tok r
  | OutputTokens => out_tok r
  | CacheCreationTokens => cc_tok r
  | CacheReadTokens => cr_tok r
  end.

(** "Estimated marginal cost for that invocation = (its estimated response
    size x input rate x turns_remaining) + (its estimated response size x
    output rate)", with [turns_remaining = T - i]. *)
Definition spec_marginal_cost (input_rate output_rate : Q) (T i : nat)
    (ev : paired) : Q :=
  (inject_Z (p_response_tokens ev) * input_rate
     * inject_Z (Z.of_nat T - Z.of_nat i)
   + inject_Z (p_response_tokens ev) * output_rate)%Q.

(** The marginal costs of the invocations [i], [i+1], ... of [T]. *)
Fixpoint spec_marginal_costs (input_rate output_rate : Q) (T i : nat)
    (evs : list paired) : list Q :=
  match evs with
  | [] => []
  | ev :: rest =>
      spec_marginal_cost input_rate output_rate T i ev
        :: spec_marginal_costs input_rate output_rate T (S i) rest
  end.

(** "a running cumulative-context counter capped at the context-window
    cap": the values of the counter after each invocation. *)
Fixpoint spec_running_context (cap counter : Z) (evs : list paired) : list Z :=
  match evs with
  | [] => []
  | ev :: rest =>
      let counter' :=
        Z.min (counter + (p_input_tokens ev + p_response_tokens ev)) cap in
      counter' :: spec_running_context cap counter' rest
  end.

(** [m] is the maximum of [l], or 0 when [l] is empty. *)
Definition is_max_or_0 (m : Z) (l : list Z) : Prop :=
  match l with
  | [] => m = 0%Z
  | _ => m ∈ l ∧ Forall (fun x => (x ≤ m)%Z) l
  end.

(** Non-decreasing timestamps along a list of paired invocations. *)
Definition paired_sorted (l : list paired) : Prop :=
  StronglySorted (fun a b => (p_ts a <= p_ts b)%Q) l.

(** Every rate of a card is non-negative. *)
Definition rates_nonneg (card : rate_card) : Prop :=
  (0 <= input card)%Q ∧ (0 <= output card)%Q
  ∧ (∀ rate, cache_creation card = Some rate → (0 <= rate)%Q)
  ∧ (∀ rate, cache_read card = Some rate → (0 <= rate)%Q).

(** The session of the design document's scenario: a Read started at t=0
    with input estimate 100 and finished at t=2 with output estimate 50.
    The remaining fields are free. *)
Definition scenario_before (session : option string) (path cmd : option string) : event :=
  {| ev_type := Some "pre"; ev_ts := Some 0%Q; ev_tool := Some "Read";
     ev_session_id := session; ev_input_tokens := Some 100%Z;
     ev_response_tokens := None; ev_file_path := path; ev_command := cmd;
     ev_model := None |}.

Definition scenario_after (session : option string) (mdl : option string) : event :=
  {| ev_type := Some "post"; ev_ts := Some 2%Q; ev_tool := Some "Read";
     ev_session_id := session; ev_input_tokens := None;
     ev_response_tokens := Some 50%Z; ev_file_path := None; ev_command := None;
     ev_model := mdl |}.

(** The paired invocation [p] with another estimated response size. *)
Definition with_response (v : Z) (p : paired) : paired :=
  {| p_tool := p_tool p; p_category := p_category p;
     p_elapsed_s := p_elapsed_s p; p_input_tokens := p_input_tokens p;
     p_response_tokens := v; p_file_path := p_file_path p;
     p_command := p_command p; p_ts := p_ts p |}.

(** [p'] is [p] up to a response size that is not smaller. *)
Definition response_grows (p p' : paired) : Prop :=
  p_ts p = p_ts p' ∧ (p_response_tokens p ≤ p_response_tokens p')%Z.

(** The usage figures of a transcript line, read with default 0, are
    non-negative. *)
Definition line_nonneg (ln : line) : Prop :=
  match ln with
  | Entry d =>
      match default empty_message (entry_message d) with
      | {| msg_usage := Some u |} =>
          (0 ≤ default 0 (u_input_tokens u))%Z
          ∧ (0 ≤ default 0 (u_output_tokens u))%Z
          ∧ (0 ≤ default 0 (u_cache_creation_input_tokens u))%Z
          ∧ (0 ≤ default 0 (u_cache_read_input_tokens u))%Z
      | _ => True
      end
  | _ => True
  end.

(** Every transcript the file system holds has non-negative figures. *)
Definition fs_nonneg (fs : string → file) : Prop :=
  ∀ path lines, fs path = Readable lines → Forall line_nonneg lines.

(** The estimated response size of an event, read with default 0, is
    non-negative. *)
Definition event_nonneg (e : event) : Prop :=
  (0 ≤ default 0 (ev_response_tokens e))%Z.

(** ** Sample data *)

Definition sonnet_card : rate_card :=
  {| input := 3; output := 15; cache_creation := None; cache_read := None |}.

Definition opus_card : rate_card :=
  {| input := 15; output := 75;
     cache_creation := Some (1875 # 100); cache_read := Some (15 # 10) |}.

Definition sample_models : gmap string rate_card :=
  <["claude-sonnet-4-5" := sonnet_card]> (<["claude-opus-4" := opus_card]> ∅).

Definition sample_aliases : gmap string string :=
  <["opus" := "claude-opus-4"]> ∅.

Definition sample_pre (tool : string) (t : Q) (size : Z) : event :=
  {| ev_type := Some "pre"; ev_ts := Some t; ev_tool := Some tool;
     ev_session_id := Some "s1"; ev_input_tokens := Some size;
     ev_response_tokens := None; ev_file_path := None; ev_command := None;
     ev_model := None |}.

Definition sample_post (tool : string) (t : Q) (size : Z) : event :=
  {| ev_type := Some "post"; ev_ts := Some t; ev_tool := Some tool;
     ev_session_id := Some "s1"; ev_input_tokens := None;
     ev_response_tokens := Some size; ev_file_path := None; ev_command := None;
     ev_model := None |}.

(** Two reads started before the first one finished. *)
Definition overlapping_log : list event :=
  [ sample_pre "Read" 0 100; sample_pre "Read" 1 80; sample_post "Read" 2 50 ].

(** A log whose after events are not in timestamp order. *)
Definition unordered_log : list event :=
  [ sample_pre "Read" 1 100; sample_post "Read" 10 50; sample_post "Read" 5 7 ].

(** A log whose after events are in timestamp order. *)
Definition ordered_log : list event :=
  [ sample_pre "Read" 1 100; sample_post "Read" 5 7; sample_post "Read" 10 50 ].

Definition sample_entry (req : option string) (inp out cc cr : Z) : line :=
  Entry {| entry_type := Some "assistant";
           entry_message :=
             Some {| msg_usage :=
                       Some {| u_input_tokens := Some inp;
                               u_output_tokens := Some out;
                               u_cache_creation_input_tokens := Some cc;
                               u_cache_read_input_tokens := Some cr |};
                     msg_model := Some "claude-opus-4" |};
           requestId := req;
           timestamp := Some "2026-01-01T00:00:00Z" |}.

(** Three streaming chunks of request [r1] and one call [r2]. *)
Definition streamed_transcript : list line :=
  [ sample_entry (Some "r1") 10 20 30 40; sample_entry (Some "r1") 10 20 30 40;
    NotJson; sample_entry (Some "r1") 10 20 30 40;
    sample_entry (Some "r2") 1 2 3 4 ].

(** Three usage records without a request identifier. *)
Definition idless_transcript : list line :=
  [ sample_entry None 10 20 30 40; sample_entry (Some "r2") 1 2 3 4;
    sample_entry None 5 6 7 8; sample_entry None 100 100 100 100 ].

(** A transcript with the streamed calls under one path, nothing else. *)
Definition sample_fs (path : string) : file :=
  if String.eqb path "/projects/p/s1.jsonl" then Readable streamed_transcript
  else Unreadable.

(** The paired invocation of the scenario. *)
Definition sample_paired : paired :=
  {| p_tool := Some "Read"; p_category := "Reading files"; p_elapsed_s := 2%Q;
     p_input_tokens := 100%Z; p_response_tokens := 50%Z; p_file_path := None;
     p_command := None; p_ts := 0%Q |}.

(** * The rest of the engine

    The parts of [tracker.py] around the cost computation: configuration
    and transcript lookup, the report entries of [analyse], and the
    session log with its archival. *)

(** ** Configuration and transcript lookup *)

(** What [json.load] gives for pricing.json, read with [.get]. *)
Record pricing_data := {
  pd_models : option (gmap string rate_card);
  pd_model_aliases : option (gmap string string);
  pd_context_window_cap_tokens : option Z
}.

(** [load_pricing]; [None] is a file that cannot be opened or parsed. *)
Definition load_pricing (pricing_file : option pricing_data)
    : gmap string rate_card * gmap string string * Z :=
  match pricing_file with
  | Some data =>
      (default ∅ (pd_models data),
       default ∅ (pd_model_aliases data),
       default CONTEXT_CAP (pd_context_window_cap_tokens data))
  | None => (∅, ∅, CONTEXT_CAP)
  end.

(** An entry of the projects directory as [iterdir] yields it: a
    directory with its files, something that is no directory, or a point
    at which the iteration raises. *)
Inductive project_entry :=
| ProjectDir (name : string) (files : gset string)
| NotADir (name : string)
| IterError.

(** [project_dir / f"{session_id}.jsonl"], as text. *)
Definition candidate_path (root name session_id : string) : string :=
  root +:+ "/" +:+ name +:+ "/" +:+ session_id +:+ ".jsonl".

(** The [for project_dir in ...iterdir()] loop; an exception ends the
    search with [None]. *)
Fixpoint first_candidate (root session_id : string)
    (entries : list project_entry) : option string :=
  match entries with
  | [] => None
  | ProjectDir name files :: rest =>
      if bool_decide (session_id +:+ ".jsonl" ∈ files)
      then Some (candidate_path root name session_id)
      else first_candidate root session_id rest
  | NotADir _ :: rest => first_candidate root session_id rest
  | IterError :: rest => None
  end.

(** [find_claude_session_jsonl]. [projects] is the listing of
    [CLAUDE_PROJECTS_DIR], [None] when the directory does not exist. *)
Definition find_claude_session_jsonl (root : string)
    (projects : option (list project_entry)) (session_id : option string)
    : option string :=
  match session_id with
  | None => None
  | Some sid =>
      if String.eqb sid "" || String.eqb sid "unknown" then None
      else match projects with
           | None => None
           | Some entries => first_candidate root sid entries
           end
  end.

(** ** Report entries of [analyse] *)

(** [max(all_ts)] and [min(all_ts)] on a non-empty list. *)
Definition max_Q (x : Q) (rest : list Q) : Q :=
  foldl (fun m y => if Qltb m y then y else m) x rest.
Definition min_Q (x : Q) (rest : list Q) : Q :=
  foldl (fun m y => if Qltb y m then y else m) x rest.

(** [duration_s]: the span of the timestamps, 0 with fewer than two. *)
Definition duration_s (events : list event) : Q :=
  match omap ev_ts events with
  | x :: (_ :: _) as rest => (max_Q x rest - min_Q x rest)%Q
  | _ => 0%Q
  end.

(** A [collections.Counter] (or a dict filled with [setdefault]) in
    insertion order; [counter_add] is [c[k] += v], a missing key counting
    as [zero]. *)
Fixpoint counter_add {V : Type} (add : V -> V -> V) (zero : V)
    (k : string) (v : V) (c : list (string * V)) : list (string * V) :=
  match c with
  | [] => [(k, add zero v)]
  | (k', v') :: rest =>
      if String.eqb k' k then (k', add v' v) :: rest
      else (k', v') :: counter_add add zero k v rest
  end.

(** [time_by_category] *)
Definition time_by_category (paired_list : list paired) : list (string * Q) :=
  foldl (fun c p => counter_add Qplus 0%Q (p_category p) (p_elapsed_s p) c)
        [] paired_list.

(** [sum(time_by_category.values()) or 1] *)
Definition total_timed (paired_list : list paired) : Q :=
  let total := sum_Q (snd <$> time_by_category paired_list) in
  if Qeq_bool total 0 then 1%Q else total.

(** [file_map]: the number of reads per file path. *)
Definition file_map (paired_list : list paired) : list (string * Z) :=
  foldl (fun m p =>
           if opt_eqb String.eqb (p_tool p) (Some "Read") && truthy (p_file_path p)
           then counter_add Z.add 0%Z (default "" (p_file_path p)) 1%Z m
           else m)
        [] paired_list.

(** Python's whitespace among the characters below 256:
    [\t \n \v \f \r], [\x1c]-[\x1f], space, [\x85] and [\xa0]. *)
Definition is_space (c : ascii) : bool :=
  let n := nat_of_ascii c in
  ((9 <=? n) && (n <=? 13)) || ((28 <=? n) && (n <=? 32))
  || (n =? 133) || (n =? 160).

(** [s.lstrip()], [s.rstrip()] and [s.strip()]. *)
Fixpoint lstrip (s : string) : string :=
  match s with
  | EmptyString => EmptyString
  | String c rest => if is_space c then lstrip rest else s
  end.

Fixpoint rstrip (s : string) : string :=
  match s with
  | EmptyString => EmptyString
  | String c rest =>
      match rstrip rest with
      | EmptyString => if is_space c then EmptyString else String c EmptyString
      | rest' => String c rest'
      end
  end.

Definition strip (s : string) : string := rstrip (lstrip s).

(** [s.split()]: the maximal runs of non-whitespace; [cur] is the run
    being read, if any. *)
Fixpoint split_ws_go (cur : option string) (s : string) : list string :=
  match s with
  | EmptyString => option_list cur
  | String c rest =>
      if is_space c then option_list cur ++ split_ws_go None rest
      else split_ws_go (Some (default "" cur +:+ String c "")) rest
  end.

Definition split_ws (s : string) : list string := split_ws_go None s.

(** [xs[0]]: the first element, or [IndexError]. *)
Definition first_item {A} (xs : list A) : outcome A :=
  match xs with
  | x :: _ => Returned x
  | [] => Raised "IndexError: list index out of range"
  end.

(** [p["command"].strip().split()[0] if p["command"].strip() else
    p["command"]] *)
Definition bash_base (command : string) : outcome string :=
  if negb (String.eqb (strip command) "")
  then first_item (split_ws (strip command))
  else Returned command.

(** The loop that fills [bash_commands]. *)
Fixpoint count_bash (paired_list : list paired) (c : list (string * Z))
    : outcome (list (string * Z)) :=
  match paired_list with
  | [] => mret c
  | p :: rest =>
      if opt_eqb String.eqb (p_tool p) (Some "Bash") && truthy (p_command p)
      then base ← bash_base (default "" (p_command p));
           count_bash rest (counter_add Z.add 0%Z base 1%Z c)
      else count_bash rest c
  end.

Definition bash_commands (paired_list : list paired) : outcome (list (string * Z)) :=
  count_bash paired_list [].

(** [Counter.most_common(n)]: the [n] largest counts, ties in insertion
    order. *)
Fixpoint insert_by_count (x : string * Z) (l : list (string * Z))
    : list (string * Z) :=
  match l with
  | [] => [x]
  | y :: rest =>
      if (y.2 <=? x.2)%Z then x :: l else y :: insert_by_count x rest
  end.

Definition most_common (n : nat) (c : list (string * Z)) : list (string * Z) :=
  take n (foldr insert_by_count [] c).

Definition command_suggestion (cmd : string) (count : Z) : string :=
  "You ran `" +:+ cmd +:+ "` " +:+ pretty count
    +:+ " times mid-task — consider running it once at the end.".

Definition peak_suggestion (peak_tokens : Z) : string :=
  "At " +:+ pretty (peak_tokens / 1000)%Z
    +:+ "K peak context, splitting into 2 sessions saves ~50% cost.".

Definition NO_SUGGESTION : string := "No major inefficiencies detected.".

(** The suggestions that come from repeated commands. *)
Definition suggested_commands (commands : list (string * Z)) : list string :=
  omap (fun e => if (2 <? e.2)%Z then Some (command_suggestion e.1 e.2) else None)
       (most_common 3 commands).

(** [suggestions], from [bash_commands] and [peak_tokens]. *)
Definition suggestions (commands : list (string * Z)) (peak_tokens : Z)
    : list string :=
  let found :=
    suggested_commands commands
      ++ (if (50000 <? peak_tokens)%Z then [peak_suggestion peak_tokens] else []) in
  match take 3 found with
  | [] => [NO_SUGGESTION]
  | first3 => first3
  end.

(** The dict [analyse] returns, with the report entries next to the
    entries of [analysis]. *)
Record session_data := {
  sd_analysis : analysis;
  sd_duration_s : Q;
  sd_time_by_category : list (string * Q);
  sd_total_timed : Q;
  sd_file_map : list (string * Z);
  sd_bash_commands : list (string * Z);
  sd_suggestions : list string
}.

(** [analyse] with all its entries; [Returned None] is the empty dict. *)
Definition analyse_full (fs : string -> file) (events : list event)
    (pricing_models : gmap string rate_card) (pricing_aliases : gmap string string)
    (context_cap : Z) (jsonl_path : option string) : outcome (option session_data) :=
  match events with
  | [] => mret None
  | _ =>
      paired_list ← paired_of_log events;
      commands ← bash_commands paired_list;
      core ← analyse fs events pricing_models pricing_aliases context_cap jsonl_path;
      mret (fmap (M := option)
              (fun a =>
               {| sd_analysis := a;
                  sd_duration_s := duration_s events;
                  sd_time_by_category := time_by_category paired_list;
                  sd_total_timed := total_timed paired_list;
                  sd_file_map := file_map paired_list;
                  sd_bash_commands := commands;
                  sd_suggestions := suggestions commands (peak_tokens a) |})
              core)
  end.

(** ** Session log and archival *)

(** A line of a session log as [read_events] meets it: blank, rejected by
    [json.loads], or an event. *)
Inductive log_line :=
| LogBlank
| LogNotJson
| LogEvent (e : event).

Definition parsed_event (ln : log_line) : option event :=
  match ln with
  | LogEvent e => Some e
  | _ => None
  end.

(** [int(x)] and [round(x, 6)] on a float: truncation towards zero, and
    rounding to six decimals with ties to even. *)
Definition int_of_Q (x : Q) : Z := Z.quot (Qnum x) (Zpos (Qden x)).

Definition round_half_even (x : Q) : Z :=
  let f := Qfloor x in
  match (2 * (x - inject_Z f) ?= 1)%Q with
  | Lt => f
  | Gt => (f + 1)%Z
  | Eq => if Z.even f then f else (f + 1)%Z
  end.

Definition round_6 (x : Q) : Q :=
  (inject_Z (round_half_even (x * 1000000)) / 1000000)%Q.

(** One line of history.jsonl. *)
Record history_record := {
  h_date : string;
  h_session_id : string;
  h_duration_ms : Z;
  h_total_cost : Q;
  h_peak_tokens : Z;
  h_tool_calls : nat;
  h_api_calls : nat;
  h_using_real_data : bool;
  h_archive : string
}.

(** The sessions directory: the active logs by session identifier, the
    archived logs by file name, and the lines of history.jsonl. *)
Record store := {
  st_active : gmap string (list log_line);
  st_archive : gmap string (list log_line);
  st_history : list history_record
}.

(** [read_events]: no file gives no events, unreadable lines are skipped. *)
Definition read_events (st : store) (session_id : string) : list event :=
  match st_active st !! session_id with
  | None => []
  | Some lines => omap parsed_event lines
  end.

(** *** The session log as text

    [append_event] and [read_events] on the text of the session file.
    [dumps] and [loads] are [json.dumps] and [json.loads] on events,
    [loads] giving [None] where [json.loads] raises [JSONDecodeError]; a
    line that holds JSON other than an object is outside the typed
    events. The lists of [log_line] in a [store] are [log_lines] of the
    texts of the files. *)

(** The line terminators of a file read in text mode with universal
    newlines: [\n] and [\r]. *)
Definition is_newline (c : ascii) : bool :=
  let n := nat_of_ascii c in (n =? 10) || (n =? 13).

Definition newline : string := String (ascii_of_nat 10) EmptyString.

(** [for line in f]: the pieces of the text between line terminators.
    The loop strips every line, so the terminator itself is left out; the
    piece after the last terminator, and the one between [\r] and [\n],
    are empty and skipped by the loop as blank lines. *)
Fixpoint file_lines (s : string) : list string :=
  match s with
  | EmptyString => [EmptyString]
  | String c rest =>
      if is_newline c then EmptyString :: file_lines rest
      else match file_lines rest with
           | x :: l => String c x :: l
           | [] => [String c EmptyString]
           end
  end.

(** The body of the loop of [read_events] on one line. *)
Definition parse_line (loads : string -> option event) (ln : string) : log_line :=
  let ln := strip ln in
  if String.eqb ln "" then LogBlank
  else match loads ln with
       | Some e => LogEvent e
       | None => LogNotJson
       end.

Definition log_lines (loads : string -> option event) (content : string)
    : list log_line :=
  parse_line loads <$> file_lines content.

(** [read_events] on the file: [None] is a file that does not exist. *)
Definition read_events_text (loads : string -> option event)
    (content : option string) : list event :=
  match content with
  | None => []
  | Some text => omap parsed_event (log_lines loads text)
  end.

(** [append_event]: the file after [f.write(json.dumps(event) + "\n")] in
    append mode, which creates the file when it is missing. *)
Definition append_event (dumps : event -> string) (content : option string)
    (e : event) : string :=
  default "" content +:+ dumps e +:+ newline.

(** The record [_archive_session] writes; [data] is [None] for the empty
    dict, whose entries are read with their defaults. *)
Definition history_of (date archive session_id : string)
    (data : option session_data) : history_record :=
  {| h_date := date;
     h_session_id := session_id;
     h_duration_ms :=
       int_of_Q (default 0%Q (sd_duration_s <$> data) * 1000);
     h_total_cost := round_6 (default 0%Q (total_cost ∘ sd_analysis <$> data));
     h_peak_tokens := default 0%Z (peak_tokens ∘ sd_analysis <$> data);
     h_tool_calls := default 0 (tool_calls ∘ sd_analysis <$> data);
     h_api_calls := default 0 (api_calls ∘ sd_analysis <$> data);
     h_using_real_data := default false (using_real_data ∘ sd_analysis <$> data);
     h_archive := archive |}.

(** [_archive_session]. [ts_str] and [date] are the two readings of the
    clock, to the second and in ISO format. *)
Definition archive_session (sessions_dir ts_str date : string)
    (session_id : string) (events : list event) (data : option session_data)
    (st : store) : store :=
  match events with
  | [] => st
  | _ =>
      let file_name := ts_str +:+ ".jsonl" in
      let record :=
        history_of date (sessions_dir +:+ "/" +:+ file_name) session_id data in
      match st_active st !! session_id with
      | Some lines =>
          {| st_active := delete session_id (st_active st);
             st_archive := <[file_name := lines]> (st_archive st);
             st_history := st_history st ++ [record] |}
      | None =>
          {| st_active := st_active st;
             st_archive := st_archive st;
             st_history := st_history st ++ [record] |}
      end
  end.

(** What a run of the tracker finds around the sessions directory. *)
Record environment := {
  env_fs : string -> file;
  env_projects_root : string;
  env_projects : option (list project_entry);
  env_pricing_file : option pricing_data;
  env_sessions_dir : string
}.

(** The transcript and the analysis [mode_stop] works with. *)
Definition stop_analysis (env : environment) (session_id : string)
    (events : list event) : outcome (option session_data) :=
  let '(pricing_models, pricing_aliases, context_cap) :=
    load_pricing (env_pricing_file env) in
  let claude_jsonl :=
    find_claude_session_jsonl (env_projects_root env) (env_projects env)
      (Some session_id) in
  analyse_full (env_fs env) events pricing_models pricing_aliases context_cap
    claude_jsonl.

(** What [mode_stop] does to the sessions directory; [payload_session_id]
    is the ["session_id"] of the payload, if any. An exception of the
    analysis leaves before anything is written; [format_short_summary],
    called between the analysis and the archival, only builds text. *)
Definition mode_stop_store (env : environment) (ts_str date : string)
    (payload_session_id : option string) (st : store) : outcome store :=
  let session_id := default "unknown" payload_session_id in
  let events := read_events st session_id in
  data ← stop_analysis env session_id events;
  mret (archive_session (env_sessions_dir env) ts_str date session_id events data st).

(** ** Notions used to state the properties of the rest of the engine *)

(** A [before] event with the [after] event that belongs to it: same
    tool, both with a timestamp, the second one later. *)
Definition call_ok (call : event * event) : Prop :=
  ev_tool call.1 = ev_tool call.2
  ∧ ∃ t_before t_after,
      ev_ts call.1 = Some t_before ∧ ev_ts call.2 = Some t_after
      ∧ (t_before < t_after)%Q.

(** A log of calls that do not overlap: each [before] event is followed
    by its [after] event. *)
Definition sequential_log (calls : list (event * event)) : list event :=
  calls ≫= (fun call => [call.1; call.2]).

(** The sign an elapsed time has: positive with a match, zero without. *)
Definition elapsed_sign_ok (pg : pairing) : Prop :=
  match pg_matched pg with
  | Some _ => (0 < p_elapsed_s (pg_record pg))%Q
  | None => p_elapsed_s (pg_record pg) = 0%Q
  end.

(** [c[k]] on a counter: the count, a missing key counting as [zero]. *)
Fixpoint counter_get {V : Type} (zero : V) (k : string) (c : list (string * V)) : V :=
  match c with
  | [] => zero
  | (k', v) :: rest => if String.eqb k' k then v else counter_get zero k rest
  end.

(** The share of a category in the time breakdown of the full report,
    [t / d["total_timed"]]. *)
Definition time_share (paired_list : list paired) (t : Q) : Q :=
  (t / total_timed paired_list)%Q.

(** The estimated sizes of an event, read with default 0, are
    non-negative. *)
Definition event_sizes_nonneg (e : event) : Prop :=
  (0 ≤ default 0 (ev_input_tokens e))%Z ∧ (0 ≤ default 0 (ev_response_tokens e))%Z.

(** What an entry of [paired] copies from its [before] event. *)
Definition copies_before (pg : pairing) : Prop :=
  p_tool (pg_record pg) = ev_tool (pg_pre pg)
  ∧ p_category (pg_record pg) = category_for (ev_tool (pg_pre pg))
  ∧ p_input_tokens (pg_record pg) = default 0%Z (ev_input_tokens (pg_pre pg))
  ∧ p_command (pg_record pg) = ev_command (pg_pre pg)
  ∧ p_ts (pg_record pg) = ts_or_0 (pg_pre pg)
  ∧ (truthy (ev_file_path (pg_pre pg)) = true →
     p_file_path (pg_record pg) = ev_file_path (pg_pre pg)).


(** The request identifiers of the usage records of a transcript; [None]
    stands for records without one. *)
Definition request_ids (lines : list line) : gset (option string) :=
  list_to_set (omap usage_record lines).*1.


(** Every character of a string satisfies [f]. *)
Fixpoint all_chars (f : ascii → bool) (s : string) : bool :=
  match s with
  | EmptyString => true
  | String c rest => f c && all_chars f rest
  end.

(** A word: not empty and free of whitespace. *)
Definition is_word (s : string) : Prop :=
  s ≠ "" ∧ all_chars (fun c => negb (is_space c)) s = true.

(** The rest of a command after its first word: nothing, or something
    that starts with whitespace. *)
Definition ends_word (rest : string) : Prop :=
  match rest with
  | EmptyString => True
  | String c _ => is_space c = true
  end.


(** A [Read] invocation of the file [fp], and a [Bash] invocation whose
    command has the base [base]; both need a non-empty value. *)
Definition reads_file (fp : string) (p : paired) : bool :=
  opt_eqb String.eqb (p_tool p) (Some "Read") && truthy (p_file_path p)
  && opt_eqb String.eqb (p_file_path p) (Some fp).

Definition runs_base (base : string) (p : paired) : bool :=
  opt_eqb String.eqb (p_tool p) (Some "Bash") && truthy (p_command p)
  && match bash_base (default "" (p_command p)) with
     | Returned b => String.eqb b base
     | Raised _ => false
     end.

(** The number of elements of a list that pass a test. *)
Definition count_of {A} (f : A → bool) (l : list A) : Z :=
  Z.of_nat (length (List.filter f l)).

(** A counter filled with one count per element that has a key. *)
Definition count_keys (key : paired → option string) (c : list (string * Z))
    (l : list paired) : list (string * Z) :=
  foldl (fun m p => match key p with
                    | Some k => counter_add Z.add 0%Z k 1%Z m
                    | None => m
                    end) c l.

Definition key_is (key : paired → option string) (k : string) (p : paired) : bool :=
  match key p with
  | Some k' => String.eqb k' k
  | None => false
  end.

(** A counter as the report reads it: no key twice, every count at least
    one. *)
Definition counter_ok (c : list (string * Z)) : Prop :=
  NoDup c.*1 ∧ Forall (fun e => (1 ≤ e.2)%Z) c.


(** A text in which every line is terminated: empty, or ending with a
    line terminator. *)
Definition complete_lines (text : string) : Prop :=
  text = "" ∨ ∃ start nl, text = start +:+ String nl "" ∧ is_newline nl = true.

(** A piece of text within one line. *)
Definition one_line (s : string) : Prop :=
  all_chars (fun c => negb (is_newline c)) s = true.



(** A command the suggestions mention: run more than twice. *)
Definition repeated (e : string * Z) : bool := (2 <? e.2)%Z.

(** The order of [most_common]: counts do not increase. *)
Definition count_desc (a b : string * Z) : Prop := (b.2 ≤ a.2)%Z.


(** An entry of the projects directory that the search passes over: not
    a directory, or a directory without the session's transcript. *)
Definition passed_over (session_id : string) (entry : project_entry) : Prop :=
  match entry with
  | ProjectDir _ files => session_id +:+ ".jsonl" ∉ files
  | NotADir _ => True
  | IterError => False
  end.

(** * Properties *)

(** Closes [Forall has_ts l] on a log written out in full. *)
Ltac all_have_ts :=
  repeat (apply List.Forall_cons; [eexists; reflexivity|]); apply List.Forall_nil.

(** ** The model on small inputs *)

Example split_dash_dated :
  split_dash "claude-sonnet-4-5-20250929"
  = ["claude"; "sonnet"; "4"; "5"; "20250929"].
Proof. reflexivity. Qed.

Example split_dash_empty : split_dash "" = [""].
Proof. reflexivity. Qed.

Example range_down_5 : range_down 5 2 = [5; 4; 3].
Proof. reflexivity. Qed.

Example prefix_candidates_dated :
  prefix_candidates "claude-sonnet-4-5-20250929"
  = ["claude-sonnet-4-5-20250929"; "claude-sonnet-4-5"; "claude-sonnet-4"].
Proof. reflexivity. Qed.

Example prefix_candidates_short : prefix_candidates "gpt-4" = [].
Proof. reflexivity. Qed.

Example category_for_samples :
  category_for (Some "mcp__github__search") = "MCP tool call"
  ∧ category_for (Some "Glob") = "Searching code"
  ∧ category_for (Some "NotebookEdit") = "Other"
  ∧ category_for None = "Other".
Proof. repeat split; vm_compute; reflexivity. Qed.

Example estimate_tokens_short : estimate_tokens id "abcdefghij" = 2%Z.
Proof. reflexivity. Qed.

Example list_remove_first_equal :
  list_remove (sample_post "Read" 5 7)
    [sample_post "Read" 10 50; sample_post "Read" 5 7; sample_post "Read" 5 7]
  = Returned [sample_post "Read" 10 50; sample_post "Read" 5 7].
Proof. reflexivity. Qed.

Example streamed_transcript_summary :
  parse_file (Readable streamed_transcript)
  = Some {| us_input_tokens := 11; us_output_tokens := 22;
            us_cache_creation_tokens := 33; us_cache_read_tokens := 44;
            us_api_calls := 2; us_model := "claude-opus-4";
            us_context_by_turn :=
              [("2026-01-01T00:00:00Z", 80%Z); ("2026-01-01T00:00:00Z", 8%Z)] |}.
Proof. vm_compute. reflexivity. Qed.

Example idless_transcript_retained :
  us_api_calls <$> parse_file (Readable idless_transcript) = Some 2.
Proof. vm_compute. reflexivity. Qed.

Example faulty_transcript_none :
  parse_file (Readable [sample_entry (Some "r1") 10 20 30 40; Faulty]) = None.
Proof. vm_compute. reflexivity. Qed.

Example overlapping_log_elapsed :
  fmap (M := list) p_elapsed_s <$> paired_of_log overlapping_log
  = Returned [2%Q; 0%Q].
Proof. vm_compute. reflexivity. Qed.

Example unordered_log_elapsed :
  fmap (M := list) p_elapsed_s <$> paired_of_log unordered_log = Returned [9%Q].
Proof. vm_compute. reflexivity. Qed.

Example missing_ts_raises :
  paired_of_log
    [ {| ev_type := Some "pre"; ev_ts := None; ev_tool := Some "Read";
         ev_session_id := None; ev_input_tokens := None;
         ev_response_tokens := None; ev_file_path := None; ev_command := None;
         ev_model := None |};
      sample_post "Read" 2 50 ]
  = Raised (key_error "ts").
Proof. vm_compute. reflexivity. Qed.

Example authoritative_cost_sample :
  (authoritative_cost sonnet_card 1000000 0 1000000 1000000 == 3 + 3.75 + 0.3)%Q.
Proof. vm_compute. reflexivity. Qed.

(** ** Strings *)

Lemma split_dash_nonempty s : split_dash s ≠ [].
Proof.
  destruct s as [|c s]; simpl; [done|].
  destruct (Ascii.eqb c "-"); [done|].
  by destruct (split_dash s).
Qed.

Lemma concat_cons_nonempty sep x y l :
  String.concat sep (x :: y :: l) = x +:+ sep +:+ String.concat sep (y :: l).
Proof. reflexivity. Qed.

(** [ "-".join(s.split("-")) == s ] *)
Lemma join_split_dash s : String.concat "-" (split_dash s) = s.
Proof.
  induction s as [|c s IH]; [done|].
  pose proof (split_dash_nonempty s) as Hne.
  simpl. destruct (Ascii.eqb c "-") eqn:Hc.
  - apply Ascii.eqb_eq in Hc as ->.
    destruct (split_dash s) as [|p ps]; [done|].
    rewrite concat_cons_nonempty, IH. reflexivity.
  - destruct (split_dash s) as [|p [|q ps]]; [done|..].
    + simpl in *. by rewrite IH.
    + rewrite concat_cons_nonempty in IH.
      rewrite (concat_cons_nonempty "-" (String c p) q ps).
      rewrite <- IH. reflexivity.
Qed.

Lemma prefix_nil_l s : String.prefix "" s = true.
Proof. by destruct s. Qed.

Lemma append_String x a b : String x a +:+ b = String x (a +:+ b).
Proof. reflexivity. Qed.

Lemma prefix_app_same a b c :
  String.prefix (a +:+ b) (a +:+ c) = String.prefix b c.
Proof.
  induction a as [|x a IH]; [done|].
  rewrite !append_String. simpl. destruct (ascii_dec x x); [apply IH|done].
Qed.

Lemma append_nil_r_str (a : string) : a +:+ "" = a.
Proof.
  induction a as [|x a IH]; [done|]. by rewrite append_String, IH.
Qed.

Lemma prefix_app_r a b : String.prefix a (a +:+ b) = true.
Proof.
  rewrite <- (append_nil_r_str a) at 1.
  rewrite prefix_app_same. apply prefix_nil_l.
Qed.

Lemma prefix_refl_str a : String.prefix a a = true.
Proof. rewrite <- (append_nil_r_str a) at 2. apply prefix_app_r. Qed.

Lemma prefix_join_take parts k :
  String.prefix (String.concat "-" (take k parts)) (String.concat "-" parts) = true.
Proof.
  revert k. induction parts as [|x xs IH]; intros k.
  - by destruct k.
  - destruct k as [|k]; [apply prefix_nil_l|].
    simpl take. destruct xs as [|y xs].
    + destruct k; apply prefix_refl_str.
    + destruct k as [|k].
      * simpl take. rewrite concat_cons_nonempty. apply prefix_app_r.
      * specialize (IH (S k)). simpl take in *.
        rewrite !concat_cons_nonempty, !prefix_app_same. exact IH.
Qed.

(** ** Token estimate *)

(** C10: the estimate is the length of the string form divided by 4
    (integer division) and capped at 50,000, so it lies between 0 and
    50,000, and so does the size recorded in every event that [mode_pre]
    and [mode_post] append. *)
Theorem estimate_tokens_capped {V : Type} (str dumps : V → string)
    (get : V → string → option string) (model_of : V → option string)
    (now : Q) (session_id tool_name : string) (text : V) :
  let quarter := (Z.of_nat (String.length (str text)) / 4)%Z in
  estimate_tokens str text = (if (quarter <=? 50000)%Z then quarter else 50000%Z)
  ∧ (0 ≤ estimate_tokens str text ≤ 50000)%Z
  ∧ (∃ n, ev_input_tokens (mode_pre_event dumps get now session_id tool_name text)
            = Some n ∧ (0 ≤ n ≤ 50000)%Z)
  ∧ (∃ n, ev_response_tokens (mode_post_event str model_of now session_id tool_name text)
            = Some n ∧ (0 ≤ n ≤ 50000)%Z).
Proof.
  assert (Hbound : ∀ (W : Type) (f : W → string) (w : W),
             (0 ≤ estimate_tokens f w ≤ 50000)%Z).
  { intros W f w. unfold estimate_tokens, MAX_RESPONSE_TOKENS.
    assert (0 ≤ Z.of_nat (String.length (f w)) / 4)%Z
      by (apply Z.div_pos; lia).
    lia. }
  intros quarter. repeat split; try apply Hbound.
  - unfold estimate_tokens, MAX_RESPONSE_TOKENS. fold quarter.
    destruct (Z.leb_spec quarter 50000); lia.
  - eexists. split; [reflexivity|]. split; apply Hbound.
  - eexists. split; [reflexivity|]. split; apply Hbound.
Qed.

(** ** Pricing resolver *)

Lemma range_down_S n stop :
  stop < S n → range_down (S n) stop = S n :: range_down n stop.
Proof.
  intros Hlt. unfold range_down.
  replace (S n - stop) with (S (n - stop)) by lia.
  rewrite seq_S, rev_app_distr. simpl. f_equal. lia.
Qed.

Lemma range_down_le n stop : n ≤ stop → range_down n stop = [].
Proof.
  intros Hle. unfold range_down. by replace (n - stop) with 0 by lia.
Qed.

Section first_priced.
Context (models_dict : gmap string rate_card) (f : nat → string).

Lemma first_priced_miss n :
  (∀ k, 3 ≤ k ≤ n → models_dict !! f k = None) →
  first_priced models_dict (f <$> range_down n 2) = None.
Proof.
  induction n as [|n IH]; intros Hmiss; [done|].
  destruct (decide (2 < S n)) as [Hlt|Hge].
  - rewrite range_down_S by done. simpl.
    rewrite Hmiss by lia. apply IH. intros k Hk. apply Hmiss. lia.
  - by rewrite range_down_le by lia.
Qed.

Lemma first_priced_hit n k card :
  3 ≤ k ≤ n →
  models_dict !! f k = Some card →
  (∀ k', k < k' ≤ n → models_dict !! f k' = None) →
  first_priced models_dict (f <$> range_down n 2) = Some card.
Proof.
  induction n as [|n IH]; intros Hk Hhit Hlonger; [lia|].
  rewrite range_down_S by lia. simpl.
  destruct (decide (k = S n)) as [->|Hne].
  - by rewrite Hhit.
  - rewrite Hlonger by lia. apply IH; [lia|done|].
    intros k' Hk'. apply Hlonger. lia.
Qed.
End first_priced.

Lemma truthy_Some s : s ≠ "" → truthy (Some s) = true.
Proof.
  intros Hne. simpl. destruct (String.eqb_spec s ""); done.
Qed.

Lemma alias_misses_lookup model models_dict aliases_dict :
  alias_misses model models_dict aliases_dict →
  (if truthy (aliases_dict !! model)
   then aliases_dict !! model ≫= (models_dict !!.) else None) = None.
Proof.
  intros Hmiss. destruct (aliases_dict !! model) as [target|] eqn:Ha; [|done].
  destruct (Hmiss target Ha) as [->|Hnone]; [done|].
  destruct (truthy (Some target)); [|done]. simpl. exact Hnone.
Qed.

(** C3 (amended): resolution order of [price_for], first match wins:
    (1) the identifier itself in the rate-card table; (2) its alias target,
    when the target is a non-empty string present in the table; (3) the
    longest prefix of at least 3 dash-delimited segments present in the
    table; (4) the fallback card together with the warning. *)
Theorem price_for_precedence (model : string)
    (models_dict : gmap string rate_card) (aliases_dict : gmap string string) :
  let segments := length (split_dash model) in
  (∀ card, models_dict !! model = Some card →
     price_for model models_dict (Some aliases_dict) = (card, []))
  ∧ (∀ target card,
       models_dict !! model = None →
       aliases_dict !! model = Some target → target ≠ "" →
       models_dict !! target = Some card →
       price_for model models_dict (Some aliases_dict) = (card, []))
  ∧ (∀ k card,
       models_dict !! model = None →
       alias_misses model models_dict aliases_dict →
       3 ≤ k ≤ segments →
       models_dict !! spec_prefix_of_segments model k = Some card →
       (∀ k', k < k' ≤ segments →
              models_dict !! spec_prefix_of_segments model k' = None) →
       price_for model models_dict (Some aliases_dict) = (card, [])
       ∧ String.prefix (spec_prefix_of_segments model k) model = true)
  ∧ (models_dict !! model = None →
     alias_misses model models_dict aliases_dict →
     (∀ k, 3 ≤ k ≤ segments →
           models_dict !! spec_prefix_of_segments model k = None) →
     price_for model models_dict (Some aliases_dict)
     = (FALLBACK_PRICING, [fallback_warning model])).
Proof.
  intros segments. unfold price_for. simpl default.
  split; [|split; [|split]].
  - intros card ->. reflexivity.
  - intros target card -> Halias Hne Hcard.
    rewrite Halias, truthy_Some by done. simpl. by rewrite Hcard.
  - intros k card -> Hmiss Hk Hhit Hlonger. split.
    + rewrite alias_misses_lookup by done. unfold prefix_candidates.
      by erewrite (first_priced_hit models_dict (spec_prefix_of_segments model)).
    + unfold spec_prefix_of_segments.
      rewrite <- (join_split_dash model) at 2. apply prefix_join_take.
  - intros -> Hmiss Hnone. rewrite alias_misses_lookup by done.
    unfold prefix_candidates.
    by rewrite (first_priced_miss models_dict (spec_prefix_of_segments model)).
Qed.

Lemma price_for_precedence_witness :
  price_for "claude-opus-4" sample_models (Some sample_aliases) = (opus_card, [])
  ∧ price_for "opus" sample_models (Some sample_aliases) = (opus_card, [])
  ∧ (price_for "claude-sonnet-4-5-20250929" sample_models (Some sample_aliases)
     = (sonnet_card, [])
     ∧ String.prefix (spec_prefix_of_segments "claude-sonnet-4-5-20250929" 4)
         "claude-sonnet-4-5-20250929" = true)
  ∧ price_for "gpt-4" sample_models (Some sample_aliases)
    = (FALLBACK_PRICING, [fallback_warning "gpt-4"]).
Proof.
  split; [|split; [|split]].
  - apply (proj1 (price_for_precedence "claude-opus-4" sample_models sample_aliases)).
    vm_compute. reflexivity.
  - apply (proj1 (proj2 (price_for_precedence "opus" sample_models sample_aliases))
             "claude-opus-4" opus_card).
    + vm_compute. reflexivity.
    + vm_compute. reflexivity.
    + discriminate.
    + vm_compute. reflexivity.
  - apply (proj1 (proj2 (proj2 (price_for_precedence "claude-sonnet-4-5-20250929"
                                  sample_models sample_aliases))) 4 sonnet_card).
    + vm_compute. reflexivity.
    + intros target Htarget. vm_compute in Htarget. discriminate.
    + vm_compute. lia.
    + vm_compute. reflexivity.
    + intros k' Hk'. vm_compute in Hk'. assert (k' = 5) as -> by lia.
      vm_compute. reflexivity.
  - apply (proj2 (proj2 (proj2 (price_for_precedence "gpt-4"
                                  sample_models sample_aliases)))).
    + vm_compute. reflexivity.
    + intros target Htarget. vm_compute in Htarget. discriminate.
    + intros k Hk. vm_compute in Hk. lia.
Defined.

(** C3 as stated fails: an alias whose target is the empty string is
    skipped even when the rate-card table has an entry under that key. *)
Lemma price_for_alias_empty_target :
  ¬ (∀ model (models_dict : gmap string rate_card)
       (aliases_dict : gmap string string) target card,
        models_dict !! model = None →
        aliases_dict !! model = Some target →
        models_dict !! target = Some card →
        price_for model models_dict (Some aliases_dict) = (card, [])).
Proof.
  intros Hclaim.
  specialize (Hclaim "foo" (<["" := sonnet_card]> ∅) (<["foo" := ""]> ∅)
                "" sonnet_card).
  assert (Hfalse : price_for "foo" (<["" := sonnet_card]> ∅)
                     (Some (<["foo" := ""]> ∅)) = (sonnet_card, []))
    by (apply Hclaim; vm_compute; reflexivity).
  vm_compute in Hfalse. discriminate Hfalse.
Qed.

(** ** Event equality and removal *)

Lemma Qltb_lt x y : Qltb x y = true ↔ (x < y)%Q.
Proof.
  unfold Qltb. rewrite negb_true_iff, <- not_true_iff_false, Qle_bool_iff.
  split; [apply Qnot_le_lt|apply Qlt_not_le].
Qed.

Lemma Qltb_nlt x y : Qltb x y = false ↔ ¬ (x < y)%Q.
Proof. rewrite <- Qltb_lt. by destruct (Qltb x y). Qed.

Lemma opt_eqb_refl {A} (eqb : A → A → bool) (o : option A) :
  (∀ x, eqb x x = true) → opt_eqb eqb o o = true.
Proof. intros Hrefl. destruct o; simpl; auto. Qed.

Lemma event_eqb_refl e : event_eqb e e = true.
Proof.
  unfold event_eqb.
  rewrite !opt_eqb_refl;
    auto using String.eqb_refl, Z.eqb_refl.
  intros q. apply Qeq_bool_iff. reflexivity.
Qed.

Lemma event_eqb_ts a b : event_eqb a b = true → (ts_or_0 a == ts_or_0 b)%Q.
Proof.
  unfold event_eqb, ts_or_0. rewrite !andb_true_iff.
  intros [[[[[[[[_ Hts] _] _] _] _] _] _] _].
  destruct (ev_ts a), (ev_ts b); simpl in *; try done.
  by apply Qeq_bool_iff.
Qed.

(** [candidates.remove(matched)] removes [matched] itself: no earlier
    candidate is equal to it, and no [ValueError] is raised. *)
Lemma select_match_remove pre candidates matched :
  select_match pre candidates = Some matched →
  ∃ l1 l2,
    candidates = l1 ++ matched :: l2
    ∧ Forall (fun c => ¬ later_than pre c) l1
    ∧ later_than pre matched
    ∧ list_remove matched candidates = Returned (l1 ++ l2).
Proof.
  unfold select_match, later_than.
  induction candidates as [|y rest IH]; [done|].
  simpl. destruct (Qltb (ts_or_0 pre) (ts_or_0 y)) eqn:Hy.
  - intros [= <-]. exists [], rest. rewrite event_eqb_refl.
    repeat split; [constructor|by apply Qltb_lt].
  - intros Hfind. destruct (IH Hfind) as (l1 & l2 & -> & Hl1 & Hm & Hrm).
    exists (y :: l1), l2. repeat split; [|done|].
    + constructor; [by apply Qltb_nlt|done].
    + destruct (event_eqb y matched) eqn:Heq.
      * apply event_eqb_ts in Heq. apply Qltb_nlt in Hy.
        exfalso. apply Hy. by rewrite Heq.
      * by rewrite Hrm.
Qed.

Lemma select_match_none pre candidates :
  select_match pre candidates = None →
  Forall (fun c => ¬ later_than pre c) candidates.
Proof.
  unfold select_match, later_than. intros Hnone.
  apply Forall_forall. intros c Hc.
  apply Qltb_nlt. apply list_elem_of_In in Hc.
  exact (find_none _ _ Hnone c Hc).
Qed.

(** ** The pool of after events *)

Lemma group_by_tool_pending posts tool :
  pending (group_by_tool posts) tool = posts_of_tool tool posts.
Proof.
  unfold group_by_tool, pending, posts_of_tool.
  cut (∀ (m : gmap (option string) (list event)),
         default [] (foldl (fun by_tool p =>
             <[ev_tool p := default [] (by_tool !! ev_tool p) ++ [p]]> by_tool)
           m posts !! tool)
         = default [] (m !! tool) ++ filter (fun p => ev_tool p = tool) posts).
  { intros Hgen. by rewrite Hgen, lookup_empty. }
  induction posts as [|p posts IH]; intros m; simpl.
  - by rewrite app_nil_r.
  - rewrite IH. rewrite filter_cons. destruct (decide (ev_tool p = tool)) as [<-|Hne].
    + rewrite lookup_insert_eq. simpl. by rewrite <- app_assoc.
    + by rewrite lookup_insert_ne.
Qed.

Lemma pool_within_group posts : pool_within posts (group_by_tool posts).
Proof. intros tool. by rewrite group_by_tool_pending. Qed.

Lemma pool_within_tool posts pool tool c :
  pool_within posts pool → c ∈ pending pool tool → ev_tool c = tool ∧ c ∈ posts.
Proof.
  intros Hwithin Hc.
  assert (Hin : c ∈ posts_of_tool tool posts).
  { eapply sublist_subseteq; [apply Hwithin|done]. }
  unfold posts_of_tool in Hin. apply list_elem_of_filter in Hin. tauto.
Qed.

Lemma pending_insert_eq pool tool l :
  pending (<[tool := l]> pool) tool = l.
Proof. unfold pending. by rewrite lookup_insert_eq. Qed.

Lemma pending_insert_ne pool tool tool' l :
  tool ≠ tool' → pending (<[tool := l]> pool) tool' = pending pool tool'.
Proof. intros Hne. unfold pending. by rewrite lookup_insert_ne. Qed.

(** ** One step of the pairing loop *)

Lemma pair_one_spec pool pre pool' pg :
  pair_one pool pre = Returned (pool', pg) → step_spec pool pool' pre pg.
Proof.
  unfold pair_one, step_spec. fold (pending pool (ev_tool pre)).
  destruct (select_match pre (pending pool (ev_tool pre))) as [matched|] eqn:Hsel.
  - destruct (select_match_remove _ _ _ Hsel) as (l1 & l2 & Hcand & Hl1 & Hm & Hrm).
    rewrite Hrm. simpl.
    destruct (ev_ts matched) as [matched_ts|] eqn:Hmts; [|done]. simpl.
    destruct (ev_ts pre) as [pre_ts|] eqn:Hpts; [|done]. simpl.
    intros [= <- <-]. simpl. repeat split.
    exists l1, l2, matched_ts, pre_ts. by rewrite Hmts.
  - intros [= <- <-]. simpl. repeat split.
    by apply select_match_none.
Qed.

(** An iteration returns as soon as the events it subtracts carry a
    timestamp. *)
Lemma pair_one_total pool pre :
  is_Some (ev_ts pre) →
  Forall (fun c => is_Some (ev_ts c)) (pending pool (ev_tool pre)) →
  ∃ pool' pg, pair_one pool pre = Returned (pool', pg).
Proof.
  intros [pre_ts Hpts] Hts. unfold pair_one. fold (pending pool (ev_tool pre)).
  destruct (select_match pre (pending pool (ev_tool pre))) as [matched|] eqn:Hsel;
    [|by eauto].
  destruct (select_match_remove _ _ _ Hsel) as (l1 & l2 & Hcand & Hl1 & Hm & Hrm).
  rewrite Hrm. simpl.
  assert (is_Some (ev_ts matched)) as [matched_ts ->].
  { rewrite Forall_forall in Hts. apply Hts. rewrite Hcand. apply elem_of_app. right. constructor. }
  rewrite Hpts. simpl. eauto.
Qed.

Lemma step_spec_within posts pool pool' pre pg :
  step_spec pool pool' pre pg → pool_within posts pool → pool_within posts pool'.
Proof.
  intros (_ & _ & _ & _ & _ & Hstep) Hwithin.
  destruct (pg_matched pg) as [matched|].
  - destruct Hstep as (l1 & l2 & ? & ? & Hcand & _ & _ & -> & _).
    intros tool. destruct (decide (ev_tool pre = tool)) as [<-|Hne].
    + rewrite pending_insert_eq. etrans; [|apply Hwithin].
      rewrite Hcand. apply sublist_app; [done|]. by apply sublist_cons.
    + by rewrite pending_insert_ne.
  - by destruct Hstep as (_ & -> & _).
Qed.

(** ** The pairing loop *)

Lemma submseteq_count_occ (l k : list event) :
  (∀ x, count_occ event_eq_dec l x ≤ count_occ event_eq_dec k x) → l ⊆+ k.
Proof.
  revert k. induction l as [|a l IH]; intros k Hcount.
  - apply submseteq_nil_l.
  - assert (Ha : a ∈ k).
    { apply list_elem_of_In, (count_occ_In event_eq_dec).
      specialize (Hcount a). rewrite count_occ_cons_eq in Hcount by done. lia. }
    apply elem_of_Permutation in Ha as [k' Hk'].
    rewrite Hk'. apply submseteq_skip, IH. intros x.
    specialize (Hcount x).
    rewrite (Permutation_count_occ event_eq_dec k (a :: k')) in Hk'.
    rewrite (Hk' x) in Hcount. simpl in Hcount.
    destruct (event_eq_dec a x); lia.
Qed.

Lemma count_occ_posts_of_tool posts x :
  count_occ event_eq_dec (posts_of_tool (ev_tool x) posts) x
  = count_occ event_eq_dec posts x.
Proof.
  unfold posts_of_tool. induction posts as [|p posts IH]; [done|].
  rewrite filter_cons. destruct (decide (ev_tool p = ev_tool x)) as [Heq|Hne].
  - simpl. by rewrite IH.
  - rewrite IH. rewrite count_occ_cons_neq; [done|]. by intros ->.
Qed.

Lemma pair_loop_spec posts pool pres pool' pgs :
  pair_loop pool pres = Returned (pool', pgs) →
  pool_within posts pool →
  pool_within posts pool'
  ∧ pg_pre <$> pgs = pres
  ∧ (∀ x, count_occ event_eq_dec (omap pg_matched pgs) x
          + count_occ event_eq_dec (pending pool' (ev_tool x)) x
          = count_occ event_eq_dec (pending pool (ev_tool x)) x)
  ∧ Forall pairing_ok pgs.
Proof.
  revert pool pgs. induction pres as [|pre pres IH]; intros pool pgs; simpl.
  - intros [= <- <-] Hwithin. repeat split; [done|constructor].
  - destruct (pair_one pool pre) as [[pool1 pg]|] eqn:Hone; [|done]. simpl.
    destruct (pair_loop pool1 pres) as [[pool2 pgs']|] eqn:Hloop; [|done]. simpl.
    intros [= <- <-] Hwithin.
    apply pair_one_spec in Hone.
    pose proof (step_spec_within _ _ _ _ _ Hone Hwithin) as Hwithin1.
    destruct (IH _ _ Hloop Hwithin1) as (Hwithin2 & Hpres & Hcount & Hok).
    destruct Hone as (Hpre & _ & _ & _ & _ & Hstep).
    split; [done|]. split; [by rewrite fmap_cons, Hpre, Hpres|]. split.
    + intros x. specialize (Hcount x).
      destruct (pg_matched pg) as [matched|] eqn:Hmatched.
      * assert (omap pg_matched (pg :: pgs') = matched :: omap pg_matched pgs')
          as -> by (simpl; by rewrite Hmatched).
        destruct Hstep as (l1 & l2 & ? & ? & Hcand & _ & _ & -> & _).
        assert (Hm : ev_tool matched = ev_tool pre ∧ matched ∈ posts).
        { apply (pool_within_tool posts pool); [done|]. rewrite Hcand. apply elem_of_app. right. constructor. }
        destruct (decide (ev_tool pre = ev_tool x)) as [Heq|Hne].
        -- rewrite <- Heq in *. rewrite pending_insert_eq in Hcount.
           rewrite Hcand. rewrite count_occ_app in *.
           destruct (decide (matched = x)) as [->|Hmx].
           ++ rewrite !count_occ_cons_eq by done. lia.
           ++ rewrite !count_occ_cons_neq by done. lia.
        -- rewrite pending_insert_ne in Hcount by done.
           rewrite count_occ_cons_neq; [done|]. intros ->. by destruct Hm.
      * assert (omap pg_matched (pg :: pgs') = omap pg_matched pgs')
          as -> by (simpl; by rewrite Hmatched).
        by destruct Hstep as (_ & -> & _).
    + constructor; [|done]. unfold pairing_ok. rewrite Hpre.
      destruct (pg_matched pg) as [matched|]; [|tauto].
      destruct Hstep as (l1 & l2 & mts & pts & Hcand & _ & Hlater & _ & ? & ? & ? & ?).
      split; [|split; [done|by exists mts, pts]].
      apply (pool_within_tool posts pool); [done|]. rewrite Hcand. apply elem_of_app. right. constructor.
Qed.

Lemma pair_loop_total posts pool pres :
  pool_within posts pool → Forall has_ts posts → Forall has_ts pres →
  ∃ pool' pgs, pair_loop pool pres = Returned (pool', pgs).
Proof.
  intros Hwithin Hposts Hpres. revert pool Hwithin.
  induction Hpres as [|pre pres Hpre _ IH]; intros pool Hwithin; simpl; [by eauto|].
  destruct (pair_one_total pool pre) as (pool1 & pg & Hone); [done| |].
  { apply Forall_forall. intros c Hc.
    rewrite Forall_forall in Hposts. apply Hposts.
    by apply (pool_within_tool posts pool (ev_tool pre)). }
  rewrite Hone. simpl.
  destruct (IH pool1) as (pool2 & pgs & ->); [|simpl; by eauto].
  eapply step_spec_within; [by apply pair_one_spec|done].
Qed.

Lemma Forall_list_filter {A} (P : A → Prop) (f : A → bool) (l : list A) :
  Forall P l → Forall P (List.filter f l).
Proof.
  induction 1 as [|x l Hx _ IH]; simpl; [constructor|].
  destruct (f x); [by constructor|done].
Qed.

Lemma pair_events_total events :
  Forall has_ts events →
  ∃ pool pgs, pair_events events = Returned (pool, pgs).
Proof.
  intros Hts. unfold pair_events.
  apply (pair_loop_total (post_events events)).
  - apply pool_within_group.
  - by apply Forall_list_filter.
  - by apply Forall_list_filter.
Qed.

Lemma submseteq_NoDup {A} (l k : list A) : l ⊆+ k → NoDup k → NoDup l.
Proof.
  intros [k' Hk']%submseteq_Permutation Hnodup.
  rewrite Hk' in Hnodup. by apply NoDup_app in Hnodup as [? _].
Qed.

(** C2: the pairing of a log has exactly one entry per [before] event, in
    order; an entry holds at most one [after] event, of the same tool and
    with a strictly greater timestamp, or else an empty match with elapsed
    time 0; the after events used form a sub-multiset of the log's after
    events, so none is used twice (they are pairwise distinct when the
    log's after events are). The pairing exists whenever every event
    carries a timestamp. *)
Theorem pairing_matches_once (events : list event) :
  (Forall has_ts events → ∃ pool pgs, pair_events events = Returned (pool, pgs))
  ∧ (∀ pool pgs,
       pair_events events = Returned (pool, pgs) →
       pg_pre <$> pgs = pre_events events
       ∧ omap pg_matched pgs ⊆+ post_events events
       ∧ (NoDup (post_events events) → NoDup (omap pg_matched pgs))
       ∧ Forall pairing_ok pgs).
Proof.
  split; [apply pair_events_total|].
  intros pool pgs Hrun. unfold pair_events in Hrun.
  destruct (pair_loop_spec (post_events events) _ _ _ _ Hrun)
    as (_ & Hpres & Hcount & Hok); [apply pool_within_group|].
  assert (Hsub : omap pg_matched pgs ⊆+ post_events events).
  { apply submseteq_count_occ. intros x. specialize (Hcount x).
    rewrite group_by_tool_pending, count_occ_posts_of_tool in Hcount. lia. }
  split; [done|]. split; [done|]. split; [|done].
  by apply submseteq_NoDup.
Qed.

Lemma pairing_matches_once_witness :
  ∃ pool pgs,
    pair_events overlapping_log = Returned (pool, pgs)
    ∧ pg_pre <$> pgs = pre_events overlapping_log
    ∧ omap pg_matched pgs ⊆+ post_events overlapping_log
    ∧ (NoDup (post_events overlapping_log) → NoDup (omap pg_matched pgs))
    ∧ Forall pairing_ok pgs.
Proof.
  destruct (proj1 (pairing_matches_once overlapping_log)) as (pool & pgs & Hrun).
  { all_have_ts. }
  exists pool, pgs. split; [exact Hrun|].
  exact (proj2 (pairing_matches_once overlapping_log) pool pgs Hrun).
Defined.

(** ** Selection order *)

Lemma StronglySorted_sublist {A} (R : relation A) (l k : list A) :
  l `sublist_of` k → StronglySorted R k → StronglySorted R l.
Proof.
  induction 1 as [|x l k Hsub IH|x l k Hsub IH]; intros Hsorted.
  - constructor.
  - apply StronglySorted_cons in Hsorted as [Hx Hk].
    apply StronglySorted_cons. split; [|by apply IH].
    eapply Forall_forall. intros y Hy. rewrite Forall_forall in Hx.
    apply Hx. by eapply sublist_subseteq.
  - apply StronglySorted_cons in Hsorted as [_ Hk]. by apply IH.
Qed.

Lemma ts_sorted_pending posts pool tool :
  pool_within posts pool → ts_sorted posts → ts_sorted (pending pool tool).
Proof.
  intros Hwithin Hsorted. unfold ts_sorted.
  eapply StronglySorted_sublist; [apply Hwithin|].
  eapply StronglySorted_sublist; [apply sublist_filter|exact Hsorted].
Qed.

(** C6 (amended): when a [before] event of the log is processed, the pool
    of its tool holds the tool's after events, in log order, less those
    matched so far. The event selected is the first of the pool, in log
    order, whose timestamp exceeds the [before] timestamp; it is removed
    from the pool and the elapsed time is the timestamp difference. It is
    the earliest by timestamp among the eligible events of the pool when
    the log's after events are in non-decreasing timestamp order. *)
Theorem select_first_pending (events pres1 pres2 : list event) (pre : event)
    (pool pool' : gmap (option string) (list event))
    (pgs1 : list pairing) (pg : pairing) :
  pre_events events = pres1 ++ pre :: pres2 →
  pair_loop (group_by_tool (post_events events)) pres1 = Returned (pool, pgs1) →
  pair_one pool pre = Returned (pool', pg) →
  pending pool (ev_tool pre)
    `sublist_of` posts_of_tool (ev_tool pre) (post_events events)
  ∧ (∀ x, ev_tool x = ev_tool pre →
          count_occ event_eq_dec (omap pg_matched pgs1) x
          + count_occ event_eq_dec (pending pool (ev_tool pre)) x
          = count_occ event_eq_dec (post_events events) x)
  ∧ step_spec pool pool' pre pg
  ∧ (ts_sorted (post_events events) →
     ∀ matched c,
       pg_matched pg = Some matched →
       c ∈ pending pool (ev_tool pre) → later_than pre c →
       (ts_or_0 matched <= ts_or_0 c)%Q).
Proof.
  intros _ Hloop Hone.
  destruct (pair_loop_spec (post_events events) _ _ _ _ Hloop)
    as (Hwithin & _ & Hcount & _); [apply pool_within_group|].
  apply pair_one_spec in Hone.
  split; [apply Hwithin|]. split; [|split; [done|]].
  - intros x Hx. specialize (Hcount x).
    rewrite group_by_tool_pending, count_occ_posts_of_tool, Hx in Hcount. lia.
  - intros Hsorted matched c Hmatched Hc Hlater.
    pose proof (ts_sorted_pending _ _ (ev_tool pre) Hwithin Hsorted) as Hpend.
    destruct Hone as (_ & _ & _ & _ & _ & Hstep). rewrite Hmatched in Hstep.
    destruct Hstep as (l1 & l2 & ? & ? & Hcand & Hl1 & _).
    rewrite Hcand in Hc, Hpend.
    apply elem_of_app in Hc as [Hc|Hc].
    + rewrite Forall_forall in Hl1. by destruct (Hl1 c Hc).
    + apply StronglySorted_app_1_r, StronglySorted_cons in Hpend as [Hle _].
      apply elem_of_cons in Hc as [->|Hc]; [apply Qle_refl|].
      rewrite Forall_forall in Hle. by apply Hle.
Qed.

Lemma select_first_pending_witness :
  ∃ pool' pg,
    pair_one (group_by_tool (post_events ordered_log)) (sample_pre "Read" 1 100)
    = Returned (pool', pg)
    ∧ step_spec (group_by_tool (post_events ordered_log)) pool'
        (sample_pre "Read" 1 100) pg
    ∧ pg_matched pg = Some (sample_post "Read" 5 7)
    ∧ (∀ c, c ∈ pending (group_by_tool (post_events ordered_log)) (Some "Read") →
            later_than (sample_pre "Read" 1 100) c →
            (ts_or_0 (sample_post "Read" 5 7) <= ts_or_0 c)%Q).
Proof.
  destruct (pair_one_total (group_by_tool (post_events ordered_log))
              (sample_pre "Read" 1 100)) as (pool' & pg & Hone).
  { eexists; reflexivity. }
  { rewrite group_by_tool_pending. vm_compute.
    all_have_ts. }
  assert (Hsorted : ts_sorted (post_events ordered_log)).
  { repeat first [apply SSorted_nil | apply SSorted_cons
                 | apply List.Forall_nil | apply List.Forall_cons];
      vm_compute; discriminate. }
  destruct (select_first_pending ordered_log [] [] (sample_pre "Read" 1 100)
              _ _ [] _ eq_refl eq_refl Hone) as (_ & _ & Hstep & Hearliest).
  assert (Hmatched : pg_matched pg = Some (sample_post "Read" 5 7)).
  { pose proof Hone as Hval. vm_compute in Hval.
    injection Hval as _ <-. reflexivity. }
  exists pool', pg.
  split; [exact Hone|]. split; [exact Hstep|]. split; [exact Hmatched|].
  intros c. exact (Hearliest Hsorted _ c Hmatched).
Defined.

(** C6 as stated fails: with after events at t=10 and then t=5 in the log,
    the [before] event at t=1 is paired with the one at t=10, not with the
    earliest eligible one. *)
Lemma select_earliest_fails :
  ¬ (∀ (events pres1 pres2 : list event) (pre : event)
       (pool pool' : gmap (option string) (list event))
       (pgs1 : list pairing) (pg : pairing) (matched c : event),
        pre_events events = pres1 ++ pre :: pres2 →
        pair_loop (group_by_tool (post_events events)) pres1 = Returned (pool, pgs1) →
        pair_one pool pre = Returned (pool', pg) →
        pg_matched pg = Some matched →
        c ∈ pending pool (ev_tool pre) → later_than pre c →
        (ts_or_0 matched <= ts_or_0 c)%Q).
Proof.
  intros Hclaim.
  destruct (pair_one_total (group_by_tool (post_events unordered_log))
              (sample_pre "Read" 1 100)) as (pool' & pg & Hone).
  { eexists; reflexivity. }
  { rewrite group_by_tool_pending. vm_compute.
    all_have_ts. }
  assert (Hmatched : pg_matched pg = Some (sample_post "Read" 10 50)).
  { pose proof Hone as Hval. vm_compute in Hval.
    injection Hval as _ <-. reflexivity. }
  specialize (Hclaim unordered_log [] [] (sample_pre "Read" 1 100) _ pool' [] pg
                (sample_post "Read" 10 50) (sample_post "Read" 5 7)
                eq_refl eq_refl Hone Hmatched).
  assert (Hle : (ts_or_0 (sample_post "Read" 10 50)
                 <= ts_or_0 (sample_post "Read" 5 7))%Q).
  { apply Hclaim.
    - rewrite group_by_tool_pending. vm_compute. right. left.
    - vm_compute. reflexivity. }
  vm_compute in Hle. by apply Hle.
Qed.

(** ** Transcript scan *)

Lemma scan_faulty lines seen_req calls :
  Faulty ∈ lines → scan lines seen_req calls = None.
Proof.
  revert seen_req calls.
  induction lines as [|ln lines IH]; intros seen_req calls Hin.
  - by apply elem_of_nil in Hin.
  - apply elem_of_cons in Hin as [<-|Hin]; [done|].
    destruct ln as [| | |d]; simpl; auto.
    destruct (negb _); [auto|].
    destruct (msg_usage _); [|auto].
    case_bool_decide; auto.
Qed.

Lemma filter_seen_insert (seen_req : gset (option string)) k
    (l : list (option string * api_call)) :
  filter (fun r => r.1 ∉ seen_req) (filter (fun r => r.1 ≠ k) l)
  = filter (fun r => r.1 ∉ {[k]} ∪ seen_req) l.
Proof.
  rewrite list_filter_filter. apply list_filter_iff. intros r.
  rewrite not_elem_of_union, not_elem_of_singleton. tauto.
Qed.

Lemma filter_seen_absorb (seen_req : gset (option string)) k
    (l : list (option string * api_call)) :
  k ∈ seen_req →
  filter (fun r => r.1 ∉ seen_req) (filter (fun r => r.1 ≠ k) l)
  = filter (fun r => r.1 ∉ seen_req) l.
Proof.
  intros Hk. apply list_filter_filter_l. intros r Hr Heq.
  apply Hr. by rewrite Heq.
Qed.

(** The scan keeps, of the usage records, the first one of every request
    identifier not seen before. *)
Lemma scan_spec lines seen_req calls :
  Faulty ∉ lines →
  scan lines seen_req calls
  = Some (calls ++ (snd <$> filter (fun r => r.1 ∉ seen_req)
                              (spec_first_occurrences (omap usage_record lines)))).
Proof.
  revert seen_req calls.
  induction lines as [|ln lines IH]; intros seen_req calls Hnf.
  - simpl. by rewrite app_nil_r.
  - apply not_elem_of_cons in Hnf as [Hne Hnf].
    destruct ln as [| | |d]; [by apply IH|by apply IH|done|].
    simpl. destruct (opt_eqb String.eqb (entry_type d) (Some "assistant"));
      simpl; [|by apply IH].
    destruct (msg_usage (default empty_message (entry_message d))) as [u|];
      [|by apply IH].
    simpl. case_bool_decide as Hseen.
    + rewrite IH by done. rewrite filter_cons_False by (simpl; tauto).
      by rewrite filter_seen_absorb.
    + rewrite IH by done. rewrite filter_cons_True by done.
      rewrite filter_seen_insert, fmap_cons, <- app_assoc. reflexivity.
Qed.

Lemma scan_retained lines :
  Faulty ∉ lines → scan lines ∅ [] = Some (spec_retained lines).
Proof.
  intros Hnf. rewrite scan_spec by done. unfold spec_retained. simpl.
  f_equal. f_equal.
  induction (spec_first_occurrences _) as [|r l IH]; [done|].
  rewrite filter_cons_True by apply not_elem_of_empty. by rewrite IH.
Qed.

Section first_occurrences.
Implicit Types (l xs ys : list (option string * api_call)).
Implicit Types (r : option string * api_call).

Lemma first_occurrences_filter (P : option string → Prop)
    `{!∀ k, Decision (P k)} l :
  filter (fun r => P r.1) (spec_first_occurrences l)
  = spec_first_occurrences (filter (fun r => P r.1) l).
Proof.
  induction l as [|r l IH]; [done|].
  simpl. destruct (decide (P r.1)) as [HP|HP].
  - rewrite !filter_cons_True by done. simpl. f_equal.
    rewrite <- IH, !list_filter_filter. apply list_filter_iff. tauto.
  - rewrite !filter_cons_False by done. rewrite <- IH.
    apply list_filter_filter_l. intros r' HP' Heq. apply HP. by rewrite <- Heq.
Qed.

Lemma first_occurrences_drop_later xs r ys :
  spec_first_occurrences (xs ++ r :: ys)
  = spec_first_occurrences (xs ++ r :: filter (fun r' => r'.1 ≠ r.1) ys).
Proof.
  induction xs as [|x xs IH]; simpl.
  - f_equal.
    pose proof (first_occurrences_filter (fun k => k ≠ r.1) ys) as Hcomm.
    cbv beta in Hcomm. rewrite <- Hcomm.
    symmetry. by apply list_filter_filter_l.
  - by rewrite IH.
Qed.
End first_occurrences.

Lemma omap_cons_match {A B} (f : A → option B) (x : A) (l : list A) :
  omap f (x :: l) = match f x with
                    | Some y => y :: omap f l
                    | None => omap f l
                    end.
Proof. reflexivity. Qed.

Lemma omap_usage_filter k (lines : list line) :
  omap usage_record (filter (fun ln => ¬ has_key k ln) lines)
  = filter (fun r => r.1 ≠ k) (omap usage_record lines).
Proof.
  induction lines as [|ln lines IH]; [done|].
  rewrite filter_cons.
  destruct (decide (¬ has_key k ln)) as [Hn|Hn];
    unfold has_key in Hn; rewrite !omap_cons_match;
    destruct (usage_record ln) as [r|] eqn:Hr.
  - rewrite filter_cons_True by done. by rewrite IH.
  - exact IH.
  - rewrite filter_cons_False by done. exact IH.
  - tauto.
Qed.

Lemma retained_drop_later before ln after k c :
  usage_record ln = Some (k, c) →
  spec_retained (before ++ ln :: after)
  = spec_retained (before ++ ln :: filter (fun ln' => ¬ has_key k ln') after).
Proof.
  intros Hln. unfold spec_retained. rewrite !omap_app, !omap_cons_match.
  rewrite Hln, omap_usage_filter.
  by rewrite (first_occurrences_drop_later _ (k, c)).
Qed.

Lemma faulty_filter_has_key k (lines : list line) :
  Faulty ∈ filter (fun ln => ¬ has_key k ln) lines ↔ Faulty ∈ lines.
Proof. rewrite list_elem_of_filter. unfold has_key. simpl. tauto. Qed.

(** [parse_real_usage] in terms of the retained calls. *)
Lemma parse_file_retained lines :
  parse_file (Readable lines)
  = if decide (Faulty ∈ lines) then None
    else match spec_retained lines with
         | [] => None
         | calls => Some (summarise calls)
         end.
Proof.
  unfold parse_file. case_decide as Hf.
  - by rewrite scan_faulty.
  - rewrite scan_retained by done. by destruct (spec_retained lines).
Qed.

Lemma parse_file_drop_later before ln after k c :
  usage_record ln = Some (k, c) →
  parse_file (Readable (before ++ ln :: after))
  = parse_file (Readable (before ++ ln
                            :: filter (fun ln' => ¬ has_key k ln') after)).
Proof.
  intros Hln. rewrite !parse_file_retained.
  rewrite <- (retained_drop_later _ _ _ _ _ Hln).
  apply decide_ext.
  rewrite !elem_of_app, !elem_of_cons, faulty_filter_has_key. tauto.
Qed.

Lemma filter_replicate_has_key k c ln n (after : list line) :
  usage_record ln = Some (k, c) →
  filter (fun ln' => ¬ has_key k ln') (replicate n ln ++ after)
  = filter (fun ln' => ¬ has_key k ln') after.
Proof.
  intros Hln. induction n as [|n IH]; [done|].
  simpl. rewrite filter_cons_False; [done|].
  unfold has_key. rewrite Hln. simpl. tauto.
Qed.

(** C1: the calls kept by the scan are the first occurrences, in file
    order, of the usage records of each request identifier, and the four
    totals are the sums over them; any usage record that repeats an
    earlier request identifier can be removed without changing the result,
    so two or more copies of a record give the totals of a single one. *)
Theorem first_occurrence_only (lines : list line) :
  (Faulty ∉ lines → scan lines ∅ [] = Some (spec_retained lines))
  ∧ (∀ s, parse_file (Readable lines) = Some s →
       token_totals s
       = (sum_Z (ac_input <$> spec_retained lines),
          sum_Z (ac_output <$> spec_retained lines),
          sum_Z (ac_cache_create <$> spec_retained lines),
          sum_Z (ac_cache_read <$> spec_retained lines)))
  ∧ (∀ before ln after k c,
       lines = before ++ ln :: after →
       usage_record ln = Some (k, c) →
       parse_file (Readable lines)
       = parse_file (Readable (before ++ ln
                                 :: filter (fun ln' => ¬ has_key k ln') after)))
  ∧ (∀ before ln after copies,
       lines = before ++ ln :: after →
       is_Some (usage_record ln) →
       2 ≤ copies →
       token_totals <$> parse_file (Readable (before ++ replicate copies ln ++ after))
       = token_totals <$> parse_file (Readable lines)).
Proof.
  split; [apply scan_retained|]. split; [|split].
  - intros s. rewrite parse_file_retained. case_decide; [done|].
    destruct (spec_retained lines) as [|c calls]; [done|].
    by intros [= <-].
  - intros before ln after k c ->. apply parse_file_drop_later.
  - intros before ln after copies -> [[k c] Hln] Hcopies. f_equal.
    destruct copies as [|n]; [lia|].
    change (before ++ replicate (S n) ln ++ after)
      with (before ++ ln :: (replicate n ln ++ after)).
    rewrite (parse_file_drop_later before ln (replicate n ln ++ after) k c Hln).
    rewrite (parse_file_drop_later before ln after k c Hln).
    by rewrite (filter_replicate_has_key k c).
Qed.

Lemma first_occurrence_only_witness :
  token_totals <$> parse_file (Readable streamed_transcript)
  = token_totals <$> parse_file (Readable [sample_entry (Some "r1") 10 20 30 40;
                                           sample_entry (Some "r2") 1 2 3 4])
  ∧ token_totals <$> parse_file (Readable streamed_transcript) = Some (11, 22, 33, 44)%Z
  ∧ token_totals
      <$> parse_file (Readable (replicate 3 (sample_entry (Some "r1") 10 20 30 40)
                                ++ [sample_entry (Some "r2") 1 2 3 4]))
    = Some (11, 22, 33, 44)%Z.
Proof.
  split; [|split].
  - apply (f_equal (fmap token_totals)).
    exact (proj1 (proj2 (proj2 (first_occurrence_only streamed_transcript)))
             [] (sample_entry (Some "r1") 10 20 30 40) _ (Some "r1") _
             eq_refl eq_refl).
  - destruct (parse_file (Readable streamed_transcript)) as [s|] eqn:Hs;
      [|vm_compute in Hs; discriminate].
    apply (f_equal Some).
    exact (proj1 (proj2 (first_occurrence_only streamed_transcript)) s Hs).
  - etrans.
    + refine (proj2 (proj2 (proj2 (first_occurrence_only
                [sample_entry (Some "r1") 10 20 30 40; sample_entry (Some "r2") 1 2 3 4])))
                [] (sample_entry (Some "r1") 10 20 30 40)
                [sample_entry (Some "r2") 1 2 3 4] 3 eq_refl _ _).
      * eexists. reflexivity.
      * lia.
    + vm_compute. reflexivity.
Defined.

(** ** Records without a request identifier *)

Lemma drop_later_idless_found (lines : list line) :
  spec_drop_later_idless true lines
  = filter (fun ln => ¬ has_key None ln) lines.
Proof.
  induction lines as [|ln lines IH]; [done|].
  simpl. rewrite filter_cons.
  destruct (decide (has_key None ln)).
  - by rewrite decide_False by tauto.
  - rewrite decide_True by done. by rewrite IH.
Qed.

Lemma has_key_usage_record k ln :
  has_key k ln → ∃ c, usage_record ln = Some (k, c).
Proof.
  unfold has_key. destruct (usage_record ln) as [[k' c]|]; [|done].
  simpl. intros ->. by exists c.
Qed.

Lemma parse_file_drop_later_idless before lines :
  parse_file (Readable (before ++ lines))
  = parse_file (Readable (before ++ spec_drop_later_idless false lines)).
Proof.
  revert before. induction lines as [|ln lines IH]; intros before; [done|].
  simpl. destruct (decide (has_key None ln)) as [Hkey|Hkey].
  - apply has_key_usage_record in Hkey as [c Hc].
    rewrite drop_later_idless_found. by apply (parse_file_drop_later _ _ _ None c).
  - rewrite !(cons_middle ln), !app_assoc. apply IH.
Qed.

Lemma filter_none {A} (P : A → Prop) `{!∀ x, Decision (P x)} (l : list A) :
  (∀ x, ¬ P x) → filter P l = [].
Proof.
  intros HP. induction l as [|x l IH]; [done|].
  by rewrite filter_cons_False.
Qed.

Lemma first_occurrences_one_per_key (k : option string)
    `{!∀ r : option string * api_call, Decision (r.1 = k)}
    (l : list (option string * api_call)) :
  length (filter (fun r => r.1 = k) (spec_first_occurrences l)) ≤ 1.
Proof.
  induction l as [|r l IH]; simpl; [lia|].
  rewrite filter_cons. destruct (decide (r.1 = k)) as [Hk|Hk].
  - rewrite list_filter_filter, filter_none; [simpl; lia|].
    intros r' [Hr' Hne]. apply Hne. by rewrite Hr', Hk.
  - rewrite list_filter_filter_l; [done|].
    intros r' Hr' Heq. apply Hk. by rewrite <- Heq.
Qed.

Lemma first_occurrences_app (xs ys : list (option string * api_call)) :
  spec_first_occurrences (xs ++ ys)
  = spec_first_occurrences xs
    ++ filter (fun r => r.1 ∉ xs.*1) (spec_first_occurrences ys).
Proof.
  induction xs as [|x xs IH]; simpl.
  - symmetry. induction (spec_first_occurrences ys) as [|r l IHl]; [done|].
    rewrite filter_cons_True by apply not_elem_of_nil. by rewrite IHl.
  - f_equal. rewrite IH, filter_app. f_equal.
    rewrite list_filter_filter. apply list_filter_iff. intros r.
    rewrite not_elem_of_cons. tauto.
Qed.

Lemma first_occurrences_first_of_key (xs ys : list (option string * api_call)) r :
  Forall (fun x => x.1 ≠ r.1) xs →
  spec_first_occurrences (xs ++ r :: ys)
  = spec_first_occurrences xs
    ++ r :: filter (fun r' => r'.1 ≠ r.1 ∧ r'.1 ∉ xs.*1) (spec_first_occurrences ys).
Proof.
  intros Hxs. rewrite first_occurrences_app. f_equal. simpl.
  rewrite filter_cons_True.
  - f_equal. rewrite list_filter_filter. apply list_filter_iff. tauto.
  - intros (x & Heq & Hx)%list_elem_of_fmap.
    rewrite Forall_forall in Hxs. by apply (Hxs x Hx).
Qed.

(** C9: usage records that lack a request identifier share the key
    [None]. The result is that of the transcript with every such record
    after the first removed, and at most one retained call comes from such
    a record. When the first of them contributes the call [c], the calls
    kept are those of the lines before it, then [c], then calls of later
    records that all carry an identifier; the token sums, the context
    timeline and the number of calls of the summary are taken over exactly
    these, so they hold the figures of [c] and of no later record without
    an identifier. *)
Theorem idless_records_share_key (lines : list line) :
  parse_file (Readable lines)
  = parse_file (Readable (spec_drop_later_idless false lines))
  ∧ length (filter (fun r => r.1 = None)
              (spec_first_occurrences (omap usage_record lines))) ≤ 1
  ∧ (∀ before ln after c,
       lines = before ++ ln :: after →
       usage_record ln = Some (None, c) →
       Forall (fun ln' => ¬ has_key None ln') before →
       Faulty ∉ lines →
       let kept := spec_retained before ++ c :: spec_later_with_id before after in
       scan lines ∅ [] = Some kept
       ∧ ∃ s, parse_file (Readable lines) = Some s
              ∧ token_totals s
                = (sum_Z (ac_input <$> kept), sum_Z (ac_output <$> kept),
                   sum_Z (ac_cache_create <$> kept), sum_Z (ac_cache_read <$> kept))
              ∧ us_context_by_turn s = turn_of <$> kept
              ∧ us_api_calls s = length kept).
Proof.
  split; [apply (parse_file_drop_later_idless [])|].
  split; [apply first_occurrences_one_per_key|].
  intros before ln after c -> Hln Hbefore Hnf kept.
  assert (Hkept : spec_retained (before ++ ln :: after) = kept).
  { unfold spec_retained. rewrite omap_app, omap_cons_match, Hln.
    rewrite (first_occurrences_first_of_key _ _ (None, c)).
    - rewrite fmap_app, fmap_cons. subst kept. unfold spec_later_with_id.
      f_equal. cbn [snd]. f_equal. f_equal. by apply list_filter_iff.
    - apply Forall_forall. intros r Hr.
      apply list_elem_of_omap in Hr as (ln' & Hin & Hur).
      rewrite Forall_forall in Hbefore. specialize (Hbefore ln' Hin).
      unfold has_key in Hbefore. by rewrite Hur in Hbefore. }
  split; [by rewrite scan_retained, Hkept|].
  rewrite parse_file_retained, decide_False, Hkept by done.
  subst kept. destruct (spec_retained before) as [|c0 calls]; eexists; done.
Qed.

Lemma idless_records_share_key_witness :
  ∃ s, parse_file (Readable idless_transcript) = Some s
       ∧ token_totals s = (11, 22, 33, 44)%Z
       ∧ us_context_by_turn s
         = [("2026-01-01T00:00:00Z", 80%Z); ("2026-01-01T00:00:00Z", 8%Z)]
       ∧ us_api_calls s = 2.
Proof.
  destruct (proj2 (proj2 (idless_records_share_key idless_transcript))
              [] (sample_entry None 10 20 30 40)
              [sample_entry (Some "r2") 1 2 3 4; sample_entry None 5 6 7 8;
               sample_entry None 100 100 100 100] _ eq_refl eq_refl)
    as (_ & s & Hs & Htotals & Hturns & Hcalls).
  - constructor.
  - intros Hin.
    repeat (apply elem_of_cons in Hin as [Hin|Hin]; [discriminate Hin|]).
    by apply elem_of_nil in Hin.
  - exists s. split; [exact Hs|].
    split; [exact Htotals|]. split; [exact Hturns|exact Hcalls].
Defined.

(** ** Mode selection *)

Lemma analyse_returns fs events models aliases cap jsonl_path :
  events ≠ [] → Forall has_ts events →
  ∃ pool pgs,
    pair_events events = Returned (pool, pgs)
    ∧ analyse fs events models aliases cap jsonl_path
      = Returned (Some
          match jsonl_path ≫= parse_real_usage fs with
          | Some ru => analyse_real ru (length (pg_record <$> pgs)) models aliases
          | None => analyse_estimated events (pg_record <$> pgs) models aliases cap
          end).
Proof.
  intros Hne Hts. destruct (pair_events_total events Hts) as (pool & pgs & Hrun).
  exists pool, pgs. split; [done|].
  unfold analyse, paired_of_log. destruct events as [|e events]; [done|].
  rewrite Hrun. simpl. by destruct (jsonl_path ≫= parse_real_usage fs).
Qed.

Lemma analyse_returned fs events models aliases cap jsonl_path r :
  analyse fs events models aliases cap jsonl_path = Returned (Some r) →
  ∃ pool pgs,
    pair_events events = Returned (pool, pgs)
    ∧ r = match jsonl_path ≫= parse_real_usage fs with
          | Some ru => analyse_real ru (length (pg_record <$> pgs)) models aliases
          | None => analyse_estimated events (pg_record <$> pgs) models aliases cap
          end.
Proof.
  unfold analyse, paired_of_log. destruct events as [|e events]; [done|].
  destruct (pair_events (e :: events)) as [[pool pgs]|]; [|done]. simpl.
  intros Hr. exists pool, pgs. split; [done|].
  destruct (jsonl_path ≫= parse_real_usage fs); by injection Hr as <-.
Qed.

(** C7: [parse_real_usage] returns [None] exactly when the transcript
    cannot be opened, or an error is raised while it is read, or no usage
    record is retained; the analysis of a non-empty log then returns with
    the authoritative-data flag false. *)
Theorem no_data_sentinel (fs : string → file) (jsonl_path : string) :
  (parse_real_usage fs jsonl_path = None
   ↔ fs jsonl_path = Unreadable
     ∨ ∃ lines, fs jsonl_path = Readable lines
                ∧ (Faulty ∈ lines ∨ spec_retained lines = []))
  ∧ (∀ events models aliases cap,
       parse_real_usage fs jsonl_path = None →
       events ≠ [] → Forall has_ts events →
       ∃ r, analyse fs events models aliases cap (Some jsonl_path) = Returned (Some r)
            ∧ using_real_data r = false)
  ∧ (∀ events models aliases cap r,
       parse_real_usage fs jsonl_path = None →
       analyse fs events models aliases cap (Some jsonl_path) = Returned (Some r) →
       using_real_data r = false).
Proof.
  split; [|split].
  - unfold parse_real_usage. destruct (fs jsonl_path) as [|lines].
    + simpl. split; [by left|done].
    + rewrite parse_file_retained. split.
      * intros Hnone. right. exists lines. split; [done|].
        case_decide; [by left|right].
        by destruct (spec_retained lines).
      * intros [?|(lines' & [= <-] & [Hf|Hret])]; [done|..].
        -- by rewrite decide_True.
        -- rewrite Hret. by case_decide.
  - intros events models aliases cap Hnone Hne Hts.
    destruct (analyse_returns fs events models aliases cap (Some jsonl_path) Hne Hts)
      as (pool & pgs & _ & ->).
    simpl. rewrite Hnone. eauto.
  - intros events models aliases cap r Hnone Hr.
    apply analyse_returned in Hr as (pool & pgs & _ & ->).
    simpl. by rewrite Hnone.
Qed.

Lemma no_data_sentinel_witness :
  ∃ r, analyse sample_fs overlapping_log sample_models sample_aliases
         CONTEXT_CAP (Some "/projects/p/other.jsonl") = Returned (Some r)
       ∧ using_real_data r = false.
Proof.
  apply (proj1 (proj2 (no_data_sentinel sample_fs "/projects/p/other.jsonl"))).
  - apply (proj1 (no_data_sentinel sample_fs "/projects/p/other.jsonl")).
    left. reflexivity.
  - discriminate.
  - unfold overlapping_log.
    all_have_ts.
Defined.

(** ** Authoritative cost *)

Lemma authoritative_cost_spec card (tokens : token_class → Z) :
  (authoritative_cost card (tokens InputTokens) (tokens OutputTokens)
     (tokens CacheCreationTokens) (tokens CacheReadTokens)
   == spec_authoritative_cost card tokens)%Q.
Proof.
  unfold authoritative_cost, spec_authoritative_cost, sum_Q, spec_class_rate.
  simpl. destruct (cache_creation card), (cache_read card); simpl; field.
Qed.

(** C5: when the transcript yields a usage summary, the analysis of a
    non-empty log returns in authoritative mode, with the summary's four
    totals, the card resolved for the model, and a total cost equal to the
    sum over the four classes of tokens x class rate / 1,000,000, where an
    absent cache-creation rate is 1.25 x input and an absent cache-read
    rate is 0.1 x input. *)
Theorem authoritative_cost_formula (fs : string → file) (events : list event)
    (models : gmap string rate_card) (aliases : gmap string string)
    (cap : Z) (jsonl_path : option string) :
  (∀ path ru,
     jsonl_path = Some path → parse_real_usage fs path = Some ru →
     events ≠ [] → Forall has_ts events →
     ∃ r, analyse fs events models aliases cap jsonl_path = Returned (Some r)
          ∧ using_real_data r = true)
  ∧ (∀ r,
       analyse fs events models aliases cap jsonl_path = Returned (Some r) →
       using_real_data r = true →
       (∃ path ru,
          jsonl_path = Some path ∧ parse_real_usage fs path = Some ru
          ∧ (inp_tok r, out_tok r, cc_tok r, cr_tok r) = token_totals ru)
       ∧ pricing r = (price_for (model r) models (Some aliases)).1
       ∧ (total_cost r == spec_authoritative_cost (pricing r) (analysis_tokens r))%Q
       ∧ (cache_creation (pricing r) = None →
          spec_class_rate (pricing r) CacheCreationTokens
          == 1.25 * input (pricing r))%Q
       ∧ (cache_read (pricing r) = None →
          spec_class_rate (pricing r) CacheReadTokens
          == 0.1 * input (pricing r))%Q).
Proof.
  split.
  - intros path ru -> Hru Hne Hts.
    destruct (analyse_returns fs events models aliases cap (Some path) Hne Hts)
      as (pool & pgs & _ & ->).
    simpl. rewrite Hru. eauto.
  - intros r Hr Hreal.
    apply analyse_returned in Hr as (pool & pgs & _ & ->).
    destruct jsonl_path as [path|]; simpl in *; [|done].
    destruct (parse_real_usage fs path) as [ru|] eqn:Hru; [|done].
    split; [by exists path, ru|]. split; [done|]. split.
    + apply (authoritative_cost_spec _
               (analysis_tokens (analyse_real ru (length (pg_record <$> pgs))
                                   models aliases))).
    + simpl. split; intros ->; reflexivity.
Qed.

Lemma authoritative_cost_formula_witness :
  ∃ r, analyse sample_fs overlapping_log sample_models sample_aliases
         CONTEXT_CAP (Some "/projects/p/s1.jsonl") = Returned (Some r)
       ∧ using_real_data r = true
       ∧ (total_cost r == spec_authoritative_cost (pricing r) (analysis_tokens r))%Q.
Proof.
  pose proof (authoritative_cost_formula sample_fs overlapping_log sample_models
                sample_aliases CONTEXT_CAP (Some "/projects/p/s1.jsonl"))
    as [Hreturns Hformula].
  destruct (parse_real_usage sample_fs "/projects/p/s1.jsonl") as [ru|] eqn:Hru;
    [|vm_compute in Hru; discriminate].
  destruct (Hreturns _ ru eq_refl Hru) as (r & Hr & Hreal).
  - discriminate.
  - unfold overlapping_log.
    all_have_ts.
  - exists r. split; [exact Hr|]. split; [exact Hreal|].
    exact (proj1 (proj2 (proj2 (Hformula r Hr Hreal)))).
Defined.

(** ** Degraded estimate *)

Lemma insert_by_ts_perm x l : insert_by_ts x l ≡ₚ x :: l.
Proof.
  induction l as [|y l IH]; simpl; [done|].
  destruct (Qle_bool (p_ts x) (p_ts y)); [done|].
  rewrite IH. apply Permutation_swap.
Qed.

Lemma sorted_by_ts_perm l : sorted_by_ts l ≡ₚ l.
Proof.
  induction l as [|x l IH]; simpl; [done|].
  by rewrite insert_by_ts_perm, IH.
Qed.

Lemma insert_by_ts_sorted x l :
  paired_sorted l → paired_sorted (insert_by_ts x l).
Proof.
  unfold paired_sorted. induction 1 as [|y l Hl IH Hy]; simpl.
  - repeat constructor.
  - destruct (Qle_bool (p_ts x) (p_ts y)) eqn:Hxy.
    + apply Qle_bool_iff in Hxy. constructor; [by constructor|].
      constructor; [done|]. eapply Forall_impl; [exact Hy|].
      intros z Hz. simpl in Hz. by apply Qle_trans with (p_ts y).
    + constructor; [done|].
      rewrite insert_by_ts_perm. constructor; [|done].
      apply Qlt_le_weak, Qnot_le_lt. intros Hle.
      apply Qle_bool_iff in Hle. congruence.
Qed.

Lemma sorted_by_ts_sorted l : paired_sorted (sorted_by_ts l).
Proof.
  induction l as [|x l IH]; simpl; [constructor|].
  by apply insert_by_ts_sorted.
Qed.

Lemma degraded_loop_spec ip op cap T i evs st :
  let st' := degraded_loop ip op cap T i evs st in
  ds_total_cost st'
  = foldl Qplus (ds_total_cost st) (spec_marginal_costs ip op T i evs)
  ∧ tp_tokens <$> ds_context_timeline st'
    = (tp_tokens <$> ds_context_timeline st)
        ++ spec_running_context cap (ds_cumulative_tokens st) evs
  ∧ tp_ts <$> ds_context_timeline st'
    = (tp_ts <$> ds_context_timeline st) ++ (StampTime ∘ p_ts <$> evs).
Proof.
  revert i st. induction evs as [|ev evs IH]; intros i st; simpl.
  - by rewrite !app_nil_r.
  - destruct (IH (S i) (degraded_step ip op cap T i ev st)) as (-> & -> & ->).
    simpl. rewrite !fmap_app, <- !app_assoc. done.
Qed.

Lemma max_default0_is_max l : is_max_or_0 (max_default0 l) l.
Proof.
  destruct l as [|x l]; [done|]. simpl.
  cut (∀ m, foldl Z.max m l ∈ m :: l
            ∧ (m ≤ foldl Z.max m l)%Z
            ∧ Forall (fun y => (y ≤ foldl Z.max m l)%Z) l).
  { intros Hgen. destruct (Hgen x) as (? & ? & ?). split; [done|by constructor]. }
  induction l as [|y l IH]; intros m; simpl.
  - split; [left|split; [lia|constructor]].
  - destruct (IH (Z.max m y)) as (Hin & Hle & Hall).
    split; [|split; [lia|constructor; [lia|done]]].
    apply elem_of_cons in Hin as [->|Hin].
    + destruct (Z.max_spec m y) as [[_ ->]|[_ ->]]; [right; left|left].
    + by do 2 right.
Qed.

Lemma spec_marginal_costs_lookup ip op T i evs k ev :
  evs !! k = Some ev →
  spec_marginal_costs ip op T i evs !! k
  = Some (spec_marginal_cost ip op T (i + k) ev).
Proof.
  revert i k. induction evs as [|x evs IH]; intros i k; [done|].
  destruct k as [|k]; simpl.
  - intros [= ->]. by rewrite Nat.add_0_r.
  - intros Hk. rewrite (IH (S i) k Hk). do 2 f_equal. lia.
Qed.

Lemma degraded_run_spec card cap paired_list :
  let sorted_events := sorted_by_ts paired_list in
  let st := degraded_run card cap paired_list in
  ds_total_cost st
  = sum_Q (spec_marginal_costs (input card / 1000000) (output card / 1000000)
             (length sorted_events) 0 sorted_events)
  ∧ tp_tokens <$> ds_context_timeline st
    = spec_running_context cap 0 sorted_events.
Proof.
  intros sorted_events st. unfold st, degraded_run. fold sorted_events.
  destruct (degraded_loop_spec (input card / 1000000) (output card / 1000000) cap
              (length sorted_events) 0 sorted_events
              {| ds_cumulative_tokens := 0; ds_total_cost := 0;
                 ds_context_timeline := [] |}) as (-> & -> & _).
  done.
Qed.

Lemma scenario_pairing session session' path cmd mdl :
  ∃ pool pg,
    pair_events [scenario_before session path cmd; scenario_after session' mdl]
    = Returned (pool, [pg])
    ∧ pg_matched pg = Some (scenario_after session' mdl)
    ∧ p_elapsed_s (pg_record pg) = 2%Q
    ∧ p_category (pg_record pg) = "Reading files"
    ∧ p_response_tokens (pg_record pg) = 50%Z.
Proof.
  set (pre := scenario_before session path cmd).
  set (post := scenario_after session' mdl).
  assert (Hpending : pending (group_by_tool [post]) (ev_tool pre) = [post]).
  { rewrite group_by_tool_pending. reflexivity. }
  destruct (pair_one_total (group_by_tool [post]) pre) as (pool & pg & Hone).
  { by eexists. }
  { rewrite Hpending. constructor; [by eexists|constructor]. }
  exists pool, pg. split.
  { unfold pair_events. change (pre_events [pre; post]) with [pre].
    change (post_events [pre; post]) with [post].
    simpl. by rewrite Hone. }
  apply pair_one_spec in Hone as (_ & _ & _ & Hcat & _ & Hstep).
  destruct (pg_matched pg) as [matched|].
  - destruct Hstep as (l1 & l2 & mts & pts & Hcand & _ & _ & _ & Hmts & Hpts & Hel & Hresp).
    rewrite Hpending in Hcand.
    destruct l1 as [|? [|? ?]]; try done. injection Hcand as <- <-.
    injection Hmts as <-. injection Hpts as <-.
    by rewrite Hel, Hresp, Hcat.
  - destruct Hstep as (Hnone & _). rewrite Hpending in Hnone.
    apply Forall_cons in Hnone as [Hnot _]. by destruct Hnot.
Qed.

(** C4: in degraded mode the paired invocations are taken in timestamp
    order; invocation [i] of [T] costs its response size x input rate x
    (T - i) plus its response size x output rate, and the total cost is
    the sum of these; the timeline holds the running counter of input plus
    response sizes, capped at the context-window cap, and the peak is its
    maximum. A session with one Read started at t=0 (input estimate 100)
    and finished at t=2 (output estimate 50), without transcript, gives
    one invocation with elapsed time 2 and category "Reading files", and
    the cost of the formula with one turn remaining. *)
Theorem degraded_estimate (fs : string → file) (models : gmap string rate_card)
    (aliases : gmap string string) (cap : Z) :
  (∀ events jsonl_path pool pgs r,
     pair_events events = Returned (pool, pgs) →
     analyse fs events models aliases cap jsonl_path = Returned (Some r) →
     using_real_data r = false →
     let sorted_events := sorted_by_ts (pg_record <$> pgs) in
     let T := length sorted_events in
     let input_rate := (input (pricing r) / 1000000)%Q in
     let output_rate := (output (pricing r) / 1000000)%Q in
     sorted_events ≡ₚ pg_record <$> pgs
     ∧ paired_sorted sorted_events
     ∧ total_cost r
       = sum_Q (spec_marginal_costs input_rate output_rate T 0 sorted_events)
     ∧ (∀ i ev, sorted_events !! i = Some ev →
          spec_marginal_costs input_rate output_rate T 0 sorted_events !! i
          = Some (spec_marginal_cost input_rate output_rate T i ev))
     ∧ tp_tokens <$> context_timeline r = spec_running_context cap 0 sorted_events
     ∧ is_max_or_0 (peak_tokens r) (tp_tokens <$> context_timeline r))
  ∧ (∀ session session' path cmd mdl,
       let log := [scenario_before session path cmd; scenario_after session' mdl] in
       ∃ pool pg r,
         pair_events log = Returned (pool, [pg])
         ∧ pg_matched pg = Some (scenario_after session' mdl)
         ∧ p_elapsed_s (pg_record pg) = 2%Q
         ∧ p_category (pg_record pg) = "Reading files"
         ∧ analyse fs log models aliases cap None = Returned (Some r)
         ∧ using_real_data r = false
         ∧ tool_calls r = 1
         ∧ (total_cost r
            == 50 * (input (pricing r) / 1000000) * 1
               + 50 * (output (pricing r) / 1000000))%Q).
Proof.
  split.
  - intros events jsonl_path pool pgs r Hpairs Hr Hmode.
    apply analyse_returned in Hr as (pool' & pgs' & Hpairs' & ->).
    rewrite Hpairs in Hpairs'. injection Hpairs' as <- <-.
    destruct (jsonl_path ≫= parse_real_usage fs) as [ru|]; [done|].
    simpl.
    destruct (degraded_run_spec
                (price_for (first_model events) models (Some aliases)).1 cap
                (pg_record <$> pgs)) as [Hcost Htimeline].
    split; [apply sorted_by_ts_perm|]. split; [apply sorted_by_ts_sorted|].
    split; [exact Hcost|]. split.
    + intros i ev Hi. by rewrite (spec_marginal_costs_lookup _ _ _ _ _ _ _ Hi).
    + split; [exact Htimeline|apply max_default0_is_max].
  - intros session session' path cmd mdl log.
    destruct (scenario_pairing session session' path cmd mdl)
      as (pool & pg & Hpairs & Hmatched & Helapsed & Hcat & Hresp).
    destruct (analyse_returns fs log models aliases cap None)
      as (pool' & pgs' & Hpairs' & Hr).
    { done. }
    { constructor; [by eexists|]. constructor; [by eexists|constructor]. }
    unfold log in Hpairs'. rewrite Hpairs in Hpairs'. injection Hpairs' as <- <-.
    exists pool, pg, (analyse_estimated log [pg_record pg] models aliases cap).
    split; [exact Hpairs|]. split; [exact Hmatched|]. split; [exact Helapsed|].
    split; [exact Hcat|]. split; [exact Hr|]. split; [done|]. split; [done|].
    unfold analyse_estimated, degraded_run. simpl. rewrite Hresp.
    change (inject_Z (Z.of_nat 1 - Z.of_nat 0)) with 1%Q.
    change (inject_Z 50) with 50%Q. ring.
Qed.

Lemma degraded_estimate_witness :
  ∃ pool pgs r,
    pair_events overlapping_log = Returned (pool, pgs)
    ∧ analyse sample_fs overlapping_log sample_models sample_aliases CONTEXT_CAP None
      = Returned (Some r)
    ∧ total_cost r
      = sum_Q (spec_marginal_costs (input (pricing r) / 1000000)
                 (output (pricing r) / 1000000)
                 (length (sorted_by_ts (pg_record <$> pgs))) 0
                 (sorted_by_ts (pg_record <$> pgs)))
    ∧ is_max_or_0 (peak_tokens r) (tp_tokens <$> context_timeline r).
Proof.
  destruct (analyse_returns sample_fs overlapping_log sample_models sample_aliases
              CONTEXT_CAP None) as (pool & pgs & Hpairs & Hr).
  { discriminate. }
  { unfold overlapping_log.
    all_have_ts. }
  exists pool, pgs, (analyse_estimated overlapping_log (pg_record <$> pgs)
                       sample_models sample_aliases CONTEXT_CAP).
  destruct (proj1 (degraded_estimate sample_fs sample_models sample_aliases CONTEXT_CAP)
              overlapping_log None pool pgs _ Hpairs Hr eq_refl)
    as (_ & _ & Hcost & _ & _ & Hpeak).
  split; [exact Hpairs|]. split; [exact Hr|]. split; [exact Hcost|exact Hpeak].
Defined.

(** ** Sign and monotonicity of the cost *)

Lemma inject_Z_nonneg z : (0 ≤ z)%Z → (0 <= inject_Z z)%Q.
Proof. intros Hz. change 0%Q with (inject_Z 0). by rewrite <- Zle_Qle. Qed.

Lemma rates_nonneg_defaults card :
  rates_nonneg card →
  (0 <= default (input card * (125 # 100)) (cache_creation card))%Q
  ∧ (0 <= default (input card * (1 # 10)) (cache_read card))%Q.
Proof.
  intros (Hin & _ & Hcc & Hcr). split.
  - destruct (cache_creation card) as [rate|]; simpl; [by apply Hcc|].
    apply Qmult_le_0_compat; [done|discriminate].
  - destruct (cache_read card) as [rate|]; simpl; [by apply Hcr|].
    apply Qmult_le_0_compat; [done|discriminate].
Qed.

Lemma Qdiv_million_le a b : (a <= b)%Q → (a / 1000000 <= b / 1000000)%Q.
Proof. intros Hab. apply Qmult_le_compat_r; [done|discriminate]. Qed.

Lemma tokens_rate_le z z' rate :
  (z ≤ z')%Z → (0 <= rate)%Q → (inject_Z z * rate <= inject_Z z' * rate)%Q.
Proof. intros Hz Hr. apply Qmult_le_compat_r; [by rewrite <- Zle_Qle|done]. Qed.

Lemma authoritative_cost_mono card inp out cc cr inp' out' cc' cr' :
  rates_nonneg card →
  (inp ≤ inp')%Z → (out ≤ out')%Z → (cc ≤ cc')%Z → (cr ≤ cr')%Z →
  (authoritative_cost card inp out cc cr
   <= authoritative_cost card inp' out' cc' cr')%Q.
Proof.
  intros Hrates Hinp Hout Hcc Hcr.
  destruct (rates_nonneg_defaults card Hrates) as [Hdcc Hdcr].
  destruct Hrates as (Hin & Ho & _).
  unfold authoritative_cost. apply Qdiv_million_le.
  repeat apply Qplus_le_compat; by apply tokens_rate_le.
Qed.

Lemma authoritative_cost_zero card : (authoritative_cost card 0 0 0 0 == 0)%Q.
Proof. unfold authoritative_cost. simpl inject_Z. field. Qed.

Lemma authoritative_cost_nonneg card inp out cc cr :
  rates_nonneg card →
  (0 ≤ inp)%Z → (0 ≤ out)%Z → (0 ≤ cc)%Z → (0 ≤ cr)%Z →
  (0 <= authoritative_cost card inp out cc cr)%Q.
Proof.
  intros Hrates ? ? ? ?. rewrite <- (authoritative_cost_zero card).
  by apply authoritative_cost_mono.
Qed.

Lemma foldl_Qplus_le a a' l l' :
  (a <= a')%Q → Forall2 Qle l l' → (foldl Qplus a l <= foldl Qplus a' l')%Q.
Proof.
  intros Ha Hl. revert a a' Ha.
  induction Hl as [|x y l l' Hxy _ IH]; intros a a' Ha; simpl; [done|].
  apply IH. by apply Qplus_le_compat.
Qed.

Lemma foldl_Qplus_nonneg a l :
  (0 <= a)%Q → Forall (Qle 0) l → (0 <= foldl Qplus a l)%Q.
Proof.
  intros Ha Hl. revert a Ha.
  induction Hl as [|x l Hx _ IH]; intros a Ha; simpl; [done|].
  apply IH. rewrite <- (Qplus_0_r 0). by apply Qplus_le_compat.
Qed.

Lemma spec_marginal_cost_le ir or T i ev ev' :
  (0 <= ir)%Q → (0 <= or)%Q → i ≤ T →
  (p_response_tokens ev ≤ p_response_tokens ev')%Z →
  (spec_marginal_cost ir or T i ev <= spec_marginal_cost ir or T i ev')%Q.
Proof.
  intros Hir Hor Hi Hresp. unfold spec_marginal_cost.
  apply Qplus_le_compat; [|by apply tokens_rate_le].
  apply Qmult_le_compat_r; [by apply tokens_rate_le|].
  apply inject_Z_nonneg. lia.
Qed.

Lemma spec_marginal_cost_nonneg ir or T i ev :
  (0 <= ir)%Q → (0 <= or)%Q → i ≤ T →
  (0 ≤ p_response_tokens ev)%Z →
  (0 <= spec_marginal_cost ir or T i ev)%Q.
Proof.
  intros Hir Hor Hi Hresp. unfold spec_marginal_cost.
  rewrite <- (Qplus_0_r 0). apply Qplus_le_compat.
  - repeat apply Qmult_le_0_compat; try done; apply inject_Z_nonneg; lia.
  - apply Qmult_le_0_compat; [by apply inject_Z_nonneg|done].
Qed.

Lemma insert_by_ts_grows x x' l l' :
  response_grows x x' → Forall2 response_grows l l' →
  Forall2 response_grows (insert_by_ts x l) (insert_by_ts x' l').
Proof.
  intros Hx Hl. induction Hl as [|y y' l l' Hy Hl IH]; simpl.
  - constructor; [done|constructor].
  - rewrite <- (proj1 Hx), <- (proj1 Hy).
    destruct (Qle_bool (p_ts x) (p_ts y)).
    + constructor; [done|]. by constructor.
    + by constructor.
Qed.

Lemma sorted_by_ts_grows l l' :
  Forall2 response_grows l l' →
  Forall2 response_grows (sorted_by_ts l) (sorted_by_ts l').
Proof.
  induction 1 as [|x x' l l' Hx _ IH]; simpl; [constructor|].
  by apply insert_by_ts_grows.
Qed.

Lemma spec_marginal_costs_grow ir or T i evs evs' :
  (0 <= ir)%Q → (0 <= or)%Q → i + length evs ≤ T →
  Forall2 response_grows evs evs' →
  Forall2 Qle (spec_marginal_costs ir or T i evs)
    (spec_marginal_costs ir or T i evs').
Proof.
  intros Hir Hor Hlen Hgrow. revert i Hlen.
  induction Hgrow as [|ev ev' evs evs' [_ Hev] _ IH]; intros i Hlen; simpl in *.
  - constructor.
  - constructor; [apply spec_marginal_cost_le; [done|done|lia|done]|].
    apply IH. lia.
Qed.

Lemma spec_marginal_costs_nonneg ir or T i evs :
  (0 <= ir)%Q → (0 <= or)%Q → i + length evs ≤ T →
  Forall (fun ev => (0 ≤ p_response_tokens ev)%Z) evs →
  Forall (Qle 0) (spec_marginal_costs ir or T i evs).
Proof.
  intros Hir Hor Hlen Hall. revert i Hlen.
  induction Hall as [|ev evs Hev _ IH]; intros i Hlen; simpl in *.
  - constructor.
  - constructor; [apply spec_marginal_cost_nonneg; [done|done|lia|done]|].
    apply IH. lia.
Qed.

Lemma per_token_rate_nonneg rate : (0 <= rate)%Q → (0 <= rate / 1000000)%Q.
Proof. intros Hr. apply Qmult_le_0_compat; [done|discriminate]. Qed.

Lemma degraded_cost_grows card cap l l' :
  rates_nonneg card → Forall2 response_grows l l' →
  (ds_total_cost (degraded_run card cap l)
   <= ds_total_cost (degraded_run card cap l'))%Q.
Proof.
  intros (Hin & Hout & _) Hgrow.
  destruct (degraded_run_spec card cap l) as [-> _].
  destruct (degraded_run_spec card cap l') as [-> _].
  apply sorted_by_ts_grows in Hgrow.
  rewrite <- (Forall2_length _ _ _ Hgrow).
  apply foldl_Qplus_le; [apply Qle_refl|].
  apply spec_marginal_costs_grow; auto using per_token_rate_nonneg.
Qed.

Lemma degraded_cost_nonneg card cap l :
  rates_nonneg card →
  Forall (fun ev => (0 ≤ p_response_tokens ev)%Z) l →
  (0 <= ds_total_cost (degraded_run card cap l))%Q.
Proof.
  intros (Hin & Hout & _) Hall.
  destruct (degraded_run_spec card cap l) as [-> _].
  apply foldl_Qplus_nonneg; [apply Qle_refl|].
  apply spec_marginal_costs_nonneg; auto using per_token_rate_nonneg.
  by rewrite sorted_by_ts_perm.
Qed.

Lemma first_priced_elem models candidates card :
  first_priced models candidates = Some card → ∃ k, models !! k = Some card.
Proof.
  induction candidates as [|k candidates IH]; simpl; [done|].
  destruct (models !! k) as [card'|] eqn:Hk; [|done].
  intros [= <-]. eauto.
Qed.

Lemma price_for_nonneg model (models : gmap string rate_card) aliases :
  (∀ k card, models !! k = Some card → rates_nonneg card) →
  rates_nonneg (price_for model models aliases).1.
Proof.
  intros Htable. unfold price_for.
  destruct (models !! model) as [card|] eqn:Hexact; [by eapply Htable|].
  destruct (if truthy _ then _ else None) as [card|] eqn:Halias.
  { destruct (truthy _); [|done].
    destruct (default ∅ aliases !! model) as [target|]; [|done].
    by eapply Htable. }
  destruct (first_priced models (prefix_candidates model)) as [card|] eqn:Hprefix.
  { apply first_priced_elem in Hprefix as [k Hk]. by eapply Htable. }
  simpl. repeat split; try discriminate; by intros rate [= <-].
Qed.

Lemma paired_responses_nonneg events pool pgs :
  pair_events events = Returned (pool, pgs) →
  Forall event_nonneg events →
  Forall (fun ev => (0 ≤ p_response_tokens ev)%Z) (pg_record <$> pgs).
Proof.
  intros Hrun Hevents. unfold pair_events in Hrun.
  destruct (pair_loop_spec (post_events events) _ _ _ _ Hrun)
    as (_ & _ & Hcount & Hok); [apply pool_within_group|].
  apply Forall_fmap, Forall_forall. intros pg Hpg.
  rewrite Forall_forall in Hok. specialize (Hok pg Hpg).
  unfold pairing_ok in Hok. simpl.
  destruct (pg_matched pg) as [matched|] eqn:Hmatched.
  - destruct Hok as (_ & _ & _ & _ & _ & _ & _ & ->).
    assert (Hin : matched ∈ post_events events).
    { apply list_elem_of_In, (count_occ_In event_eq_dec).
      specialize (Hcount matched).
      rewrite group_by_tool_pending, count_occ_posts_of_tool in Hcount.
      assert (matched ∈ omap pg_matched pgs) as Hm
        by (apply list_elem_of_omap; eauto).
      apply list_elem_of_In, (count_occ_In event_eq_dec) in Hm. lia. }
    rewrite Forall_forall in Hevents. apply Hevents.
    apply list_elem_of_In, filter_In in Hin as [Hin _].
    by apply list_elem_of_In.
  - by destruct Hok as (_ & -> & _).
Qed.

Lemma sum_Z_nonneg l : Forall (fun z => (0 ≤ z)%Z) l → (0 ≤ sum_Z l)%Z.
Proof.
  unfold sum_Z. cut (∀ a, (0 ≤ a)%Z → Forall (fun z => (0 ≤ z)%Z) l →
                          (0 ≤ foldl Z.add a l)%Z).
  { intros Hgen. by apply Hgen. }
  intros a Ha Hl. revert a Ha.
  induction Hl as [|z l Hz _ IH]; intros a Ha; simpl; [done|].
  apply IH. lia.
Qed.

Lemma first_occurrences_subseteq (l : list (option string * api_call)) :
  spec_first_occurrences l ⊆ l.
Proof.
  induction l as [|r l IH]; simpl; [done|].
  intros x Hx. apply elem_of_cons in Hx as [->|Hx]; [left|right].
  apply list_elem_of_filter in Hx as [_ Hx]. by apply IH.
Qed.

Lemma usage_record_nonneg ln k c :
  usage_record ln = Some (k, c) → line_nonneg ln →
  (0 ≤ ac_input c)%Z ∧ (0 ≤ ac_output c)%Z
  ∧ (0 ≤ ac_cache_create c)%Z ∧ (0 ≤ ac_cache_read c)%Z.
Proof.
  destruct ln as [| | |d]; simpl; try done.
  destruct (opt_eqb _ _ _); [|done].
  destruct (default empty_message (entry_message d)) as [[u|] mdl]; simpl; [|done].
  by intros [= <- <-].
Qed.

Lemma summary_nonneg fs path ru :
  fs_nonneg fs → parse_real_usage fs path = Some ru →
  (0 ≤ us_input_tokens ru)%Z ∧ (0 ≤ us_output_tokens ru)%Z
  ∧ (0 ≤ us_cache_creation_tokens ru)%Z ∧ (0 ≤ us_cache_read_tokens ru)%Z.
Proof.
  intros Hfs. unfold parse_real_usage.
  destruct (fs path) as [|lines] eqn:Hpath; [done|].
  specialize (Hfs path lines Hpath).
  rewrite parse_file_retained. case_decide; [done|].
  assert (Hcalls : Forall (fun c => (0 ≤ ac_input c)%Z ∧ (0 ≤ ac_output c)%Z
                    ∧ (0 ≤ ac_cache_create c)%Z ∧ (0 ≤ ac_cache_read c)%Z)
                     (spec_retained lines)).
  { apply Forall_forall. intros c Hc. unfold spec_retained in Hc.
    apply list_elem_of_fmap in Hc as ([k c'] & -> & Hc).
    apply first_occurrences_subseteq, list_elem_of_omap in Hc as (ln & Hln & Hur).
    rewrite Forall_forall in Hfs. simpl.
    apply (usage_record_nonneg ln k c' Hur). by apply Hfs. }
  destruct (spec_retained lines) as [|c calls]; [done|].
  intros [= <-]. unfold summarise.
  cbn [us_input_tokens us_output_tokens us_cache_creation_tokens
       us_cache_read_tokens].
  repeat split; apply sum_Z_nonneg, Forall_fmap;
    (eapply Forall_impl; [exact Hcalls|]); simpl; tauto.
Qed.

(** C8: with non-negative rates, the total cost of an analysis is the
    authoritative expression of the four token totals or the degraded
    estimate of the paired invocations; it is non-negative when the
    transcript figures and the estimated response sizes are; the
    authoritative expression does not decrease when a token count grows,
    and the degraded estimate does not decrease when the response size of
    one invocation grows. *)
Theorem cost_nonneg_monotone :
  (∀ fs events models aliases cap jsonl_path r,
     analyse fs events models aliases cap jsonl_path = Returned (Some r) →
     (if using_real_data r
      then total_cost r
           = authoritative_cost (pricing r) (inp_tok r) (out_tok r) (cc_tok r) (cr_tok r)
      else ∃ pool pgs,
          pair_events events = Returned (pool, pgs)
          ∧ total_cost r
            = ds_total_cost (degraded_run (pricing r) cap (pg_record <$> pgs)))
     ∧ ((∀ k card, models !! k = Some card → rates_nonneg card) →
        Forall event_nonneg events → fs_nonneg fs →
        (0 <= total_cost r)%Q))
  ∧ (∀ card inp out cc cr,
       rates_nonneg card →
       (0 ≤ inp)%Z → (0 ≤ out)%Z → (0 ≤ cc)%Z → (0 ≤ cr)%Z →
       (0 <= authoritative_cost card inp out cc cr)%Q)
  ∧ (∀ card inp out cc cr inp' out' cc' cr',
       rates_nonneg card →
       (inp ≤ inp')%Z → (out ≤ out')%Z → (cc ≤ cc')%Z → (cr ≤ cr')%Z →
       (authoritative_cost card inp out cc cr
        <= authoritative_cost card inp' out' cc' cr')%Q)
  ∧ (∀ card cap l,
       rates_nonneg card →
       Forall (fun ev => (0 ≤ p_response_tokens ev)%Z) l →
       (0 <= ds_total_cost (degraded_run card cap l))%Q)
  ∧ (∀ card cap l k p v,
       rates_nonneg card →
       l !! k = Some p → (p_response_tokens p ≤ v)%Z →
       (ds_total_cost (degraded_run card cap l)
        <= ds_total_cost (degraded_run card cap (<[k := with_response v p]> l)))%Q).
Proof.
  split; [|split; [|split; [|split]]].
  - intros fs events models aliases cap jsonl_path r Hr.
    apply analyse_returned in Hr as (pool & pgs & Hpairs & ->).
    destruct (jsonl_path ≫= parse_real_usage fs) as [ru|] eqn:Hru.
    + split; [reflexivity|]. intros Htable _ Hfs.
      destruct jsonl_path as [path|]; [|done]. simpl in Hru.
      destruct (summary_nonneg fs path ru Hfs Hru) as (? & ? & ? & ?).
      apply authoritative_cost_nonneg; [by apply price_for_nonneg|done..].
    + split; [by exists pool, pgs|]. intros Htable Hevents _.
      apply degraded_cost_nonneg; [by apply price_for_nonneg|].
      by eapply paired_responses_nonneg.
  - apply authoritative_cost_nonneg.
  - apply authoritative_cost_mono.
  - apply degraded_cost_nonneg.
  - intros card cap l k p v Hrates Hk Hv.
    apply degraded_cost_grows; [done|].
    rewrite <- (list_insert_id l k p Hk) at 1.
    apply Forall2_insert; [|by split].
    apply Forall_Forall2_diag, Forall_forall. intros x _. split; [done|lia].
Qed.

Lemma cost_nonneg_monotone_witness :
  (0 <= authoritative_cost sonnet_card 10 20 30 40)%Q
  ∧ (authoritative_cost sonnet_card 10 20 30 40
     <= authoritative_cost sonnet_card 10 20 31 40)%Q
  ∧ (ds_total_cost (degraded_run sonnet_card CONTEXT_CAP [sample_paired])
     <= ds_total_cost (degraded_run sonnet_card CONTEXT_CAP
          (<[0%nat := with_response 60 sample_paired]> [sample_paired])))%Q.
Proof.
  assert (Hrates : rates_nonneg sonnet_card).
  { repeat split; try discriminate. }
  destruct cost_nonneg_monotone as (_ & Hnonneg & Hmono & _ & Hgrow).
  split; [|split].
  - apply Hnonneg; [exact Hrates|lia..].
  - apply Hmono; [exact Hrates|lia..].
  - apply Hgrow; [exact Hrates|reflexivity|simpl; lia].
Defined.

(** * Properties of the rest of the engine *)

(** ** Pricing resolver and configuration *)

Lemma split_dash_app_dash a b :
  split_dash (a +:+ "-" +:+ b) = split_dash a ++ split_dash b.
Proof.
  induction a as [|c a IH]; [done|].
  rewrite append_String. simpl. rewrite IH.
  pose proof (split_dash_nonempty a) as Hne.
  destruct (Ascii.eqb c "-"); [done|].
  by destruct (split_dash a).
Qed.

Lemma first_priced_empty candidates : first_priced ∅ candidates = None.
Proof.
  induction candidates as [|k candidates IH]; [done|].
  simpl. by rewrite lookup_empty.
Qed.

(** X1: without a usable pricing.json, or with one that has no [models]
    entry, [load_pricing] gives an empty rate-card table, and every model
    then resolves to the fallback card with the warning. The context cap
    and the alias table are those of the file when it is readable and sets
    them, and the default 200,000 and the empty table otherwise. *)
Theorem missing_pricing_falls_back (pricing_file : option pricing_data)
    (model : string) :
  (pricing_file = None ∨ (∃ data, pricing_file = Some data ∧ pd_models data = None)) →
  let '(models, aliases, cap) := load_pricing pricing_file in
  price_for model models (Some aliases)
  = (FALLBACK_PRICING, [fallback_warning model])
  ∧ cap = default 200000%Z (pricing_file ≫= pd_context_window_cap_tokens)
  ∧ aliases = default ∅ (pricing_file ≫= pd_model_aliases).
Proof.
  intros Hfile.
  assert (Hmodels : (load_pricing pricing_file).1.1 = ∅).
  { destruct Hfile as [->|(data & -> & Hnone)]; [done|]. simpl. by rewrite Hnone. }
  assert (Hcap : (load_pricing pricing_file).2
                 = default 200000%Z (pricing_file ≫= pd_context_window_cap_tokens))
    by (by destruct pricing_file).
  assert (Haliases : (load_pricing pricing_file).1.2
                     = default ∅ (pricing_file ≫= pd_model_aliases))
    by (by destruct pricing_file).
  destruct (load_pricing pricing_file) as [[models aliases] cap].
  simpl in Hmodels, Hcap, Haliases. subst models. split; [|done].
  unfold price_for. simpl default. rewrite lookup_empty.
  rewrite alias_misses_lookup by (intros target _; right; apply lookup_empty).
  by rewrite first_priced_empty.
Qed.

Lemma missing_pricing_falls_back_witness :
  let '(models, aliases, cap) :=
    load_pricing (Some {| pd_models := None;
                          pd_model_aliases := Some {["opus" := "claude-opus-4"]};
                          pd_context_window_cap_tokens := None |}) in
  price_for "claude-opus-4" models (Some aliases)
  = (FALLBACK_PRICING, [fallback_warning "claude-opus-4"])
  ∧ cap = 200000%Z
  ∧ aliases = {["opus" := "claude-opus-4"]}.
Proof.
  exact (missing_pricing_falls_back
           (Some {| pd_models := None;
                    pd_model_aliases := Some {["opus" := "claude-opus-4"]};
                    pd_context_window_cap_tokens := None |})
           "claude-opus-4" (or_intror (ex_intro _ _ (conj eq_refl eq_refl)))).
Defined.

(** X2: a dated release resolves like its base model: when the table has
    [base], of at least 3 dash-delimited segments, an identifier
    [base-suffix] with a dash-free suffix that is itself neither in the
    table nor aliased to a table entry gets the card of [base], without
    warning. *)
Theorem dated_release_resolves_to_base (base suffix : string) (card : rate_card)
    (models : gmap string rate_card) (aliases : gmap string string) :
  let model := base +:+ "-" +:+ suffix in
  models !! base = Some card →
  3 ≤ length (split_dash base) →
  split_dash suffix = [suffix] →
  models !! model = None →
  alias_misses model models aliases →
  price_for model models (Some aliases) = (card, [])
  ∧ price_for model models (Some aliases) = price_for base models (Some aliases).
Proof.
  intros model Hbase Hlen Hsuffix Hexact Halias.
  assert (Hparts : split_dash model = split_dash base ++ [suffix]).
  { unfold model. by rewrite split_dash_app_dash, Hsuffix. }
  assert (Hprice : price_for model models (Some aliases) = (card, [])).
  { unfold price_for. simpl default. rewrite Hexact.
    rewrite alias_misses_lookup by done. unfold prefix_candidates.
    rewrite (first_priced_hit models (spec_prefix_of_segments model)
               _ (length (split_dash base)) card); [done|..].
    - rewrite Hparts, length_app. simpl. lia.
    - unfold spec_prefix_of_segments.
      by rewrite Hparts, take_app_length, join_split_dash.
    - intros k' Hk'. rewrite Hparts, length_app in Hk'. simpl in Hk'.
      unfold spec_prefix_of_segments.
      rewrite take_ge by (rewrite Hparts, length_app; simpl; lia).
      by rewrite join_split_dash. }
  split; [done|]. rewrite Hprice. unfold price_for. by rewrite Hbase.
Qed.

Lemma dated_release_resolves_to_base_witness :
  price_for ("claude-sonnet-4-5" +:+ "-" +:+ "20250929") sample_models
    (Some sample_aliases) = (sonnet_card, [])
  ∧ price_for ("claude-sonnet-4-5" +:+ "-" +:+ "20250929") sample_models
      (Some sample_aliases)
    = price_for "claude-sonnet-4-5" sample_models (Some sample_aliases).
Proof.
  apply (dated_release_resolves_to_base "claude-sonnet-4-5" "20250929" sonnet_card).
  - vm_compute. reflexivity.
  - vm_compute. lia.
  - reflexivity.
  - vm_compute. reflexivity.
  - intros target Htarget. vm_compute in Htarget. discriminate.
Defined.

Lemma first_priced_range_inv (models : gmap string rate_card) (f : nat → string) n :
  match first_priced models (f <$> range_down n 2) with
  | Some card => ∃ k, 3 ≤ k ≤ n ∧ models !! f k = Some card
  | None => ∀ k, 3 ≤ k ≤ n → models !! f k = None
  end.
Proof.
  induction n as [|n IH].
  - simpl. intros k Hk. lia.
  - destruct (decide (2 < S n)) as [Hlt|Hge].
    + rewrite range_down_S by done. rewrite fmap_cons. cbn [first_priced].
      destruct (models !! f (S n)) as [card|] eqn:Hn.
      * exists (S n). split; [lia|done].
      * destruct (first_priced models (f <$> range_down n 2)) as [card|].
        -- destruct IH as (k & Hk & Hcard). exists k. split; [lia|done].
        -- intros k Hk. destruct (decide (k = S n)) as [->|Hne]; [done|].
           apply IH. lia.
    + rewrite range_down_le by lia. simpl. intros k Hk. lia.
Qed.

(** X3: [price_for] never returns the card of an unrelated key. Either it
    gives, without warning, the table's card under the identifier itself,
    under its non-empty alias target, or under a prefix of at least 3
    segments of the identifier; or nothing of the kind is in the table,
    and it gives the fallback card with exactly one warning. *)
Theorem price_for_provenance (model : string) (models : gmap string rate_card)
    (aliases : gmap string string) :
  let result := price_for model models (Some aliases) in
  let segments := length (split_dash model) in
  (result.2 = []
   ∧ ∃ key, models !! key = Some result.1
            ∧ (key = model
               ∨ (aliases !! model = Some key ∧ key ≠ "")
               ∨ ∃ k, 3 ≤ k ≤ segments ∧ key = spec_prefix_of_segments model k))
  ∨ (result = (FALLBACK_PRICING, [fallback_warning model])
     ∧ models !! model = None
     ∧ alias_misses model models aliases
     ∧ ∀ k, 3 ≤ k ≤ segments → models !! spec_prefix_of_segments model k = None).
Proof.
  intros result segments. unfold result, price_for. simpl default.
  destruct (models !! model) as [card|] eqn:Hexact.
  { left. split; [done|]. exists model. split; [done|]. by left. }
  destruct (if truthy (aliases !! model)
            then aliases !! model ≫= (models !!.) else None) as [card|] eqn:Hvia.
  { left. split; [done|].
    destruct (aliases !! model) as [target|]; [|done].
    destruct (truthy (Some target)) eqn:Htruthy; [|done].
    exists target. split; [done|]. right. left. split; [done|].
    intros ->. done. }
  assert (Hmiss : alias_misses model models aliases).
  { intros target Htarget. rewrite Htarget in Hvia.
    destruct (String.eqb_spec target "") as [->|Hne]; [by left|].
    rewrite truthy_Some in Hvia by done. by right. }
  pose proof (first_priced_range_inv models (spec_prefix_of_segments model)
                segments) as Hprefix.
  unfold prefix_candidates. fold segments.
  destruct (first_priced models _) as [card|].
  - destruct Hprefix as (k & Hk & Hcard).
    left. split; [done|]. exists (spec_prefix_of_segments model k).
    split; [done|]. right. right. by exists k.
  - right. done.
Qed.

(** ** Pairing *)

Lemma pair_events_spec events pool pgs :
  pair_events events = Returned (pool, pgs) →
  pg_pre <$> pgs = pre_events events
  ∧ Forall pairing_ok pgs
  ∧ Forall (fun m => m ∈ post_events events) (omap pg_matched pgs).
Proof.
  intros Hrun. unfold pair_events in Hrun.
  destruct (pair_loop_spec (post_events events) _ _ _ _ Hrun)
    as (_ & Hpres & Hcount & Hok); [apply pool_within_group|].
  split; [done|]. split; [done|].
  apply Forall_forall. intros m Hm.
  apply list_elem_of_In, (count_occ_In event_eq_dec).
  apply list_elem_of_In, (count_occ_In event_eq_dec) in Hm.
  specialize (Hcount m).
  rewrite group_by_tool_pending, count_occ_posts_of_tool in Hcount. lia.
Qed.

Lemma paired_of_log_returned events paired_list :
  paired_of_log events = Returned paired_list →
  ∃ pool pgs, pair_events events = Returned (pool, pgs)
              ∧ paired_list = pg_record <$> pgs.
Proof.
  unfold paired_of_log.
  destruct (pair_events events) as [[pool pgs]|]; [|done].
  intros [= <-]. eauto.
Qed.

Lemma pairing_ok_elapsed pg : pairing_ok pg → elapsed_sign_ok pg.
Proof.
  unfold pairing_ok, elapsed_sign_ok.
  destruct (pg_matched pg) as [matched|]; [|by intros (-> & _)].
  intros (_ & Hlater & mts & pts & Hm & Hp & -> & _).
  unfold later_than, ts_or_0 in Hlater. rewrite Hm, Hp in Hlater. simpl in Hlater.
  by apply Qlt_minus_iff in Hlater.
Qed.

Lemma pair_events_elapsed_sign events pool pgs :
  pair_events events = Returned (pool, pgs) → Forall elapsed_sign_ok pgs.
Proof.
  intros Hrun. apply pair_events_spec in Hrun as (_ & Hok & _).
  eapply Forall_impl; [exact Hok|]. apply pairing_ok_elapsed.
Qed.

Lemma paired_of_log_elapsed_nonneg events paired_list :
  paired_of_log events = Returned paired_list →
  Forall (fun p => (0 <= p_elapsed_s p)%Q) paired_list.
Proof.
  intros Hpaired.
  apply paired_of_log_returned in Hpaired as (pool & pgs & Hrun & ->).
  apply Forall_fmap. eapply Forall_impl; [exact (pair_events_elapsed_sign _ _ _ Hrun)|].
  intros pg. unfold elapsed_sign_ok. simpl.
  destruct (pg_matched pg); [apply Qlt_le_weak|intros ->; apply Qle_refl].
Qed.

(** X4: in the pairing of a log, the elapsed time of a matched
    invocation is strictly positive and that of an unmatched one is 0, so
    no entry of [paired] has a negative elapsed time. *)
Theorem elapsed_never_negative (events : list event) :
  (∀ pool pgs, pair_events events = Returned (pool, pgs) →
               Forall elapsed_sign_ok pgs)
  ∧ (∀ paired_list, paired_of_log events = Returned paired_list →
                    Forall (fun p => (0 <= p_elapsed_s p)%Q) paired_list).
Proof.
  split; [apply pair_events_elapsed_sign|apply paired_of_log_elapsed_nonneg].
Qed.

Lemma elapsed_never_negative_witness :
  ∃ paired_list,
    paired_of_log overlapping_log = Returned paired_list
    ∧ Forall (fun p => (0 <= p_elapsed_s p)%Q) paired_list.
Proof.
  eexists. split; [vm_compute; reflexivity|].
  apply (proj2 (elapsed_never_negative overlapping_log)).
  vm_compute. reflexivity.
Defined.

(** X5: the invocation count of an analysis is the number of [before]
    events of the log, matched or not; in degraded mode the API-call count
    is that same number, and in authoritative mode it is the number of
    calls of the usage summary. *)
Theorem tool_calls_counts_before_events (fs : string → file) (events : list event)
    (models : gmap string rate_card) (aliases : gmap string string) (cap : Z)
    (jsonl_path : option string) (r : analysis) :
  analyse fs events models aliases cap jsonl_path = Returned (Some r) →
  tool_calls r = length (pre_events events)
  ∧ (using_real_data r = false → api_calls r = length (pre_events events))
  ∧ (using_real_data r = true →
     ∃ path ru, jsonl_path = Some path ∧ parse_real_usage fs path = Some ru
                ∧ api_calls r = us_api_calls ru
                ∧ length (context_timeline r) = us_api_calls ru).
Proof.
  intros Hr. apply analyse_returned in Hr as (pool & pgs & Hrun & ->).
  apply pair_events_spec in Hrun as (Hpres & _).
  assert (Hlen : length (pg_record <$> pgs) = length (pre_events events)).
  { by rewrite length_fmap, <- Hpres, length_fmap. }
  destruct jsonl_path as [path|]; simpl.
  - destruct (parse_real_usage fs path) as [ru|] eqn:Hru; simpl.
    + split; [done|]. split; [done|]. intros _. exists path, ru.
      split; [done|]. split; [done|]. split; [done|].
      rewrite length_fmap.
      unfold parse_real_usage in Hru. destruct (fs path) as [|lines]; [done|].
      rewrite parse_file_retained in Hru. case_decide; [done|].
      destruct (spec_retained lines) as [|c calls]; [done|].
      injection Hru as <-. simpl. by rewrite length_fmap.
    + by rewrite Hlen.
  - by rewrite Hlen.
Qed.

Lemma tool_calls_counts_before_events_witness :
  ∃ r, analyse sample_fs overlapping_log sample_models sample_aliases CONTEXT_CAP None
       = Returned (Some r)
       ∧ tool_calls r = 2.
Proof.
  destruct (analyse_returns sample_fs overlapping_log sample_models sample_aliases
              CONTEXT_CAP None) as (pool & pgs & _ & Hr);
    [discriminate|unfold overlapping_log; all_have_ts|].
  eexists. split; [exact Hr|].
  exact (proj1 (tool_calls_counts_before_events _ _ _ _ _ _ _ Hr)).
Defined.

Lemma pair_loop_aligned (calls : list (event * event))
    (pool : gmap (option string) (list event)) :
  (∀ tool, pending pool tool = posts_of_tool tool (calls.*2)) →
  Forall call_ok calls →
  ∃ pool' pgs,
    pair_loop pool (calls.*1) = Returned (pool', pgs)
    ∧ pg_pre <$> pgs = calls.*1
    ∧ pg_matched <$> pgs = Some <$> calls.*2
    ∧ p_elapsed_s ∘ pg_record <$> pgs
      = (fun call => (ts_or_0 call.2 - ts_or_0 call.1)%Q) <$> calls.
Proof.
  intros Hpool Hcalls. revert pool Hpool.
  induction Hcalls as [|[a b] calls (Htool & ta & tb & Hta & Htb & Hlt) _ IH];
    intros pool Hpool.
  { exists pool, []. by simpl. }
  simpl in Htool, Hta, Htb.
  assert (Hpending : pending pool (ev_tool a) = b :: posts_of_tool (ev_tool a) (calls.*2)).
  { rewrite Hpool, fmap_cons. unfold posts_of_tool. by rewrite filter_cons_True. }
  assert (Hone : pair_one pool a
                 = Returned (<[ev_tool a := posts_of_tool (ev_tool a) (calls.*2)]> pool,
                     {| pg_pre := a; pg_matched := Some b;
                        pg_record :=
                          {| p_tool := ev_tool a;
                             p_category := category_for (ev_tool a);
                             p_elapsed_s := (tb - ta)%Q;
                             p_input_tokens := default 0%Z (ev_input_tokens a);
                             p_response_tokens := default 0%Z (ev_response_tokens b);
                             p_file_path := py_or (ev_file_path a) (ev_file_path b);
                             p_command := ev_command a;
                             p_ts := ts_or_0 a |} |})).
  { unfold pair_one. fold (pending pool (ev_tool a)). rewrite Hpending.
    unfold select_match. simpl.
    assert (Qltb (ts_or_0 a) (ts_or_0 b) = true) as ->.
    { apply Qltb_lt. unfold ts_or_0. by rewrite Hta, Htb. }
    simpl. rewrite event_eqb_refl. simpl. by rewrite Hta, Htb. }
  destruct (IH (<[ev_tool a := posts_of_tool (ev_tool a) (calls.*2)]> pool))
    as (pool' & pgs & Hloop & Hpres & Hmatched & Helapsed).
  { intros tool. destruct (decide (ev_tool a = tool)) as [<-|Hne].
    - by rewrite pending_insert_eq.
    - rewrite pending_insert_ne by done. rewrite Hpool, fmap_cons.
      unfold posts_of_tool. rewrite filter_cons_False; [done|]. simpl. congruence. }
  eexists pool', (_ :: pgs). rewrite !fmap_cons. simpl.
  rewrite Hone. simpl. rewrite Hloop. simpl.
  rewrite Hpres, Hmatched, Helapsed. unfold ts_or_0. by rewrite Hta, Htb.
Qed.

Lemma sequential_log_events (calls : list (event * event)) :
  Forall (fun call => ev_type call.1 = Some "pre" ∧ ev_type call.2 = Some "post")
    calls →
  pre_events (sequential_log calls) = calls.*1
  ∧ post_events (sequential_log calls) = calls.*2.
Proof.
  unfold pre_events, post_events, sequential_log.
  induction 1 as [|[a b] calls [Ha Hb] _ [IHpre IHpost]]; [done|].
  rewrite bind_cons, !fmap_cons. simpl in *.
  unfold is_type. rewrite Ha, Hb. simpl. fold (is_type "pre") (is_type "post").
  by rewrite IHpre, IHpost.
Qed.

(** X6: first-in, first-out pairing is right whenever the k-th [after]
    event of the log belongs to the k-th [before] event (same tool, later
    timestamp): each [before] event is then matched with its own [after]
    event and the elapsed time is the difference of their timestamps. In
    particular a log of calls that do not overlap is paired exactly. *)
Theorem aligned_calls_pair_exactly (calls : list (event * event)) :
  Forall call_ok calls →
  (∀ events,
     pre_events events = calls.*1 → post_events events = calls.*2 →
     ∃ pool pgs,
       pair_events events = Returned (pool, pgs)
       ∧ pg_pre <$> pgs = calls.*1
       ∧ pg_matched <$> pgs = Some <$> calls.*2
       ∧ p_elapsed_s ∘ pg_record <$> pgs
         = (fun call => (ts_or_0 call.2 - ts_or_0 call.1)%Q) <$> calls)
  ∧ (Forall (fun call => ev_type call.1 = Some "pre" ∧ ev_type call.2 = Some "post")
       calls →
     ∃ pool pgs,
       pair_events (sequential_log calls) = Returned (pool, pgs)
       ∧ pg_matched <$> pgs = Some <$> calls.*2).
Proof.
  intros Hcalls.
  assert (Hgen : ∀ events,
             pre_events events = calls.*1 → post_events events = calls.*2 →
             ∃ pool pgs,
               pair_events events = Returned (pool, pgs)
               ∧ pg_pre <$> pgs = calls.*1
               ∧ pg_matched <$> pgs = Some <$> calls.*2
               ∧ p_elapsed_s ∘ pg_record <$> pgs
                 = (fun call => (ts_or_0 call.2 - ts_or_0 call.1)%Q) <$> calls).
  { intros events Hpre Hpost. unfold pair_events. rewrite Hpre, Hpost.
    apply pair_loop_aligned; [|done]. intros tool. apply group_by_tool_pending. }
  split; [exact Hgen|].
  intros Htypes. destruct (sequential_log_events calls Htypes) as [Hpre Hpost].
  destruct (Hgen _ Hpre Hpost) as (pool & pgs & Hrun & _ & Hmatched & _).
  by exists pool, pgs.
Qed.

Lemma aligned_calls_pair_exactly_witness :
  ∃ pool pgs,
    pair_events (sequential_log [(sample_pre "Read" 0 100, sample_post "Read" 2 50);
                                 (sample_pre "Bash" 3 10, sample_post "Bash" 4 20);
                                 (sample_pre "Read" 5 100, sample_post "Read" 9 50)])
    = Returned (pool, pgs)
    ∧ pg_matched <$> pgs
      = [Some (sample_post "Read" 2 50); Some (sample_post "Bash" 4 20);
         Some (sample_post "Read" 9 50)].
Proof.
  refine (proj2 (aligned_calls_pair_exactly
            [(sample_pre "Read" 0 100, sample_post "Read" 2 50);
             (sample_pre "Bash" 3 10, sample_post "Bash" 4 20);
             (sample_pre "Read" 5 100, sample_post "Read" 9 50)] _) _).
  - repeat (apply List.Forall_cons;
            [split; [reflexivity|eexists _, _; repeat split; reflexivity]|]).
    apply List.Forall_nil.
  - repeat (apply List.Forall_cons; [split; reflexivity|]). apply List.Forall_nil.
Defined.

(** ** Duration and time by category *)

Lemma max_Q_upper x rest :
  (x <= max_Q x rest)%Q ∧ Forall (fun y => (y <= max_Q x rest)%Q) rest.
Proof.
  unfold max_Q. revert x. induction rest as [|y rest IH]; intros x; simpl.
  - split; [apply Qle_refl|constructor].
  - destruct (Qltb x y) eqn:Hxy.
    + apply Qltb_lt in Hxy. destruct (IH y) as [Hy Hrest].
      split; [|by constructor].
      apply Qle_trans with y; [by apply Qlt_le_weak|done].
    + apply Qltb_nlt, Qnot_lt_le in Hxy. destruct (IH x) as [Hx Hrest].
      split; [done|]. constructor; [|done]. by apply Qle_trans with x.
Qed.

Lemma min_Q_lower x rest :
  (min_Q x rest <= x)%Q ∧ Forall (fun y => (min_Q x rest <= y)%Q) rest.
Proof.
  unfold min_Q. revert x. induction rest as [|y rest IH]; intros x; simpl.
  - split; [apply Qle_refl|constructor].
  - destruct (Qltb y x) eqn:Hxy.
    + apply Qltb_lt in Hxy. destruct (IH y) as [Hy Hrest].
      split; [|by constructor].
      apply Qle_trans with y; [done|by apply Qlt_le_weak].
    + apply Qltb_nlt, Qnot_lt_le in Hxy. destruct (IH x) as [Hx Hrest].
      split; [done|]. constructor; [|done]. by apply Qle_trans with x.
Qed.

Lemma duration_s_spans events a b :
  a ∈ omap ev_ts events → b ∈ omap ev_ts events →
  (a - b <= duration_s events)%Q.
Proof.
  unfold duration_s. destruct (omap ev_ts events) as [|x [|y rest]].
  - by intros ?%elem_of_nil.
  - intros ->%list_elem_of_singleton ->%list_elem_of_singleton.
    unfold Qminus. rewrite Qplus_opp_r. apply Qle_refl.
  - intros Ha Hb.
    destruct (max_Q_upper x (y :: rest)) as [Hx Hrest].
    destruct (min_Q_lower x (y :: rest)) as [Hx' Hrest'].
    rewrite Forall_forall in Hrest, Hrest'.
    apply Qplus_le_compat.
    + apply elem_of_cons in Ha as [->|Ha]; auto.
    + apply Qopp_le_compat. apply elem_of_cons in Hb as [->|Hb]; auto.
Qed.

Lemma duration_s_nonneg events : (0 <= duration_s events)%Q.
Proof.
  destruct (omap ev_ts events) as [|x rest] eqn:Hts.
  - unfold duration_s. by rewrite Hts.
  - apply Qle_trans with (x - x)%Q.
    + unfold Qminus. rewrite Qplus_opp_r. apply Qle_refl.
    + apply duration_s_spans; rewrite Hts; left.
Qed.

(** X7: the session duration is never negative, and no invocation of the
    pairing lasts longer than the session: every elapsed time lies between
    0 and [duration_s]. *)
Theorem elapsed_within_duration (events : list event) :
  (0 <= duration_s events)%Q
  ∧ (∀ paired_list,
       paired_of_log events = Returned paired_list →
       Forall (fun p => (0 <= p_elapsed_s p <= duration_s events)%Q) paired_list).
Proof.
  split; [apply duration_s_nonneg|].
  intros paired_list Hpaired.
  apply paired_of_log_returned in Hpaired as (pool & pgs & Hrun & ->).
  apply pair_events_spec in Hrun as (Hpres & Hok & Hposts).
  apply Forall_fmap, Forall_forall. intros pg Hpg. simpl.
  rewrite Forall_forall in Hok. specialize (Hok pg Hpg).
  pose proof (pairing_ok_elapsed pg Hok) as Hsign.
  unfold pairing_ok in Hok. unfold elapsed_sign_ok in Hsign.
  destruct (pg_matched pg) as [matched|] eqn:Hmatched.
  - split; [by apply Qlt_le_weak|].
    destruct Hok as (_ & _ & mts & pts & Hm & Hp & -> & _).
    apply duration_s_spans; apply list_elem_of_omap.
    + exists matched. split; [|done].
      rewrite Forall_forall in Hposts.
      assert (Hin : matched ∈ post_events events).
      { apply Hposts, list_elem_of_omap. eauto. }
      apply list_elem_of_In, filter_In in Hin as [Hin _]. by apply list_elem_of_In.
    + exists (pg_pre pg). split; [|done].
      assert (Hin : pg_pre pg ∈ pre_events events).
      { rewrite <- Hpres. apply list_elem_of_fmap. eauto. }
      apply list_elem_of_In, filter_In in Hin as [Hin _]. by apply list_elem_of_In.
  - destruct Hok as (-> & _). split; [apply Qle_refl|apply duration_s_nonneg].
Qed.

Lemma elapsed_within_duration_witness :
  ∃ paired_list,
    paired_of_log overlapping_log = Returned paired_list
    ∧ Forall (fun p => (0 <= p_elapsed_s p <= duration_s overlapping_log)%Q)
        paired_list.
Proof.
  eexists. split; [vm_compute; reflexivity|].
  apply (proj2 (elapsed_within_duration overlapping_log)).
  vm_compute. reflexivity.
Defined.

Section counter.
Context {V : Type} (add : V → V → V) (zero : V).
Implicit Types (c : list (string * V)) (k : string) (v : V).

Lemma counter_add_keys k v c :
  (counter_add add zero k v c).*1 = if decide (k ∈ c.*1) then c.*1 else c.*1 ++ [k].
Proof.
  induction c as [|[k' v'] c IH].
  - simpl. destruct (decide (k ∈ [])) as [Hin|_]; [|done]. by apply elem_of_nil in Hin.
  - cbn [counter_add].
    destruct (String.eqb_spec k' k) as [->|Hne]; rewrite !fmap_cons; cbn [fst].
    + rewrite decide_True; [done|]. left.
    + rewrite IH. destruct (decide (k ∈ c.*1)) as [Hin|Hnin].
      * rewrite decide_True; [done|]. by right.
      * rewrite decide_False; [done|].
        intros [?|?]%elem_of_cons; [congruence|done].
Qed.

Lemma counter_add_NoDup k v c :
  NoDup (c.*1) → NoDup ((counter_add add zero k v c).*1).
Proof.
  intros Hnodup. rewrite counter_add_keys. case_decide; [done|].
  apply NoDup_app. split; [done|]. split; [|apply NoDup_singleton].
  intros x Hx ->%list_elem_of_singleton. done.
Qed.

Lemma counter_add_elem_of k v c x :
  x ∈ (counter_add add zero k v c).*1 ↔ x = k ∨ x ∈ c.*1.
Proof.
  rewrite counter_add_keys. case_decide.
  - split; [by right|]. by intros [->|?].
  - rewrite elem_of_app, list_elem_of_singleton. tauto.
Qed.

Lemma counter_get_add_eq k v c :
  counter_get zero k (counter_add add zero k v c)
  = add (counter_get zero k c) v.
Proof.
  induction c as [|[k' v'] c IH]; simpl.
  - by rewrite String.eqb_refl.
  - destruct (String.eqb_spec k' k) as [->|Hne]; simpl.
    + by rewrite String.eqb_refl.
    + destruct (String.eqb_spec k' k); [done|exact IH].
Qed.

Lemma counter_get_add_ne k k' v c :
  k ≠ k' →
  counter_get zero k' (counter_add add zero k v c) = counter_get zero k' c.
Proof.
  intros Hne. induction c as [|[k0 v0] c IH]; simpl.
  - by destruct (String.eqb_spec k k').
  - destruct (String.eqb_spec k0 k) as [->|Hne0]; simpl.
    + by destruct (String.eqb_spec k k').
    + by rewrite IH.
Qed.
End counter.

Lemma foldl_Qplus_shift a l : (foldl Qplus a l == a + sum_Q l)%Q.
Proof.
  unfold sum_Q. revert a. induction l as [|x l IH]; intros a; simpl.
  - ring.
  - rewrite IH, (IH (0 + x)%Q). ring.
Qed.

Lemma sum_Q_cons x l : (sum_Q (x :: l) == x + sum_Q l)%Q.
Proof. unfold sum_Q at 1. simpl. rewrite foldl_Qplus_shift. ring. Qed.

Lemma sum_Q_snoc l x : (sum_Q (l ++ [x]) == sum_Q l + x)%Q.
Proof.
  induction l as [|y l IH]; simpl.
  - rewrite sum_Q_cons. unfold sum_Q. simpl. ring.
  - rewrite !sum_Q_cons, IH. ring.
Qed.

Lemma counter_add_sum_Q k v (c : list (string * Q)) :
  (sum_Q ((counter_add Qplus 0 k v c).*2) == sum_Q (c.*2) + v)%Q.
Proof.
  induction c as [|[k' v'] c IH]; cbn [counter_add].
  - unfold sum_Q. simpl. ring.
  - destruct (String.eqb k' k); rewrite !fmap_cons, !sum_Q_cons; cbn [snd].
    + ring.
    + rewrite IH. ring.
Qed.

Lemma time_by_category_snoc l p :
  time_by_category (l ++ [p])
  = counter_add Qplus 0%Q (p_category p) (p_elapsed_s p) (time_by_category l).
Proof. unfold time_by_category. by rewrite foldl_app. Qed.

(** X8: [time_by_category] has one entry per category that occurs among
    the paired invocations, the time of a category is the sum of the
    elapsed times of its invocations, and the times of all categories add
    up to the sum of all elapsed times. *)
Theorem time_by_category_totals (paired_list : list paired) :
  NoDup ((time_by_category paired_list).*1)
  ∧ (∀ cat, cat ∈ (time_by_category paired_list).*1 ↔ cat ∈ p_category <$> paired_list)
  ∧ (∀ cat,
       counter_get 0 cat (time_by_category paired_list)
       == sum_Q (p_elapsed_s
                   <$> filter (fun p => p_category p = cat) paired_list))%Q
  ∧ (sum_Q ((time_by_category paired_list).*2)
     == sum_Q (p_elapsed_s <$> paired_list))%Q.
Proof.
  induction paired_list as [|p l (IHnodup & IHkeys & IHget & IHsum)] using rev_ind.
  - split; [constructor|]. split; [done|]. split; [|done].
    intros cat. reflexivity.
  - rewrite time_by_category_snoc. split; [by apply counter_add_NoDup|].
    split; [|split].
    + intros cat. rewrite counter_add_elem_of, IHkeys, fmap_app, elem_of_app.
      simpl. rewrite list_elem_of_singleton. tauto.
    + intros cat. rewrite filter_app, fmap_app.
      destruct (decide (p_category p = cat)) as [<-|Hne].
      * rewrite counter_get_add_eq, IHget.
        rewrite filter_cons_True by done. simpl. by rewrite sum_Q_snoc.
      * rewrite counter_get_add_ne by done. rewrite IHget.
        rewrite filter_cons_False by done. simpl. by rewrite app_nil_r.
    + rewrite counter_add_sum_Q, IHsum, fmap_app. simpl. by rewrite sum_Q_snoc.
Qed.

Lemma counter_add_nonneg k v (c : list (string * Q)) :
  (0 <= v)%Q → Forall (fun e => (0 <= e.2)%Q) c →
  Forall (fun e => (0 <= e.2)%Q) (counter_add Qplus 0%Q k v c).
Proof.
  intros Hv. induction 1 as [|[k' v'] c Hv' Hc IH]; cbn [counter_add].
  - constructor; [|constructor]. simpl. by rewrite Qplus_0_l.
  - simpl in Hv'. destruct (String.eqb k' k).
    + constructor; [|done]. simpl.
      rewrite <- (Qplus_0_r 0). by apply Qplus_le_compat.
    + by constructor.
Qed.

Lemma time_by_category_nonneg l :
  Forall (fun p => (0 <= p_elapsed_s p)%Q) l →
  Forall (fun e => (0 <= e.2)%Q) (time_by_category l).
Proof.
  induction l as [|p l IH] using rev_ind; intros Hl; [constructor|].
  rewrite time_by_category_snoc. apply Forall_app in Hl as [Hl Hp].
  apply counter_add_nonneg; [|by apply IH].
  by apply Forall_cons in Hp as [Hp _].
Qed.

Lemma sum_Q_nonneg l : Forall (Qle 0) l → (0 <= sum_Q l)%Q.
Proof. intros Hl. by apply foldl_Qplus_nonneg. Qed.

Lemma sum_Q_bounds_elem l x :
  Forall (Qle 0) l → x ∈ l → (x <= sum_Q l)%Q.
Proof.
  induction 1 as [|y l Hy Hl IH]; [by intros ?%elem_of_nil|].
  rewrite sum_Q_cons. intros [->|Hx]%elem_of_cons.
  - rewrite <- (Qplus_0_r y) at 1. apply Qplus_le_compat; [apply Qle_refl|].
    by apply sum_Q_nonneg.
  - rewrite <- (Qplus_0_l x). apply Qplus_le_compat; [done|by apply IH].
Qed.

(** X9: [total_timed] is strictly positive, so the full report never
    divides by zero, and the share [t / total_timed] of every category of
    the time breakdown lies between 0 and 1. *)
Theorem time_shares_are_fractions (events : list event) (paired_list : list paired) :
  paired_of_log events = Returned paired_list →
  (0 < total_timed paired_list)%Q
  ∧ Forall (fun e => (0 <= time_share paired_list e.2 <= 1)%Q)
      (time_by_category paired_list).
Proof.
  intros Hpaired.
  pose proof (paired_of_log_elapsed_nonneg _ _ Hpaired) as Helapsed.
  pose proof (time_by_category_nonneg _ Helapsed) as Hnonneg.
  assert (Hvalues : Forall (Qle 0) ((time_by_category paired_list).*2)).
  { apply Forall_fmap. exact Hnonneg. }
  pose proof (sum_Q_nonneg _ Hvalues) as Hsum.
  unfold time_share, total_timed.
  destruct (Qeq_bool (sum_Q ((time_by_category paired_list).*2)) 0) eqn:Hzero.
  - apply Qeq_bool_iff in Hzero. split; [done|].
    apply Forall_forall. intros e He.
    assert (Hle : (e.2 <= 0)%Q).
    { rewrite <- Hzero. apply sum_Q_bounds_elem; [done|].
      apply list_elem_of_fmap. eauto. }
    rewrite Forall_forall in Hnonneg. specialize (Hnonneg e He). simpl in Hnonneg.
    split.
    + apply Qle_shift_div_l; [done|]. by rewrite Qmult_0_l.
    + apply Qle_shift_div_r; [done|]. rewrite Qmult_1_l.
      apply Qle_trans with 0%Q; [done|discriminate].
  - assert (Hpos : (0 < sum_Q ((time_by_category paired_list).*2))%Q).
    { apply Qle_lteq in Hsum as [Hlt|Heq]; [done|].
      symmetry in Heq. apply Qeq_bool_iff in Heq. congruence. }
    split; [done|].
    apply Forall_forall. intros e He.
    rewrite Forall_forall in Hnonneg. specialize (Hnonneg e He). simpl in Hnonneg.
    split.
    + apply Qle_shift_div_l; [done|]. by rewrite Qmult_0_l.
    + apply Qle_shift_div_r; [done|]. rewrite Qmult_1_l.
      apply sum_Q_bounds_elem; [done|]. apply list_elem_of_fmap. eauto.
Qed.

Lemma time_shares_are_fractions_witness :
  ∃ paired_list,
    paired_of_log overlapping_log = Returned paired_list
    ∧ (0 < total_timed paired_list)%Q.
Proof.
  eexists. split; [vm_compute; reflexivity|].
  apply (time_shares_are_fractions overlapping_log). vm_compute. reflexivity.
Defined.

(** ** Context timeline of the degraded estimate *)

Lemma pair_one_copies pool pre pool' pg :
  pair_one pool pre = Returned (pool', pg) → pg_pre pg = pre ∧ copies_before pg.
Proof.
  unfold pair_one, copies_before.
  destruct (select_match pre _) as [matched|].
  - destruct (list_remove matched _) as [rest|]; [|done]. simpl.
    destruct (ev_ts matched) as [mts|]; [|done]. simpl.
    destruct (ev_ts pre) as [pts|]; [|done]. simpl.
    intros [= <- <-]. simpl. repeat split. unfold py_or. by intros ->.
  - intros [= <- <-]. simpl. repeat split. unfold py_or. by intros ->.
Qed.

Lemma pair_loop_copies pool pres pool' pgs :
  pair_loop pool pres = Returned (pool', pgs) → Forall copies_before pgs.
Proof.
  revert pool pgs. induction pres as [|pre pres IH]; intros pool pgs; simpl.
  - intros [= <- <-]. constructor.
  - destruct (pair_one pool pre) as [[pool1 pg]|] eqn:Hone; [|done]. simpl.
    destruct (pair_loop pool1 pres) as [[pool2 pgs']|] eqn:Hloop; [|done]. simpl.
    intros [= <- <-]. constructor; [|by eapply IH].
    by apply pair_one_copies in Hone as [_ ?].
Qed.

Lemma running_context_capped cap c evs :
  Forall (fun x => (x ≤ cap)%Z) (spec_running_context cap c evs).
Proof.
  revert c. induction evs as [|ev evs IH]; intros c; simpl; [constructor|].
  constructor; [lia|apply IH].
Qed.

Lemma running_context_length cap c evs :
  length (spec_running_context cap c evs) = length evs.
Proof.
  revert c. induction evs as [|ev evs IH]; intros c; simpl; [done|].
  by rewrite IH.
Qed.

Lemma running_context_grows cap c evs :
  (c ≤ cap)%Z →
  Forall (fun ev => (0 ≤ p_input_tokens ev + p_response_tokens ev)%Z) evs →
  Forall (fun x => (c ≤ x)%Z) (spec_running_context cap c evs)
  ∧ StronglySorted Z.le (spec_running_context cap c evs).
Proof.
  intros Hc Hevs. revert c Hc.
  induction Hevs as [|ev evs Hev _ IH]; intros c Hc; simpl.
  - split; constructor.
  - destruct (IH (Z.min (c + (p_input_tokens ev + p_response_tokens ev)) cap))
      as [Hge Hsorted]; [lia|].
    split.
    + constructor; [lia|]. eapply Forall_impl; [exact Hge|]. simpl. lia.
    + by constructor.
Qed.

Lemma max_of_sorted_is_last (l : list Z) :
  StronglySorted Z.le l → max_default0 l = default 0%Z (last l).
Proof.
  intros Hsorted. pose proof (max_default0_is_max l) as Hmax.
  destruct l as [|x l] using rev_ind; [done|]. clear IHl.
  rewrite last_snoc. simpl.
  unfold is_max_or_0 in Hmax.
  destruct (l ++ [x]) as [|y l'] eqn:Heq; [by destruct l|].
  rewrite <- Heq in *. destruct Hmax as [Hin Hall].
  apply StronglySorted_app in Hsorted as (Hle & _ & _).
  rewrite Forall_forall in Hall.
  assert (x ≤ max_default0 (l ++ [x]))%Z
    by (apply Hall, elem_of_app; right; left).
  apply elem_of_app in Hin as [Hin|Hin%list_elem_of_singleton]; [|lia].
  assert (max_default0 (l ++ [x]) ≤ x)%Z by (apply Hle; [done|left]). lia.
Qed.

(** X10: in degraded mode the context timeline has one point per [before]
    event and no point exceeds the context-window cap; when the cap and
    the estimated sizes are non-negative the points never decrease, so the
    peak is the last point of the timeline. *)
Theorem degraded_timeline_grows (fs : string → file) (events : list event)
    (models : gmap string rate_card) (aliases : gmap string string) (cap : Z)
    (jsonl_path : option string) (r : analysis) :
  analyse fs events models aliases cap jsonl_path = Returned (Some r) →
  using_real_data r = false →
  length (context_timeline r) = length (pre_events events)
  ∧ Forall (fun pt => (tp_tokens pt ≤ cap)%Z) (context_timeline r)
  ∧ ((0 ≤ cap)%Z → Forall event_sizes_nonneg events →
     StronglySorted Z.le (tp_tokens <$> context_timeline r)
     ∧ Forall (fun pt => (0 ≤ tp_tokens pt)%Z) (context_timeline r)
     ∧ peak_tokens r = default 0%Z (last (tp_tokens <$> context_timeline r))).
Proof.
  intros Hr Hmode.
  apply analyse_returned in Hr as (pool & pgs & Hrun & ->).
  destruct (jsonl_path ≫= parse_real_usage fs) as [ru|]; [done|]. simpl.
  destruct (degraded_run_spec
              (price_for (first_model events) models (Some aliases)).1 cap
              (pg_record <$> pgs)) as [_ Htokens].
  pose proof (pair_events_spec _ _ _ Hrun) as (Hpres & _ & _).
  split; [|split].
  - rewrite <- (length_fmap tp_tokens), Htokens, running_context_length.
    by rewrite sorted_by_ts_perm, length_fmap, <- Hpres, length_fmap.
  - apply (Forall_fmap tp_tokens (fun x => (x ≤ cap)%Z)).
    rewrite Htokens. apply running_context_capped.
  - intros Hcap Hsizes.
    assert (Hpaired : Forall (fun ev => (0 ≤ p_input_tokens ev + p_response_tokens ev)%Z)
                        (sorted_by_ts (pg_record <$> pgs))).
    { rewrite sorted_by_ts_perm.
      assert (Hresp : Forall (fun ev => (0 ≤ p_response_tokens ev)%Z) (pg_record <$> pgs)).
      { eapply paired_responses_nonneg; [exact Hrun|].
        eapply Forall_impl; [exact Hsizes|]. by intros e [_ ?]. }
      unfold pair_events in Hrun. apply pair_loop_copies in Hrun.
      rewrite Forall_fmap in Hresp. apply Forall_fmap, Forall_forall. intros pg Hpg.
      rewrite Forall_forall in Hresp, Hrun.
      specialize (Hresp pg Hpg). destruct (Hrun pg Hpg) as (_ & _ & Hinp & _).
      simpl in *. rewrite Hinp.
      assert (Hin : pg_pre pg ∈ events).
      { assert (Hpre : pg_pre pg ∈ pre_events events)
          by (rewrite <- Hpres; apply list_elem_of_fmap; eauto).
        apply list_elem_of_In, filter_In in Hpre as [Hpre _]. by apply list_elem_of_In. }
      rewrite Forall_forall in Hsizes. destruct (Hsizes _ Hin). lia. }
    destruct (running_context_grows cap 0 _ Hcap Hpaired) as [Hge Hsorted].
    rewrite Htokens. split; [done|]. split.
    + apply (Forall_fmap tp_tokens (fun x => (0 ≤ x)%Z)). by rewrite Htokens.
    + by apply max_of_sorted_is_last.
Qed.

Lemma degraded_timeline_grows_witness :
  ∃ r, analyse sample_fs overlapping_log sample_models sample_aliases CONTEXT_CAP None
       = Returned (Some r)
       ∧ length (context_timeline r) = 2
       ∧ peak_tokens r = default 0%Z (last (tp_tokens <$> context_timeline r)).
Proof.
  destruct (analyse_returns sample_fs overlapping_log sample_models sample_aliases
              CONTEXT_CAP None) as (pool & pgs & _ & Hr);
    [discriminate|unfold overlapping_log; all_have_ts|].
  eexists. split; [exact Hr|].
  destruct (degraded_timeline_grows _ _ _ _ _ _ _ Hr eq_refl) as (Hlen & _ & Hgrow).
  split; [exact Hlen|].
  apply Hgrow; [by vm_compute|].
  unfold overlapping_log. repeat constructor; by vm_compute.
Defined.

(** ** Counting API calls *)

Lemma first_occurrences_keys (l : list (option string * api_call)) :
  NoDup (spec_first_occurrences l).*1
  ∧ ∀ k, k ∈ (spec_first_occurrences l).*1 ↔ k ∈ l.*1.
Proof.
  induction l as [|r l [IHnd IHin]]; [split; [constructor|done]|].
  cbn [spec_first_occurrences]. rewrite !fmap_cons.
  assert (Hkeys : ∀ k, k ∈ (filter (fun r' => r'.1 ≠ r.1) (spec_first_occurrences l)).*1
                       ↔ k ≠ r.1 ∧ k ∈ l.*1).
  { intros k. rewrite <- IHin, !list_elem_of_fmap. split.
    - intros (x & -> & [Hne Hx]%list_elem_of_filter). eauto.
    - intros (Hne & x & -> & Hx). exists x. split; [done|].
      by apply list_elem_of_filter. }
  split.
  - constructor; [rewrite Hkeys; tauto|].
    eapply sublist_NoDup; [exact IHnd|apply fmap_sublist, sublist_filter].
  - intros k. rewrite !elem_of_cons, Hkeys.
    destruct (decide (k = r.1)); tauto.
Qed.

(** X11: the number of API calls of an authoritative summary is the number
    of distinct request identifiers among the usage records of the
    transcript (records without an identifier counting as one), it is at
    least one, and the context timeline has one entry per call. *)
Theorem api_calls_counts_distinct_requests (fs : string → file)
    (jsonl_path : string) (lines : list line) (ru : usage_summary) :
  fs jsonl_path = Readable lines →
  parse_real_usage fs jsonl_path = Some ru →
  us_api_calls ru = size (request_ids lines)
  ∧ 1 ≤ us_api_calls ru
  ∧ length (us_context_by_turn ru) = us_api_calls ru.
Proof.
  intros Hfile. unfold parse_real_usage. rewrite Hfile, parse_file_retained.
  case_decide; [done|].
  destruct (spec_retained lines) as [|c calls] eqn:Hcalls; [done|].
  intros [= <-]. cbn [summarise us_api_calls us_context_by_turn].
  rewrite length_fmap. split; [|split; [simpl; lia|done]].
  rewrite <- Hcalls. unfold spec_retained, request_ids.
  destruct (first_occurrences_keys (omap usage_record lines)) as [Hnd Hin].
  rewrite length_fmap, <- (length_fmap fst), <- (size_list_to_set (C := gset _)) by done.
  f_equal. apply set_eq. intros k. by rewrite !elem_of_list_to_set.
Qed.

Lemma api_calls_counts_distinct_requests_witness :
  ∃ ru, parse_real_usage sample_fs "/projects/p/s1.jsonl" = Some ru
        ∧ us_api_calls ru = size (request_ids streamed_transcript).
Proof.
  destruct (parse_real_usage sample_fs "/projects/p/s1.jsonl") as [ru|] eqn:Hru;
    [|by vm_compute in Hru].
  exists ru. split; [done|].
  by apply (api_calls_counts_distinct_requests sample_fs "/projects/p/s1.jsonl"
              streamed_transcript ru).
Defined.

(** ** The model an analysis prices with *)

Lemma first_model_nonempty events : first_model events ≠ "".
Proof.
  unfold first_model.
  destruct (head _) as [m|] eqn:Hhead; [|done]. simpl.
  apply head_Some_elem_of, list_elem_of_omap in Hhead as (e & _ & He).
  destruct (ev_model e) as [m'|]; [|done]. simpl in He.
  destruct (String.eqb_spec m' ""); [done|]. by injection He as <-.
Qed.

(** X12: the model name of an analysis is never empty (a session whose
    transcript or events name no model is priced as claude-sonnet-4-6), and
    the rate card of the analysis is the one [price_for] gives for that
    name. *)
Theorem analysis_model_never_empty (fs : string → file) (events : list event)
    (models : gmap string rate_card) (aliases : gmap string string) (cap : Z)
    (jsonl_path : option string) (r : analysis) :
  analyse fs events models aliases cap jsonl_path = Returned (Some r) →
  model r ≠ ""
  ∧ pricing r = (price_for (model r) models (Some aliases)).1
  ∧ (using_real_data r = false →
     Forall (fun e => truthy (ev_model e) = false) events →
     model r = DEFAULT_MODEL).
Proof.
  intros Hr. apply analyse_returned in Hr as (pool & pgs & _ & ->).
  destruct (jsonl_path ≫= parse_real_usage fs) as [ru|]; simpl.
  - split; [|split; [done|done]].
    destruct (String.eqb_spec (us_model ru) ""); done.
  - split; [apply first_model_nonempty|]. split; [done|].
    intros _ Hnone. unfold first_model.
    replace (omap _ events) with (@nil string); [done|].
    induction Hnone as [|e l He _ IH]; [done|].
    rewrite omap_cons_match, He. exact IH.
Qed.

Lemma analysis_model_never_empty_witness :
  ∃ r, analyse sample_fs overlapping_log sample_models sample_aliases CONTEXT_CAP
         (Some "/projects/p/s1.jsonl") = Returned (Some r)
       ∧ model r ≠ "".
Proof.
  destruct (analyse_returns sample_fs overlapping_log sample_models sample_aliases
              CONTEXT_CAP (Some "/projects/p/s1.jsonl")) as (pool & pgs & _ & Hr);
    [discriminate|unfold overlapping_log; all_have_ts|].
  eexists. split; [exact Hr|].
  exact (proj1 (analysis_model_never_empty _ _ _ _ _ _ _ Hr)).
Defined.

(** ** The base of a shell command *)

Lemma append_assoc_str (a b c : string) : (a +:+ b) +:+ c = a +:+ (b +:+ c).
Proof. induction a as [|x a IH]; [done|]. by rewrite !append_String, IH. Qed.

Lemma lstrip_spaces ws s :
  all_chars is_space ws = true → lstrip (ws +:+ s) = lstrip s.
Proof.
  induction ws as [|c ws IH]; [done|]. cbn [all_chars].
  intros [Hc Hws]%andb_prop. rewrite append_String. cbn [lstrip]. rewrite Hc. auto.
Qed.

Lemma lstrip_word_start c s : is_space c = false → lstrip (String c s) = String c s.
Proof. intros Hc. simpl. by rewrite Hc. Qed.

Lemma lstrip_shape s :
  lstrip s = "" ∨ ∃ c t, lstrip s = String c t ∧ is_space c = false.
Proof.
  induction s as [|c s IH]; [by left|]. simpl.
  destruct (is_space c) eqn:Hc; [done|]. right. eauto.
Qed.

Lemma rstrip_first c s :
  is_space c = false → ∃ t, rstrip (String c s) = String c t.
Proof.
  intros Hc. simpl. destruct (rstrip s); rewrite ?Hc; eauto.
Qed.

Lemma rstrip_app_word w rest :
  is_word w → ends_word rest →
  ∃ rest', rstrip (w +:+ rest) = w +:+ rest' ∧ ends_word rest'.
Proof.
  intros [Hne Hw] Hrest. induction w as [|c w IH]; [done|].
  simpl in Hw. apply andb_prop in Hw as [Hc Hw]. apply negb_true_iff in Hc.
  rewrite append_String. cbn [rstrip].
  destruct w as [|c' w].
  - change ("" +:+ rest) with rest.
    destruct (rstrip rest) as [|d rest'] eqn:Hr.
    + rewrite Hc. by exists "".
    + exists (String d rest'). split; [done|].
      destruct rest as [|d0 rest0]; [done|]. simpl in Hr, Hrest |- *.
      destruct (rstrip rest0); [by destruct (is_space d0); [|injection Hr as <- _]|].
      by injection Hr as <- _.
  - destruct IH as (rest' & -> & Hends); [done|done|].
    exists rest'. by rewrite !append_String.
Qed.

Lemma split_ws_go_some_nonempty x s : split_ws_go (Some x) s ≠ [].
Proof.
  revert x. induction s as [|c s IH]; intros x; simpl; [done|].
  destruct (is_space c); [done|apply IH].
Qed.

Lemma split_ws_go_word cur w rest :
  is_word w → ends_word rest →
  ∃ more, split_ws_go cur (w +:+ rest) = (default "" cur +:+ w) :: more.
Proof.
  intros [Hne Hw] Hrest. revert cur. induction w as [|c w IH]; intros cur; [done|].
  simpl in Hw. apply andb_prop in Hw as [Hc Hw]. apply negb_true_iff in Hc.
  rewrite append_String. cbn [split_ws_go]. rewrite Hc.
  destruct w as [|c' w].
  - change ("" +:+ rest) with rest. destruct rest as [|d rest]; simpl.
    + eauto.
    + simpl in Hrest. rewrite Hrest. simpl. eauto.
  - destruct (IH ltac:(done) Hw (Some (default "" cur +:+ String c ""))) as [more ->].
    exists more. simpl. f_equal.
    by rewrite append_assoc_str.
Qed.

Lemma split_ws_go_first cur s :
  ∃ base more, split_ws_go (Some cur) s = (cur +:+ base) :: more
               ∧ all_chars (fun c => negb (is_space c)) base = true
               ∧ String.prefix base s = true.
Proof.
  revert cur. induction s as [|d s IH]; intros cur; simpl.
  - exists "", []. by rewrite append_nil_r_str.
  - destruct (is_space d) eqn:Hd.
    + exists "", (split_ws_go None s). by rewrite append_nil_r_str.
    + destruct (IH (cur +:+ String d "")) as (base & more & -> & Hbase & Hpre).
      exists (String d base), more. split; [|split].
      * f_equal. by rewrite append_assoc_str.
      * simpl. by rewrite Hd.
      * simpl. destruct (Ascii.ascii_dec d d); [done|congruence].
Qed.

(** X13: taking the base of a command never raises. A command of only
    whitespace is its own base; otherwise the base is a word (not empty,
    free of whitespace) with which the stripped command starts. *)
Theorem bash_base_never_raises (command : string) :
  ∃ base, bash_base command = Returned base
          ∧ (strip command = "" → base = command)
          ∧ (strip command ≠ "" →
             is_word base ∧ String.prefix base (strip command) = true).
Proof.
  unfold bash_base. destruct (String.eqb_spec (strip command) "") as [Hs|Hs]; simpl.
  - exists command. split; [done|]. split; [done|]. by rewrite Hs.
  - unfold strip in *.
    destruct (lstrip_shape command) as [Hl|(c & t & Hl & Hc)];
      [by rewrite Hl in Hs|].
    rewrite Hl in *.
    destruct (rstrip_first c t Hc) as [t' Ht]. rewrite Ht in *.
    unfold split_ws. cbn [split_ws_go]. rewrite Hc.
    change (split_ws_go (Some _) t') with (split_ws_go (Some (String c "")) t').
    destruct (split_ws_go_first (String c "") t') as (base & more & -> & Hbase & Hpre).
    exists (String c base). split; [done|]. split; [done|]. intros _.
    split; [split; [done|simpl; by rewrite Hc]|].
    simpl. destruct (Ascii.ascii_dec c c); [done|congruence].
Qed.

(** X14: the base of a command is its first word: leading whitespace is
    skipped and the word ends at the next whitespace or at the end. *)
Theorem bash_base_first_word (ws word rest : string) :
  all_chars is_space ws = true → is_word word → ends_word rest →
  bash_base (ws +:+ word +:+ rest) = Returned word.
Proof.
  intros Hws Hword Hrest. unfold bash_base, strip.
  rewrite lstrip_spaces by done.
  assert (Hstart : lstrip (word +:+ rest) = word +:+ rest).
  { destruct Hword as [Hne Hw]. destruct word as [|c w]; [done|].
    simpl in Hw. apply andb_prop in Hw as [Hc _]. apply negb_true_iff in Hc.
    rewrite append_String. by apply lstrip_word_start. }
  rewrite Hstart.
  destruct (rstrip_app_word word rest Hword Hrest) as (rest' & -> & Hrest').
  destruct (split_ws_go_word None word rest' Hword Hrest') as [more Hsplit].
  unfold split_ws. rewrite Hsplit.
  destruct (String.eqb_spec (word +:+ rest') "") as [Hempty|_]; [|done].
  destruct Hword as [Hne _]. by destruct word.
Qed.

Lemma bash_base_first_word_witness :
  bash_base "  git status --short " = Returned "git".
Proof.
  apply (bash_base_first_word "  " "git" " status --short ");
    [reflexivity|split; [discriminate|reflexivity]|reflexivity].
Defined.

(** ** File reads and command frequencies *)

Lemma bash_base_returns command : ∃ base, bash_base command = Returned base.
Proof.
  unfold bash_base. destruct (String.eqb_spec (strip command) "") as [Hs|Hs]; simpl.
  - eauto.
  - unfold strip in *.
    destruct (lstrip_shape command) as [Hl|(c & t & Hl & Hc)];
      [by rewrite Hl in Hs|].
    rewrite Hl in *. destruct (rstrip_first c t Hc) as [t' ->].
    unfold split_ws. cbn [split_ws_go]. rewrite Hc.
    destruct (split_ws_go _ t') as [|x more] eqn:Hsplit;
      [by apply split_ws_go_some_nonempty in Hsplit|].
    simpl. eauto.
Qed.

Lemma counter_add_ok k (c : list (string * Z)) :
  counter_ok c → counter_ok (counter_add Z.add 0%Z k 1%Z c).
Proof.
  intros [Hnd Hpos]. split; [by apply counter_add_NoDup|].
  clear Hnd. induction Hpos as [|[k' v'] c Hv Hc IH]; simpl.
  - repeat constructor. simpl. lia.
  - destruct (String.eqb k' k); constructor; simpl in *; auto; lia.
Qed.

Lemma counter_ok_elem_of k (c : list (string * Z)) :
  counter_ok c → k ∈ c.*1 ↔ (1 ≤ counter_get 0%Z k c)%Z.
Proof.
  intros [_ Hpos]. induction Hpos as [|[k' v'] c Hv Hc IH].
  - simpl. split; [by intros ?%elem_of_nil|lia].
  - rewrite fmap_cons, elem_of_cons. simpl in *.
    destruct (String.eqb_spec k' k) as [->|Hne]; [tauto|].
    rewrite IH. split; [intros [?|?]; [congruence|done]|auto].
Qed.

Lemma count_of_pos {A} (f : A → bool) (l : list A) :
  (1 ≤ count_of f l)%Z ↔ ∃ x, x ∈ l ∧ f x = true.
Proof.
  unfold count_of. split.
  - destruct (List.filter f l) as [|x l'] eqn:Hf; [simpl; lia|]. intros _.
    assert (Hx : In x (List.filter f l)) by (rewrite Hf; by left).
    apply filter_In in Hx as [Hx Hfx]. exists x. by rewrite list_elem_of_In.
  - intros (x & Hx & Hfx).
    assert (Hin : In x (List.filter f l))
      by (apply filter_In; split; [by apply list_elem_of_In|done]).
    destruct (List.filter f l); [done|]. simpl. lia.
Qed.

Section count_keys.
Context (key : paired → option string).

Lemma count_keys_ok c l : counter_ok c → counter_ok (count_keys key c l).
Proof.
  revert c. induction l as [|p l IH]; intros c Hc; [done|].
  unfold count_keys. simpl. apply IH.
  destruct (key p); [by apply counter_add_ok|done].
Qed.

Lemma count_keys_get k c l :
  counter_get 0%Z k (count_keys key c l)
  = (counter_get 0%Z k c + count_of (key_is key k) l)%Z.
Proof.
  unfold count_of. revert c. induction l as [|p l IH]; intros c.
  - simpl. lia.
  - change (count_keys key c (p :: l))
      with (count_keys key (match key p with
                            | Some k => counter_add Z.add 0%Z k 1%Z c
                            | None => c
                            end) l).
    rewrite IH. cbn [List.filter]. unfold key_is at 2.
    destruct (key p) as [k'|]; [|done].
    destruct (String.eqb_spec k' k) as [->|Hne].
    + rewrite counter_get_add_eq. cbn [length]. lia.
    + by rewrite counter_get_add_ne.
Qed.
End count_keys.

Lemma foldl_step_ext {A B} (f g : A → B → A) (a : A) (l : list B) :
  (∀ x y, f x y = g x y) → foldl f a l = foldl g a l.
Proof.
  intros Hfg. revert a. induction l as [|y l IH]; intros a; [done|].
  simpl. by rewrite Hfg, IH.
Qed.

Lemma count_of_ext {A} (f g : A → bool) l :
  (∀ x, f x = g x) → count_of f l = count_of g l.
Proof.
  intros Hfg. unfold count_of. f_equal. f_equal.
  induction l as [|x l IH]; [done|]. simpl. by rewrite Hfg, IH.
Qed.

Lemma opt_eqb_string_true (o : option string) s :
  opt_eqb String.eqb o (Some s) = true ↔ o = Some s.
Proof.
  destruct o as [s'|]; simpl; [|done].
  destruct (String.eqb_spec s' s); split; congruence.
Qed.

(** X15: [file_map] holds, for every file path, the number of [Read]
    invocations of that path; no path occurs twice, every entry counts at
    least one read, and a path that was never read has no entry. *)
Theorem file_map_counts_reads (paired_list : list paired) :
  counter_ok (file_map paired_list)
  ∧ (∀ fp, counter_get 0%Z fp (file_map paired_list)
           = count_of (reads_file fp) paired_list)
  ∧ (∀ fp, fp ∈ (file_map paired_list).*1 ↔
           ∃ p, p ∈ paired_list ∧ reads_file fp p = true).
Proof.
  set (key := fun p : paired =>
                if opt_eqb String.eqb (p_tool p) (Some "Read") && truthy (p_file_path p)
                then Some (default "" (p_file_path p)) else None).
  assert (Hmap : file_map paired_list = count_keys key [] paired_list).
  { unfold file_map, count_keys. apply foldl_step_ext. intros m p. unfold key.
    by destruct (_ && _). }
  assert (Hkey : ∀ fp p, key_is key fp p = reads_file fp p).
  { intros fp p. unfold key_is, key, reads_file.
    destruct (opt_eqb String.eqb (p_tool p) (Some "Read")); [|done]. simpl.
    destruct (p_file_path p) as [fp'|]; [|done]. simpl.
    by destruct (negb (String.eqb fp' "")). }
  assert (Hok : counter_ok (file_map paired_list)).
  { rewrite Hmap. apply count_keys_ok. split; constructor. }
  assert (Hget : ∀ fp, counter_get 0%Z fp (file_map paired_list)
                       = count_of (reads_file fp) paired_list).
  { intros fp. rewrite Hmap, count_keys_get. simpl.
    by rewrite (count_of_ext _ _ _ (Hkey fp)). }
  split; [done|]. split; [done|].
  intros fp. by rewrite counter_ok_elem_of, Hget, count_of_pos.
Qed.

Lemma count_bash_keys (paired_list : list paired) (c : list (string * Z)) :
  count_bash paired_list c
  = Returned (count_keys
                (fun p => if opt_eqb String.eqb (p_tool p) (Some "Bash")
                             && truthy (p_command p)
                          then match bash_base (default "" (p_command p)) with
                               | Returned b => Some b
                               | Raised _ => None
                               end
                          else None) c paired_list).
Proof.
  revert c. induction paired_list as [|p l IH]; intros c; [done|].
  unfold count_keys. cbn [count_bash foldl].
  destruct (opt_eqb String.eqb (p_tool p) (Some "Bash") && truthy (p_command p));
    [|apply IH].
  destruct (bash_base_returns (default "" (p_command p))) as [base ->].
  simpl. apply IH.
Qed.

(** X16: [bash_commands] is always built (no command makes the analysis
    fail), and it holds for every base the number of [Bash] invocations
    whose command, not empty, has that base; no base occurs twice and
    every entry counts at least one invocation. *)
Theorem bash_commands_counts_bases (paired_list : list paired) :
  ∃ commands,
    bash_commands paired_list = Returned commands
    ∧ counter_ok commands
    ∧ (∀ base, counter_get 0%Z base commands
               = count_of (runs_base base) paired_list)
    ∧ (∀ base, base ∈ commands.*1 ↔
               ∃ p, p ∈ paired_list ∧ runs_base base p = true).
Proof.
  unfold bash_commands. rewrite count_bash_keys.
  eexists. split; [reflexivity|].
  assert (Hok : counter_ok (count_keys
                  (fun p => if opt_eqb String.eqb (p_tool p) (Some "Bash")
                               && truthy (p_command p)
                            then match bash_base (default "" (p_command p)) with
                                 | Returned b => Some b
                                 | Raised _ => None
                                 end
                            else None) [] paired_list)).
  { apply count_keys_ok. split; constructor. }
  assert (Hget : ∀ base, counter_get 0%Z base (count_keys
                  (fun p => if opt_eqb String.eqb (p_tool p) (Some "Bash")
                               && truthy (p_command p)
                            then match bash_base (default "" (p_command p)) with
                                 | Returned b => Some b
                                 | Raised _ => None
                                 end
                            else None) [] paired_list)
                         = count_of (runs_base base) paired_list).
  { intros base. rewrite count_keys_get. simpl. apply count_of_ext.
    intros p. unfold key_is, runs_base.
    destruct (opt_eqb String.eqb (p_tool p) (Some "Bash") && truthy (p_command p));
      [|done].
    by destruct (bash_base (default "" (p_command p))). }
  split; [done|]. split; [done|].
  intros base. by rewrite counter_ok_elem_of, Hget, count_of_pos.
Qed.

(** ** The analysis with its report entries *)

Lemma analyse_full_core fs events models aliases cap jsonl_path :
  fmap (M := outcome) (fmap (M := option) sd_analysis)
    (analyse_full fs events models aliases cap jsonl_path)
  = analyse fs events models aliases cap jsonl_path.
Proof.
  unfold analyse_full, analyse. destruct events as [|e events]; [done|].
  destruct (paired_of_log (e :: events)) as [paired_list|exc]; [|done]. simpl.
  unfold bash_commands. rewrite count_bash_keys. simpl.
  by destruct (jsonl_path ≫= parse_real_usage fs).
Qed.

(** X17: the report entries add no failure and change no figure: the
    whole analysis fails exactly when the cost analysis fails, with the
    same exception, and otherwise carries the result of the cost
    analysis. *)
Theorem report_entries_add_no_failure (fs : string → file) (events : list event)
    (models : gmap string rate_card) (aliases : gmap string string) (cap : Z)
    (jsonl_path : option string) :
  (∀ exc, analyse_full fs events models aliases cap jsonl_path = Raised exc
          ↔ analyse fs events models aliases cap jsonl_path = Raised exc)
  ∧ (∀ a, analyse fs events models aliases cap jsonl_path = Returned a
          ↔ ∃ d, analyse_full fs events models aliases cap jsonl_path = Returned d
                 ∧ sd_analysis <$> d = a).
Proof.
  pose proof (analyse_full_core fs events models aliases cap jsonl_path) as Hcore.
  destruct (analyse_full fs events models aliases cap jsonl_path) as [d|exc'];
    simpl in Hcore; rewrite <- Hcore; split.
  - intros exc. split; discriminate.
  - intros a. split.
    + intros [= <-]. eauto.
    + by intros (d' & [= <-] & <-).
  - intros exc. split; by intros [= <-].
  - intros a. split; [discriminate|]. by intros (d' & [=] & _).
Qed.




(** ** Suggestions *)

Lemma insert_by_count_perm x l : insert_by_count x l ≡ₚ x :: l.
Proof.
  induction l as [|y l IH]; simpl; [done|].
  destruct (y.2 <=? x.2)%Z; [done|]. rewrite IH. apply Permutation_swap.
Qed.

Lemma by_count_perm c : foldr insert_by_count [] c ≡ₚ c.
Proof.
  induction c as [|x c IH]; simpl; [done|].
  by rewrite insert_by_count_perm, IH.
Qed.

Lemma insert_by_count_sorted x l :
  StronglySorted count_desc l → StronglySorted count_desc (insert_by_count x l).
Proof.
  induction 1 as [|y l Hsorted IH Hall]; simpl; [repeat constructor|].
  destruct (Z.leb_spec (y.2) (x.2)) as [Hle|Hlt].
  - constructor; [by constructor|]. constructor; [done|].
    eapply Forall_impl; [exact Hall|]. unfold count_desc. simpl. lia.
  - constructor; [done|]. rewrite insert_by_count_perm.
    constructor; [unfold count_desc; lia|done].
Qed.

Lemma by_count_sorted c : StronglySorted count_desc (foldr insert_by_count [] c).
Proof.
  induction c as [|x c IH]; simpl; [constructor|].
  by apply insert_by_count_sorted.
Qed.

Lemma omap_repeated_take n l :
  StronglySorted count_desc l →
  omap (fun e => if (2 <? e.2)%Z then Some (command_suggestion e.1 e.2) else None)
       (take n l)
  = take n (omap (fun e => if (2 <? e.2)%Z then Some (command_suggestion e.1 e.2)
                           else None) l).
Proof.
  intros Hsorted. revert n.
  induction Hsorted as [|y l Hsorted IH Hall]; intros n; [by destruct n|].
  destruct n as [|n]; [done|].
  rewrite firstn_cons, !omap_cons_match.
  destruct (Z.ltb_spec 2 (y.2)) as [Hy|Hy]; [by rewrite firstn_cons, IH|].
  assert (Hnone : ∀ k, Forall (fun b => count_desc y b) k →
            omap (fun e => if (2 <? e.2)%Z then Some (command_suggestion e.1 e.2)
                           else None) k = []).
  { intros k Hk. induction Hk as [|b k Hb _ IHk]; [done|].
    rewrite omap_cons_match. unfold count_desc in Hb.
    destruct (Z.ltb_spec 2 (b.2)); [lia|done]. }
  rewrite (Hnone l Hall), (Hnone (take n l)); [by destruct n|].
  by apply Forall_take.
Qed.

Lemma length_omap_repeated l :
  length (omap (fun e => if (2 <? e.2)%Z then Some (command_suggestion e.1 e.2)
                         else None) l)
  = length (List.filter repeated l).
Proof.
  induction l as [|e l IH]; [done|].
  rewrite omap_cons_match. simpl. unfold repeated at 1.
  destruct (2 <? e.2)%Z; simpl; by rewrite IH.
Qed.

Lemma length_filter_perm {A} (f : A → bool) (l k : list A) :
  l ≡ₚ k → length (List.filter f l) = length (List.filter f k).
Proof.
  induction 1 as [|x l k _ IH|x y l|l k m _ IH1 _ IH2]; simpl.
  - done.
  - destruct (f x); simpl; by rewrite IH.
  - by destruct (f x), (f y).
  - by rewrite IH1.
Qed.

Lemma suggested_commands_take commands :
  suggested_commands commands
  = take 3 (omap (fun e => if (2 <? e.2)%Z then Some (command_suggestion e.1 e.2)
                           else None) (foldr insert_by_count [] commands)).
Proof.
  unfold suggested_commands, most_common.
  apply omap_repeated_take, by_count_sorted.
Qed.

Lemma length_suggested_commands commands :
  length (suggested_commands commands)
  = Nat.min 3 (length (List.filter repeated commands)).
Proof.
  rewrite suggested_commands_take, length_take, length_omap_repeated.
  by rewrite (length_filter_perm _ _ _ (by_count_perm commands)).
Qed.

Lemma suggested_commands_elem_of commands s :
  s ∈ suggested_commands commands →
  ∃ e, e ∈ commands ∧ (2 < e.2)%Z ∧ s = command_suggestion e.1 e.2.
Proof.
  unfold suggested_commands, most_common.
  intros (e & He & Hs)%list_elem_of_omap.
  destruct (Z.ltb_spec 2 (e.2)); [|done]. injection Hs as <-.
  exists e. split; [|done].
  apply elem_of_take in He as (i & Hi & _).
  rewrite <- (by_count_perm commands). by eapply list_elem_of_lookup_2.
Qed.

Lemma command_suggestion_head cmd count :
  ∃ t, command_suggestion cmd count = String "Y" t.
Proof. unfold command_suggestion. rewrite append_String. eauto. Qed.

Lemma peak_suggestion_head peak : ∃ t, peak_suggestion peak = String "A" t.
Proof. unfold peak_suggestion. rewrite append_String. eauto. Qed.

Lemma suggested_commands_heads commands :
  Forall (fun s => ∃ t, s = String "Y" t) (suggested_commands commands).
Proof.
  apply Forall_forall. intros s (e & _ & _ & ->)%suggested_commands_elem_of.
  apply command_suggestion_head.
Qed.

Lemma no_repeated_commands (l : list (string * Z)) :
  length (List.filter repeated l) = 0 ↔ Forall (fun e => (e.2 ≤ 2)%Z) l.
Proof.
  induction l as [|e l IH]; simpl; [by split; [constructor|]|].
  unfold repeated at 1. destruct (Z.ltb_spec 2 (e.2)) as [He|He]; simpl.
  - split; [done|]. intros [Hle _]%Forall_cons. lia.
  - rewrite IH, Forall_cons. tauto.
Qed.

Lemma suggestions_found commands peak_tokens :
  suggestions commands peak_tokens
  = match take 3 (suggested_commands commands)
            ++ take (3 - length (suggested_commands commands))
                 (if (50000 <? peak_tokens)%Z then [peak_suggestion peak_tokens]
                  else [])
    with
    | [] => [NO_SUGGESTION]
    | first3 => first3
    end.
Proof. unfold suggestions. by rewrite take_app. Qed.

Lemma take_all_short {A} (l : list A) n : length l ≤ n → take n l = l.
Proof. apply take_ge. Qed.

(** X19: there are always between one and three suggestions: one per
    command run more than twice plus one for a peak context above 50000
    tokens, cut to three. The fallback text is the only suggestion exactly
    when no command was run more than twice and the peak is at most
    50000. *)
Theorem suggestions_count_and_fallback (commands : list (string * Z))
    (peak_tokens : Z) :
  length (suggestions commands peak_tokens)
  = Nat.max 1 (Nat.min 3 (length (List.filter repeated commands)
                          + (if (50000 <? peak_tokens)%Z then 1 else 0)))
  ∧ (suggestions commands peak_tokens = [NO_SUGGESTION]
     ↔ Forall (fun e => (e.2 ≤ 2)%Z) commands ∧ (peak_tokens ≤ 50000)%Z).
Proof.
  rewrite suggestions_found.
  pose proof (length_suggested_commands commands) as Hlen.
  pose proof (suggested_commands_heads commands) as Hheads.
  rewrite <- no_repeated_commands.
  rewrite (take_all_short (suggested_commands commands) 3) by lia.
  destruct (suggested_commands commands) as [|s rest] eqn:Hs.
  - cbn [length] in Hlen. cbn [app length]. rewrite Nat.sub_0_r.
    destruct (Z.ltb_spec 50000 peak_tokens) as [Hpeak|Hpeak]; cbn [take length].
    + split; [lia|]. split; [|lia].
      destruct (peak_suggestion_head peak_tokens) as [t ->]. discriminate.
    + split; [lia|]. split; [|done]. intros _. split; [lia|done].
  - rewrite <- app_comm_cons. split.
    + cbn [length] in *. rewrite length_app, length_take.
      destruct (Z.ltb_spec 50000 peak_tokens); cbn [length]; lia.
    + apply Forall_cons in Hheads as [[t ->] _]. split; [discriminate|].
      cbn [length] in Hlen. lia.
Qed.

(** X20: the suggestion to split the session appears exactly when the
    peak context is above 50000 tokens and fewer than three commands were
    run more than twice; three such commands crowd it out. *)
Theorem peak_suggestion_crowded_out (commands : list (string * Z))
    (peak_tokens : Z) :
  peak_suggestion peak_tokens ∈ suggestions commands peak_tokens
  ↔ (50000 < peak_tokens)%Z ∧ length (List.filter repeated commands) < 3.
Proof.
  rewrite suggestions_found.
  pose proof (length_suggested_commands commands) as Hlen.
  pose proof (suggested_commands_heads commands) as Hheads.
  rewrite (take_all_short (suggested_commands commands) 3) by lia.
  destruct (peak_suggestion_head peak_tokens) as [t Ht].
  assert (Hnot : peak_suggestion peak_tokens ∉ suggested_commands commands).
  { intros Hin. rewrite Forall_forall in Hheads.
    destruct (Hheads _ Hin) as [t' Ht']. congruence. }
  split.
  - intros Hin.
    assert (Hextra : peak_suggestion peak_tokens
                     ∈ take (3 - length (suggested_commands commands))
                         (if (50000 <? peak_tokens)%Z
                          then [peak_suggestion peak_tokens] else [])).
    { destruct (suggested_commands commands ++ _) as [|x l] eqn:Hfound.
      - apply list_elem_of_singleton in Hin. unfold NO_SUGGESTION in Hin.
        rewrite Ht in Hin. discriminate.
      - rewrite <- Hfound in Hin. apply elem_of_app in Hin as [Hin|Hin]; done. }
    destruct (Z.ltb_spec 50000 peak_tokens) as [Hpeak|Hpeak];
      [|rewrite take_nil in Hextra; by apply elem_of_nil in Hextra].
    split; [done|].
    destruct (3 - length (suggested_commands commands)) eqn:Hroom;
      [by apply elem_of_nil in Hextra|]. lia.
  - intros [Hpeak Hfew].
    destruct (Z.ltb_spec 50000 peak_tokens); [|lia].
    destruct (3 - length (suggested_commands commands)) eqn:Hroom; [lia|].
    simpl.
    destruct (suggested_commands commands ++ _) as [|x l] eqn:Hfound;
      [by destruct (suggested_commands commands)|].
    rewrite <- Hfound. apply elem_of_app. right. left.
Qed.

Lemma peak_suggestion_crowded_out_witness :
  peak_suggestion 60000 ∈ suggestions [("git", 3%Z); ("ls", 5%Z)] 60000.
Proof.
  apply (peak_suggestion_crowded_out [("git", 3%Z); ("ls", 5%Z)] 60000).
  split; [reflexivity|simpl; lia].
Defined.

(** X21: every suggestion is the fallback text, the suggestion to split
    the session, or names a counted command that was run more than twice;
    and when at most three commands were run more than twice, each of them
    is named. *)
Theorem command_suggestions_name_repeated (commands : list (string * Z))
    (peak_tokens : Z) :
  (∀ s, s ∈ suggestions commands peak_tokens →
        s = NO_SUGGESTION ∨ s = peak_suggestion peak_tokens
        ∨ ∃ e, e ∈ commands ∧ (2 < e.2)%Z ∧ s = command_suggestion e.1 e.2)
  ∧ (length (List.filter repeated commands) ≤ 3 →
     ∀ e, e ∈ commands → (2 < e.2)%Z →
          command_suggestion e.1 e.2 ∈ suggestions commands peak_tokens).
Proof.
  rewrite suggestions_found.
  pose proof (length_suggested_commands commands) as Hlen.
  rewrite (take_all_short (suggested_commands commands) 3) by lia.
  split.
  - intros s Hs.
    destruct (suggested_commands commands ++ _) as [|x l] eqn:Hfound.
    + left. by apply list_elem_of_singleton in Hs.
    + rewrite <- Hfound in Hs. apply elem_of_app in Hs as [Hs|Hs].
      * right. right. by apply suggested_commands_elem_of.
      * right. left. destruct (50000 <? peak_tokens)%Z.
        -- apply elem_of_take in Hs as (i & Hi & _).
           apply list_elem_of_lookup_2 in Hi. by apply list_elem_of_singleton in Hi.
        -- rewrite take_nil in Hs. by apply elem_of_nil in Hs.
  - intros Hfew e He Hrep.
    assert (Hin : command_suggestion e.1 e.2 ∈ suggested_commands commands).
    { rewrite suggested_commands_take, take_all_short.
      - apply list_elem_of_omap. exists e. split.
        + by rewrite (by_count_perm commands).
        + by destruct (Z.ltb_spec 2 (e.2)); [|lia].
      - rewrite length_omap_repeated.
        by rewrite (length_filter_perm _ _ _ (by_count_perm commands)). }
    destruct (suggested_commands commands ++ _) as [|x l] eqn:Hfound.
    + destruct (suggested_commands commands); [by apply elem_of_nil in Hin|done].
    + rewrite <- Hfound. apply elem_of_app. by left.
Qed.

Lemma command_suggestions_name_repeated_witness :
  command_suggestion "ls" 5 ∈ suggestions [("git", 3%Z); ("ls", 5%Z)] 60000.
Proof.
  apply (proj2 (command_suggestions_name_repeated [("git", 3%Z); ("ls", 5%Z)] 60000)
            ltac:(simpl; lia) ("ls", 5%Z)); [|simpl; lia].
  right. left.
Defined.

(** ** Transcript lookup *)

Lemma first_candidate_spec root sid entries path :
  first_candidate root sid entries = Some path ↔
  ∃ before name files after,
    entries = before ++ ProjectDir name files :: after
    ∧ Forall (passed_over sid) before
    ∧ sid +:+ ".jsonl" ∈ files
    ∧ path = candidate_path root name sid.
Proof.
  induction entries as [|entry entries IH].
  - simpl. split; [done|]. intros (before & ? & ? & ? & Heq & _).
    by destruct before.
  - assert (Hskip : passed_over sid entry →
              (∃ before name files after,
                 entry :: entries = before ++ ProjectDir name files :: after
                 ∧ Forall (passed_over sid) before
                 ∧ sid +:+ ".jsonl" ∈ files
                 ∧ path = candidate_path root name sid)
              ↔ first_candidate root sid entries = Some path).
    { intros Hentry. rewrite IH. split.
      - intros (before & name & files & after & Heq & Hbefore & Hin & ->).
        destruct before as [|b before].
        + injection Heq as -> <-. done.
        + injection Heq as <- ->. apply Forall_cons in Hbefore as [_ Hbefore].
          by exists before, name, files, after.
      - intros (before & name & files & after & -> & Hbefore & Hin & ->).
        exists (entry :: before), name, files, after.
        split; [done|]. split; [by constructor|done]. }
    destruct entry as [name files| |]; cbn [first_candidate].
    + case_bool_decide as Hin; [|by rewrite Hskip].
      split.
      * intros [= <-]. by exists [], name, files, entries.
      * intros (before & name' & files' & after & Heq & Hbefore & Hin' & ->).
        destruct before as [|b before].
        -- by injection Heq as <- <- <-.
        -- injection Heq as <- ->. by apply Forall_cons in Hbefore as [? _].
    + by rewrite Hskip.
    + split; [done|].
      intros (before & name' & files' & after & Heq & Hbefore & _).
      destruct before as [|b before]; [done|].
      injection Heq as <- ->. by apply Forall_cons in Hbefore as [? _].
Qed.

(** X22: the transcript lookup gives a path exactly when the session
    identifier is neither missing, empty nor ["unknown"], the projects
    directory exists, and a project directory holds the session's file
    with nothing before it but entries the search passes over; the path is
    the one in the first such directory. An error while listing ends the
    search without a path. *)
Theorem transcript_lookup_first_project (root : string)
    (projects : option (list project_entry)) (session_id : option string)
    (path : string) :
  find_claude_session_jsonl root projects session_id = Some path ↔
  ∃ sid entries before name files after,
    session_id = Some sid ∧ sid ≠ "" ∧ sid ≠ "unknown"
    ∧ projects = Some entries
    ∧ entries = before ++ ProjectDir name files :: after
    ∧ Forall (passed_over sid) before
    ∧ sid +:+ ".jsonl" ∈ files
    ∧ path = candidate_path root name sid.
Proof.
  unfold find_claude_session_jsonl. split.
  - destruct session_id as [sid|]; [|done].
    destruct (String.eqb_spec sid ""); [done|].
    destruct (String.eqb_spec sid "unknown"); [done|]. simpl.
    destruct projects as [entries|]; [|done].
    intros (before & name & files & after & ? & ? & ? & ?)%first_candidate_spec.
    by exists sid, entries, before, name, files, after.
  - intros (sid & entries & before & name & files & after
            & -> & Hne & Hunk & -> & Heq & Hbefore & Hin & Hpath).
    destruct (String.eqb_spec sid ""); [done|].
    destruct (String.eqb_spec sid "unknown"); [done|]. simpl.
    apply first_candidate_spec. by exists before, name, files, after.
Qed.

Lemma transcript_lookup_first_project_witness :
  find_claude_session_jsonl "/projects"
    (Some [NotADir "notes.txt"; ProjectDir "a" ∅; ProjectDir "p" {["s1.jsonl"]};
           IterError])
    (Some "s1")
  = Some "/projects/p/s1.jsonl".
Proof.
  apply (transcript_lookup_first_project "/projects").
  exists "s1", [NotADir "notes.txt"; ProjectDir "a" ∅; ProjectDir "p" {["s1.jsonl"]};
                IterError],
    [NotADir "notes.txt"; ProjectDir "a" ∅], "p", {["s1.jsonl"]}, [IterError].
  split; [reflexivity|]. split; [discriminate|]. split; [discriminate|].
  split; [reflexivity|]. split; [reflexivity|].
  split; [repeat constructor; simpl; apply not_elem_of_empty|].
  split; [by apply elem_of_singleton|reflexivity].
Defined.

Lemma analyse_full_estimated fs events models aliases cap d :
  analyse_full fs events models aliases cap None = Returned (Some d) →
  using_real_data (sd_analysis d) = false
  ∧ api_calls (sd_analysis d) = tool_calls (sd_analysis d).
Proof.
  intros Hfull.
  pose proof (analyse_full_core fs events models aliases cap None) as Hcore.
  rewrite Hfull in Hcore. simpl in Hcore. symmetry in Hcore.
  by apply analyse_returned in Hcore as (pool & pgs & _ & ->).
Qed.

(** X23: without a usable session identifier (none in the payload, so
    ["unknown"], or an empty one) or without a projects directory, the
    analysis at the end of a task is the estimate: it is never flagged as
    authoritative, and its API calls are the tool calls. *)
Theorem no_transcript_means_estimate (env : environment) (session_id : string)
    (events : list event) (d : session_data) :
  session_id = "unknown" ∨ session_id = "" ∨ env_projects env = None →
  stop_analysis env session_id events = Returned (Some d) →
  using_real_data (sd_analysis d) = false
  ∧ api_calls (sd_analysis d) = tool_calls (sd_analysis d).
Proof.
  intros Hcase. unfold stop_analysis.
  destruct (load_pricing (env_pricing_file env)) as [[models aliases] cap].
  assert (Hnone : find_claude_session_jsonl (env_projects_root env)
                    (env_projects env) (Some session_id) = None).
  { unfold find_claude_session_jsonl.
    destruct Hcase as [->|[->|Hdir]]; [done|done|].
    rewrite Hdir. by destruct (_ || _). }
  rewrite Hnone. apply analyse_full_estimated.
Qed.

Lemma no_transcript_means_estimate_witness :
  ∃ d, stop_analysis
         {| env_fs := sample_fs; env_projects_root := "/projects";
            env_projects := Some [ProjectDir "p" {["unknown.jsonl"]}];
            env_pricing_file := None; env_sessions_dir := "/sessions" |}
         "unknown" overlapping_log = Returned (Some d)
       ∧ using_real_data (sd_analysis d) = false.
Proof.
  destruct (stop_analysis _ "unknown" overlapping_log) as [[d|]|] eqn:Hd;
    [|by vm_compute in Hd..].
  exists d. split; [done|].
  exact (proj1 (no_transcript_means_estimate _ "unknown" overlapping_log d
                  (or_introl eq_refl) Hd)).
Defined.

(** ** Session log and archival *)

Lemma file_lines_nonempty s : file_lines s ≠ [].
Proof.
  destruct s as [|c s]; simpl; [done|].
  destruct (is_newline c); [done|]. by destruct (file_lines s).
Qed.

Lemma file_lines_terminator a nl b :
  is_newline nl = true →
  file_lines (a +:+ String nl b) = file_lines a ++ file_lines b.
Proof.
  intros Hnl. induction a as [|c a IH]; rewrite ?append_String; cbn [file_lines].
  - change ("" +:+ String nl b) with (String nl b). cbn [file_lines].
    by rewrite Hnl.
  - rewrite IH. destruct (is_newline c); [done|].
    pose proof (file_lines_nonempty a). by destruct (file_lines a).
Qed.

Lemma file_lines_one_line s : one_line s → file_lines s = [s].
Proof.
  unfold one_line. induction s as [|c s IH]; simpl; [done|].
  intros [Hc Hs]%andb_prop. apply negb_true_iff in Hc. by rewrite Hc, IH.
Qed.

Lemma one_line_app a b : one_line a → one_line b → one_line (a +:+ b).
Proof.
  unfold one_line. induction a as [|c a IH]; [done|].
  rewrite append_String. simpl. intros [Hc Ha]%andb_prop Hb.
  rewrite Hc. simpl. auto.
Qed.

Lemma file_lines_appended text s :
  complete_lines text → one_line s →
  ∃ before, file_lines text = before ++ [""]
            ∧ file_lines (text +:+ s +:+ newline) = before ++ [s; ""].
Proof.
  intros [->|(start & nl & -> & Hnl)] Hs.
  - exists []. split; [done|].
    change ("" +:+ s +:+ newline) with (s +:+ newline).
    unfold newline. rewrite file_lines_terminator by done.
    by rewrite file_lines_one_line.
  - exists (file_lines start). split; [by rewrite file_lines_terminator|].
    rewrite append_assoc_str, append_String.
    change ("" +:+ s +:+ newline) with (s +:+ newline).
    rewrite file_lines_terminator by done.
    unfold newline. rewrite file_lines_terminator by done.
    by rewrite (file_lines_one_line s).
Qed.

Section log_text.
Context (dumps : event → string) (loads : string → option event).

Lemma read_events_text_snoc before ln :
  omap parsed_event (parse_line loads <$> before ++ [ln; ""])
  = omap parsed_event (parse_line loads <$> before ++ [""])
    ++ omap parsed_event [parse_line loads ln].
Proof.
  rewrite !fmap_app, !omap_app.
  change (parse_line loads <$> [ln; ""])
    with ([parse_line loads ln] ++ (parse_line loads <$> [""])).
  rewrite omap_app. change (omap parsed_event (parse_line loads <$> [""])) with (@nil event).
  by rewrite !app_nil_r.
Qed.

(** X24: when every line of the session file is terminated (or the file
    is empty or missing), an appended event is read back as the last
    event, after the events read before; this needs of [json.dumps] that
    its text is one line, not blank and unchanged by [strip], and of
    [json.loads] that it gives the event back. When the last line is not
    terminated, the text of the event is glued to it: the glued line is
    read as one line, so the event is read back only if that line parses
    to it. *)
Theorem append_then_read (content : option string) (e : event) :
  one_line (dumps e) →
  (∀ text, content = Some text → complete_lines text) →
  (strip (dumps e) = dumps e → dumps e ≠ "" → loads (dumps e) = Some e →
   read_events_text loads (Some (append_event dumps content e))
   = read_events_text loads content ++ [e])
  ∧ (∀ partial, one_line partial →
       read_events_text loads
         (Some (append_event dumps (Some (default "" content +:+ partial)) e))
       = read_events_text loads (Some (default "" content))
         ++ omap parsed_event [parse_line loads (partial +:+ dumps e)]).
Proof.
  intros Hline Hcomplete.
  assert (Htext : complete_lines (default "" content)).
  { destruct content as [text|]; [by apply Hcomplete|by left]. }
  split.
  - intros Hstrip Hne Hloads. unfold append_event, read_events_text, log_lines.
    destruct (file_lines_appended _ (dumps e) Htext Hline) as (before & Hold & ->).
    rewrite read_events_text_snoc.
    assert (Hlast : omap parsed_event [parse_line loads (dumps e)] = [e]).
    { unfold parse_line. rewrite Hstrip.
      destruct (String.eqb_spec (dumps e) ""); [done|]. by rewrite Hloads. }
    rewrite Hlast. f_equal.
    destruct content as [text|]; simpl in Hold; [by rewrite Hold|].
    destruct before as [|x [|y before]]; [done|done|by destruct before].
  - intros partial Hpartial. unfold append_event, read_events_text, log_lines.
    cbn [default from_option id]. rewrite (append_assoc_str _ partial).
    destruct (file_lines_appended _ (partial +:+ dumps e) Htext
                (one_line_app _ _ Hpartial Hline)) as (before & -> & Hnew).
    rewrite (append_assoc_str partial) in Hnew. rewrite Hnew.
    apply read_events_text_snoc.
Qed.
End log_text.

Lemma append_then_read_witness :
  read_events_text (fun s => if String.eqb s "{}" then Some (sample_pre "Bash" 1 7) else None)
    (Some (append_event (fun _ => "{}") None (sample_pre "Bash" 1 7)))
  = [sample_pre "Bash" 1 7].
Proof.
  apply (proj1 (append_then_read (fun _ => "{}")
                  (fun s => if String.eqb s "{}" then Some (sample_pre "Bash" 1 7) else None)
                  None (sample_pre "Bash" 1 7) eq_refl ltac:(discriminate)));
    [reflexivity|discriminate|reflexivity].
Defined.

Lemma stop_analysis_empty env session_id :
  stop_analysis env session_id [] = Returned None.
Proof.
  unfold stop_analysis.
  by destruct (load_pricing (env_pricing_file env)) as [[models aliases] cap].
Qed.

Lemma stop_analysis_some env session_id events d :
  stop_analysis env session_id events = Returned d → events ≠ [] →
  ∃ data, d = Some data
          ∧ tool_calls (sd_analysis data) = length (pre_events events).
Proof.
  unfold stop_analysis.
  destruct (load_pricing (env_pricing_file env)) as [[models aliases] cap].
  intros Hfull Hne.
  pose proof (analyse_full_core (env_fs env) events models aliases cap
                (find_claude_session_jsonl (env_projects_root env)
                   (env_projects env) (Some session_id))) as Hcore.
  rewrite Hfull in Hcore. simpl in Hcore. symmetry in Hcore.
  destruct d as [data|].
  - exists data. split; [done|]. simpl in Hcore.
    apply analyse_returned in Hcore as (pool & pgs & Hrun & ->).
    pose proof (pair_events_spec _ _ _ Hrun) as (Hpres & _ & _).
    rewrite <- Hpres.
    destruct (_ ≫= parse_real_usage (env_fs env));
      cbn [tool_calls analyse_real analyse_estimated]; by rewrite !length_fmap.
  - unfold analyse, paired_of_log in Hcore. destruct events as [|e events]; [done|].
    destruct (pair_events (e :: events)) as [[pool pgs]|]; [|done]. simpl in Hcore.
    by destruct (_ ≫= parse_real_usage (env_fs env)).
Qed.

(** X25: when the end of a task finds events in the session's log and
    the analysis succeeds, the log leaves the active logs, its lines are
    kept unchanged in the archive under the time of the stop, the other
    active logs stay, and history grows by exactly one record, which
    names the session and the archive and counts its tool calls. *)
Theorem stop_archives_session (env : environment) (ts_str date session_id : string)
    (lines : list log_line) (st st' : store) :
  st_active st !! session_id = Some lines →
  omap parsed_event lines ≠ [] →
  mode_stop_store env ts_str date (Some session_id) st = Returned st' →
  st_active st' = delete session_id (st_active st)
  ∧ st_archive st' = <[ts_str +:+ ".jsonl" := lines]> (st_archive st)
  ∧ ∃ record,
      st_history st' = st_history st ++ [record]
      ∧ h_session_id record = session_id
      ∧ h_date record = date
      ∧ h_archive record = env_sessions_dir env +:+ "/" +:+ ts_str +:+ ".jsonl"
      ∧ h_tool_calls record = length (pre_events (omap parsed_event lines)).
Proof.
  intros Hlog Hevents. unfold mode_stop_store. simpl.
  assert (Hread : read_events st session_id = omap parsed_event lines)
    by (unfold read_events; by rewrite Hlog).
  rewrite Hread.
  destruct (stop_analysis env session_id (omap parsed_event lines)) as [d|] eqn:Hd;
    [|done].
  destruct (stop_analysis_some _ _ _ _ Hd Hevents) as (data & -> & Hcalls).
  simpl. intros [= <-]. unfold archive_session.
  destruct (omap parsed_event lines) as [|e events]; [done|].
  rewrite Hlog. simpl. split; [done|]. split; [done|].
  eexists. split; [reflexivity|]. simpl. by rewrite Hcalls.
Qed.

Lemma stop_archives_session_witness :
  ∃ st',
    mode_stop_store
      {| env_fs := sample_fs; env_projects_root := "/projects";
         env_projects := None; env_pricing_file := None;
         env_sessions_dir := "/sessions" |}
      "2026-01-01-10-00-00" "2026-01-01T10:00:00" (Some "s1")
      {| st_active := {["s1" := LogBlank :: (LogEvent <$> overlapping_log)]};
         st_archive := ∅; st_history := [] |}
    = Returned st'
    ∧ st_active st' = delete "s1" {["s1" := LogBlank :: (LogEvent <$> overlapping_log)]}
    ∧ length (st_history st') = 1.
Proof.
  destruct (mode_stop_store _ "2026-01-01-10-00-00" "2026-01-01T10:00:00" (Some "s1")
              {| st_active := {["s1" := LogBlank :: (LogEvent <$> overlapping_log)]};
                 st_archive := ∅; st_history := [] |}) as [st'|] eqn:Hstop;
    [|by vm_compute in Hstop].
  exists st'. split; [done|].
  assert (Hevents : omap parsed_event (LogBlank :: (LogEvent <$> overlapping_log)) ≠ [])
    by discriminate.
  destruct (stop_archives_session _ _ _ "s1" _ _ _
              (lookup_singleton_eq _ _) Hevents Hstop)
    as (Hactive & _ & record & Hhistory & _).
  split; [exact Hactive|]. by rewrite Hhistory.
Defined.

(** X26: ending a task is idempotent on the sessions directory: a second
    stop of the same session, at whatever time, changes nothing; and a stop
    that finds no events changes nothing. *)
Theorem stop_is_idempotent (env : environment) (ts_str date ts_str' date' : string)
    (payload_session_id : option string) (st st' : store) :
  mode_stop_store env ts_str date payload_session_id st = Returned st' →
  mode_stop_store env ts_str' date' payload_session_id st' = Returned st'
  ∧ (read_events st (default "unknown" payload_session_id) = [] → st' = st).
Proof.
  unfold mode_stop_store.
  set (session_id := default "unknown" payload_session_id).
  assert (Hnone : ∀ s : store, read_events s session_id = [] →
            ∀ t dt, (stop_analysis env session_id (read_events s session_id)
                     ≫= fun data =>
                          mret (archive_session (env_sessions_dir env) t dt session_id
                                  (read_events s session_id) data s))
                    = Returned s).
  { intros s Hs t dt. by rewrite Hs, stop_analysis_empty. }
  destruct (read_events st session_id) as [|e events] eqn:Hread.
  - rewrite stop_analysis_empty. simpl. intros [= <-].
    split; [|done]. by apply Hnone.
  - destruct (stop_analysis env session_id (e :: events)) as [d|]; [|done].
    simpl. intros [= <-]. split; [|done]. apply Hnone.
    unfold read_events in *.
    destruct (st_active st !! session_id) as [lines|] eqn:Hlog; [|done].
    simpl. by rewrite lookup_delete_eq.
Qed.

Lemma stop_is_idempotent_witness :
  ∃ st',
    mode_stop_store
      {| env_fs := sample_fs; env_projects_root := "/projects";
         env_projects := None; env_pricing_file := None;
         env_sessions_dir := "/sessions" |}
      "2026-01-01-10-00-01" "2026-01-01T10:00:01" (Some "s1") st'
    = Returned st'
    ∧ length (st_history st') = 1.
Proof.
  destruct (mode_stop_store
              {| env_fs := sample_fs; env_projects_root := "/projects";
                 env_projects := None; env_pricing_file := None;
                 env_sessions_dir := "/sessions" |}
              "2026-01-01-10-00-00" "2026-01-01T10:00:00" (Some "s1")
              {| st_active := {["s1" := LogEvent <$> overlapping_log]};
                 st_archive := ∅; st_history := [] |}) as [st'|] eqn:Hstop;
    [|by vm_compute in Hstop].
  exists st'. split.
  - exact (proj1 (stop_is_idempotent _ _ _ "2026-01-01-10-00-01" "2026-01-01T10:00:01"
                    _ _ _ Hstop)).
  - vm_compute in Hstop. by injection Hstop as <-.
Defined.

Lemma mode_stop_store_archived env ts_str date session_id lines st st' :
  st_active st !! session_id = Some lines →
  omap parsed_event lines ≠ [] →
  mode_stop_store env ts_str date (Some session_id) st = Returned st' →
  ∃ record,
    h_session_id record = session_id
    ∧ h_archive record = env_sessions_dir env +:+ "/" +:+ ts_str +:+ ".jsonl"
    ∧ st' = {| st_active := delete session_id (st_active st);
               st_archive := <[ts_str +:+ ".jsonl" := lines]> (st_archive st);
               st_history := st_history st ++ [record] |}.
Proof.
  intros Hlog Hevents. unfold mode_stop_store. simpl.
  assert (Hread : read_events st session_id = omap parsed_event lines)
    by (unfold read_events; by rewrite Hlog).
  rewrite Hread.
  destruct (stop_analysis env session_id (omap parsed_event lines)) as [d|]; [|done].
  simpl. intros [= <-]. unfold archive_session.
  destruct (omap parsed_event lines) as [|e events]; [done|].
  rewrite Hlog. eexists. split; [|split; [|reflexivity]]; done.
Qed.

(** X27: the archive is named after the time of the stop to the second,
    so two sessions that end within the same second share one archive
    file: the log of the second session replaces the archived log of the
    first, which is no longer among the active logs either, and both
    history records name the same archive. *)
Theorem same_second_stops_share_archive (env : environment)
    (ts_str date1 date2 session1 session2 : string)
    (lines1 lines2 : list log_line) (st st1 st2 : store) :
  session1 ≠ session2 →
  st_active st !! session1 = Some lines1 → omap parsed_event lines1 ≠ [] →
  st_active st !! session2 = Some lines2 → omap parsed_event lines2 ≠ [] →
  mode_stop_store env ts_str date1 (Some session1) st = Returned st1 →
  mode_stop_store env ts_str date2 (Some session2) st1 = Returned st2 →
  st_archive st2 = <[ts_str +:+ ".jsonl" := lines2]> (st_archive st)
  ∧ st_active st2 !! session1 = None
  ∧ st_active st2 !! session2 = None
  ∧ ∃ record1 record2,
      st_history st2 = st_history st ++ [record1; record2]
      ∧ h_session_id record1 = session1 ∧ h_session_id record2 = session2
      ∧ h_archive record1 = h_archive record2.
Proof.
  intros Hne Hlog1 Hev1 Hlog2 Hev2 Hstop1 Hstop2.
  destruct (mode_stop_store_archived _ _ _ _ _ _ _ Hlog1 Hev1 Hstop1)
    as (record1 & Hs1 & Ha1 & ->).
  assert (Hlog2' : st_active
                     {| st_active := delete session1 (st_active st);
                        st_archive := <[ts_str +:+ ".jsonl" := lines1]> (st_archive st);
                        st_history := st_history st ++ [record1] |} !! session2
                   = Some lines2)
    by (simpl; by rewrite lookup_delete_ne).
  destruct (mode_stop_store_archived _ _ _ _ _ _ _ Hlog2' Hev2 Hstop2)
    as (record2 & Hs2 & Ha2 & ->).
  simpl. split; [by rewrite insert_insert_eq|].
  split; [by rewrite lookup_delete_ne, lookup_delete_eq|].
  split; [by rewrite lookup_delete_eq|].
  exists record1, record2. rewrite <- app_assoc. simpl.
  split; [done|]. split; [done|]. split; [done|]. by rewrite Ha1, Ha2.
Qed.

Lemma same_second_stops_share_archive_witness :
  ∃ st1 st2,
    mode_stop_store
      {| env_fs := sample_fs; env_projects_root := "/projects";
         env_projects := None; env_pricing_file := None;
         env_sessions_dir := "/sessions" |}
      "2026-01-01-10-00-00" "2026-01-01T10:00:00.1" (Some "s1")
      {| st_active := {["s1" := [LogEvent (sample_pre "Read" 0 100)];
                        "s2" := [LogEvent (sample_pre "Bash" 5 7)]]};
         st_archive := ∅; st_history := [] |} = Returned st1
    ∧ mode_stop_store
        {| env_fs := sample_fs; env_projects_root := "/projects";
           env_projects := None; env_pricing_file := None;
           env_sessions_dir := "/sessions" |}
        "2026-01-01-10-00-00" "2026-01-01T10:00:00.7" (Some "s2") st1 = Returned st2
    ∧ st_archive st2
      = <["2026-01-01-10-00-00.jsonl" := [LogEvent (sample_pre "Bash" 5 7)]]> ∅.
Proof.
  set (env := {| env_fs := sample_fs; env_projects_root := "/projects";
                 env_projects := None; env_pricing_file := None;
                 env_sessions_dir := "/sessions" |}).
  set (st := {| st_active := {["s1" := [LogEvent (sample_pre "Read" 0 100)];
                               "s2" := [LogEvent (sample_pre "Bash" 5 7)]]};
                st_archive := ∅; st_history := [] |}).
  destruct (mode_stop_store env "2026-01-01-10-00-00" "2026-01-01T10:00:00.1"
              (Some "s1") st) as [st1|] eqn:Hstop1; [|by vm_compute in Hstop1].
  destruct (mode_stop_store env "2026-01-01-10-00-00" "2026-01-01T10:00:00.7"
              (Some "s2") st1) as [st2|] eqn:Hstop2.
  - exists st1, st2. split; [done|]. split; [done|].
    assert (Hlog1 : st_active st !! "s1" = Some [LogEvent (sample_pre "Read" 0 100)])
      by reflexivity.
    assert (Hlog2 : st_active st !! "s2" = Some [LogEvent (sample_pre "Bash" 5 7)])
      by reflexivity.
    exact (proj1 (same_second_stops_share_archive env _ _ _ "s1" "s2" _ _ st st1 st2
                    ltac:(discriminate) Hlog1 ltac:(discriminate)
                    Hlog2 ltac:(discriminate) Hstop1 Hstop2)).
  - vm_compute in Hstop1. injection Hstop1 as <-. by vm_compute in Hstop2.
Defined.

(** ** The record written to history *)

Lemma round_half_even_close x :
  (x - (1 # 2) <= inject_Z (round_half_even x) <= x + (1 # 2))%Q.
Proof.
  unfold round_half_even.
  pose proof (Qfloor_le x) as Hle. pose proof (Qlt_floor x) as Hlt.
  rewrite inject_Z_plus in Hlt. change (inject_Z 1) with 1%Q in Hlt.
  destruct (2 * (x - inject_Z (Qfloor x)) ?= 1)%Q eqn:Hcmp.
  - apply Qeq_alt in Hcmp.
    destruct (Z.even (Qfloor x)); rewrite ?inject_Z_plus;
      change (inject_Z 1) with 1%Q; lra.
  - apply Qlt_alt in Hcmp. lra.
  - apply Qgt_alt in Hcmp. rewrite inject_Z_plus. change (inject_Z 1) with 1%Q. lra.
Qed.

Lemma round_6_close x :
  (x - (1 # 2000000) <= round_6 x <= x + (1 # 2000000))%Q.
Proof.
  unfold round_6. pose proof (round_half_even_close (x * 1000000)) as H.
  set (r := inject_Z (round_half_even (x * 1000000))) in *.
  unfold Qdiv. change (/ 1000000)%Q with (1 # 1000000)%Q. lra.
Qed.

Lemma int_of_Q_floor x :
  (0 <= x)%Q → (inject_Z (int_of_Q x) <= x < inject_Z (int_of_Q x) + 1)%Q
               ∧ (0 ≤ int_of_Q x)%Z.
Proof.
  intros Hx. unfold int_of_Q.
  assert (Hnum : (0 ≤ Qnum x)%Z).
  { unfold Qle in Hx. simpl in Hx. lia. }
  rewrite Z.quot_div_nonneg by lia.
  pose proof (Qfloor_le x) as Hle. pose proof (Qlt_floor x) as Hlt.
  rewrite inject_Z_plus in Hlt. change (inject_Z 1) with 1%Q in Hlt.
  destruct x as [n den]. cbn [Qnum Qden Qfloor] in *.
  split; [split; [done|done]|]. apply Z.div_pos; lia.
Qed.

(** X28: the record of a session in history gives the duration in whole
    milliseconds, rounded down and never negative, the cost within half a
    millionth of a dollar of the analysed cost, and the peak, the tool
    calls, the API calls and the data flag of the analysis unchanged. *)
Theorem history_record_figures (fs : string → file) (events : list event)
    (models : gmap string rate_card) (aliases : gmap string string) (cap : Z)
    (jsonl_path : option string) (d : session_data)
    (date archive session_id : string) :
  analyse_full fs events models aliases cap jsonl_path = Returned (Some d) →
  let record := history_of date archive session_id (Some d) in
  (0 ≤ h_duration_ms record)%Z
  ∧ (inject_Z (h_duration_ms record) <= duration_s events * 1000
     < inject_Z (h_duration_ms record) + 1)%Q
  ∧ (total_cost (sd_analysis d) - (1 # 2000000) <= h_total_cost record
     <= total_cost (sd_analysis d) + (1 # 2000000))%Q
  ∧ h_peak_tokens record = peak_tokens (sd_analysis d)
  ∧ h_tool_calls record = tool_calls (sd_analysis d)
  ∧ h_api_calls record = api_calls (sd_analysis d)
  ∧ h_using_real_data record = using_real_data (sd_analysis d).
Proof.
  intros Hfull record.
  assert (Hduration : sd_duration_s d = duration_s events).
  { unfold analyse_full in Hfull. destruct events as [|e events]; [done|].
    set (core := analyse fs (e :: events) models aliases cap jsonl_path) in Hfull.
    destruct (paired_of_log (e :: events)) as [paired_list|]; [|done].
    cbn [mbind outcome_bind] in Hfull.
    destruct (bash_commands paired_list); [|done].
    destruct core as [[core|]|]; [|done|done].
    by injection Hfull as <-. }
  assert (Hnonneg : (0 <= duration_s events * 1000)%Q).
  { pose proof (duration_s_nonneg events). lra. }
  destruct (int_of_Q_floor _ Hnonneg) as [Hfloor Hpos].
  subst record. unfold history_of. simpl. rewrite Hduration.
  split; [done|]. split; [done|]. split; [apply round_6_close|done].
Qed.

Lemma history_record_figures_witness :
  ∃ d, analyse_full sample_fs overlapping_log sample_models sample_aliases
         CONTEXT_CAP None = Returned (Some d)
       ∧ h_duration_ms (history_of "2026-01-01T10:00:00" "/sessions/a.jsonl" "s1" (Some d))
         = 2000%Z.
Proof.
  destruct (analyse_full sample_fs overlapping_log sample_models sample_aliases
              CONTEXT_CAP None) as [[d|]|] eqn:Hd; [|by vm_compute in Hd..].
  exists d. split; [done|].
  destruct (history_record_figures _ _ _ _ _ _ d "2026-01-01T10:00:00"
              "/sessions/a.jsonl" "s1" Hd) as (_ & [Hlow Hhigh] & _).
  change (duration_s overlapping_log * 1000)%Q with (2 * 1000)%Q in Hlow, Hhigh.
  rewrite <- (inject_Z_plus _ 1) in Hhigh.
  change (2 * 1000)%Q with (inject_Z 2000) in Hlow, Hhigh.
  rewrite <- Zle_Qle in Hlow. rewrite <- Zlt_Qlt in Hhigh. lia.
Defined.
